(** * teleprompter-server: deep observation and patch reconciliation

    A shallow embedding of [src/observer.js] ([DeepObserve], [observe],
    [applyChange]), of the event registry, the project library, the
    shutdown counter and the pre-loading of [src/server.js] ([addTrigger],
    [on], [getProj], [addOnClosed], the constructor's [getProjs] callback),
    and of [getQueryProperty] of [src/socket.js].

    JavaScript objects live in a heap of property lists; every own property
    carries its descriptor.  Code that can throw runs in a state monad with
    exceptions, so that what a call wrote before it threw is still there.

    What the model covers:
    - values are [undefined], [null], booleans, integers, strings, functions
      and symbols by identity, and references to objects;
    - objects are ordinary and extensible.  Arrays are not modelled, nor are
      the members objects inherit from [Object.prototype]: a statement that
      would not hold of an array, or of a key that is the name of such a
      member, excludes them by a hypothesis ([Ordinary], [Inherited]);
    - a [Proxy] is its handler and its target, and the engine's check of
      what the [get] trap returns is part of the trap;
    - an accessor property is backed by a private slot, as the accessor pair
      [observe] synthesises is; its setter stores, rejects by throwing, or is
      missing;
    - the collaborators are recorded, not run: a call of [log] or [log.err]
      is an event of the log, a call of the user's callback is an entry of
      [calls] with a picture of its argument, and [process.nextTick] queues.
      The callback returns when it is called; the turn in which it throws is
      [Sched.failing_turn];
    - converting an object or a function to a string runs code of the
      program: its outcome is a component of the state ([Server.conversion]). *)

From Stdlib Require Import ZArith NArith String Ascii List Bool Lia.
From stdpp Require Import base option list gmap strings pretty sorting.
Import ListNotations.

Local Open Scope string_scope.
Local Open Scope list_scope.

(** ** Values, descriptors and the heap *)

Module JS.

Definition loc := nat.

(** Numbers are integers in this model (no NaN, no negative zero). *)
Inductive value :=
| VUndef
| VNull
| VBool (b : bool)
| VNum (n : Z)
| VStr (s : string)
| VFun (f : nat)
| VSym (y : nat)
| VObj (l : loc).

#[global] Instance value_eq_dec : EqDecision value.
Proof. solve_decision. Defined.

(** Setter functions met by the reconciler: none, the slot-backed setter that
    [observe] synthesises ([descriptor.value = value]), or one that rejects
    the value by throwing. *)
Inductive setter := NoSetter | StoreSetter | RejectSetter.

#[global] Instance setter_eq_dec : EqDecision setter.
Proof. solve_decision. Defined.

(** An own property together with its descriptor.  An accessor is backed by a
    private slot, the shape [observe] gives to the accessor pair it
    synthesises: the getter (when there is one) returns the slot. *)
Inductive prop :=
| Data (v : value) (writable enumerable configurable : bool)
| Accessor (slot : value) (getter : bool) (set : setter)
           (enumerable configurable : bool).

#[global] Instance prop_eq_dec : EqDecision prop.
Proof. solve_decision. Defined.

(** Own properties in creation order. *)
Definition object := list (string * prop).

Inductive exn :=
| TypeError_nullish          (* property read on null or undefined *)
| TypeError_readonly         (* strict-mode write that cannot be done *)
| TypeError_delete           (* strict-mode delete of a locked property *)
| TypeError_redefine         (* defineProperty on a locked property *)
| TypeError_symbol           (* a Symbol converted to a string *)
| TypeError_proxy            (* new Proxy over something not an object *)
| TypeError_not_function     (* a call of something not a function *)
| TypeError_invariant        (* a trap result the engine's Proxy check refuses *)
| TypeError_msg (prefix : string) (arg : value)  (* TypeError(prefix + arg) *)
| SetterRejected             (* thrown by a rejecting setter *)
| Thrown (name : string).    (* thrown by code of the user: [new name()] *)

#[global] Instance exn_eq_dec : EqDecision exn.
Proof. solve_decision. Defined.

Definition is_TypeError (e : exn) : bool :=
  match e with
  | SetterRejected => false
  | Thrown name => bool_decide (name = "TypeError")
  | _ => true
  end.

Inductive outcome (A : Type) :=
| Ok (a : A)
| Throw (e : exn)
| OutOfFuel.
Arguments Ok {A} a.
Arguments Throw {A} e.
Arguments OutOfFuel {A}.

(** *** typeof, truthiness, strict equality *)

Inductive jstype :=
  TUndefined | TObject | TBoolean | TNumber | TString | TFunction | TSymbol.

#[global] Instance jstype_eq_dec : EqDecision jstype.
Proof. solve_decision. Defined.

Definition typeof (v : value) : jstype :=
  match v with
  | VUndef => TUndefined
  | VNull => TObject
  | VBool _ => TBoolean
  | VNum _ => TNumber
  | VStr _ => TString
  | VFun _ => TFunction
  | VSym _ => TSymbol
  | VObj _ => TObject
  end.

Definition truthy (v : value) : bool :=
  match v with
  | VUndef | VNull => false
  | VBool b => b
  | VNum n => negb (n =? 0)%Z
  | VStr s => negb (bool_decide (s = ""))
  | VFun _ | VSym _ | VObj _ => true
  end.

(** [a === b]: primitives by value, objects, functions and symbols by
    identity. *)
Definition strict_eq (a b : value) : bool := bool_decide (a = b).

(** *** Property keys and their enumeration order *)

Definition digit_of (c : ascii) : option N :=
  let n := N_of_ascii c in
  if ((48 <=? n) && (n <=? 57))%N then Some (n - 48)%N else None.

Fixpoint parse_digits (acc : N) (s : string) : option N :=
  match s with
  | EmptyString => Some acc
  | String c s' =>
      match digit_of c with
      | Some d => parse_digits (acc * 10 + d)%N s'
      | None => None
      end
  end.

(** A key is an array index when it is the canonical decimal form of an
    integer below 2^32 - 1. *)
Definition array_index (k : string) : option N :=
  match k with
  | EmptyString => None
  | _ =>
      match parse_digits 0%N k with
      | Some n =>
          if bool_decide (pretty n = k) && (n <? 4294967295)%N
          then Some n else None
      | None => None
      end
  end.

(** Own keys come out with the array indices first, ascending, then the other
    keys in creation order. *)
Definition key_order (ks : list string) : list string :=
  map pretty (merge_sort N.le (omap array_index ks))
  ++ filter (fun k => array_index k = None) ks.

Fixpoint assoc (k : string) (o : object) : option prop :=
  match o with
  | [] => None
  | (k', p) :: o' => if bool_decide (k' = k) then Some p else assoc k o'
  end.

Fixpoint assoc_set (k : string) (p : prop) (o : object) : object :=
  match o with
  | [] => [(k, p)]
  | (k', p') :: o' =>
      if bool_decide (k' = k) then (k', p) :: o'
      else (k', p') :: assoc_set k p o'
  end.

Fixpoint assoc_del (k : string) (o : object) : object :=
  match o with
  | [] => []
  | (k', p') :: o' =>
      if bool_decide (k' = k) then assoc_del k o'
      else (k', p') :: assoc_del k o'
  end.

Definition prop_enumerable (p : prop) : bool :=
  match p with
  | Data _ _ e _ => e
  | Accessor _ _ _ e _ => e
  end.

Definition prop_configurable (p : prop) : bool :=
  match p with
  | Data _ _ _ c => c
  | Accessor _ _ _ _ c => c
  end.

Definition prop_set_enumerable (e : bool) (p : prop) : prop :=
  match p with
  | Data v w _ c => Data v w e c
  | Accessor s g f _ c => Accessor s g f e c
  end.

(** Reading a property runs its getter. *)
Definition prop_read (p : option prop) : value :=
  match p with
  | Some (Data v _ _ _) => v
  | Some (Accessor slot true _ _ _) => slot
  | Some (Accessor _ false _ _ _) => VUndef
  | None => VUndef
  end.

(** [descriptor.value] of a property descriptor. *)
Definition descriptor_value (p : prop) : value :=
  match p with
  | Data v _ _ _ => v
  | Accessor _ _ _ _ _ => VUndef
  end.

(** [descriptor.set] of a property descriptor. *)
Definition descriptor_set (p : prop) : setter :=
  match p with
  | Data _ _ _ _ => NoSetter
  | Accessor _ _ f _ _ => f
  end.

Definition enumerable_keys (o : object) : list string :=
  key_order (map fst (filter (fun kp => prop_enumerable (snd kp) = true) o)).

(** *** The heap *)

Definition obj_at (h : gmap loc object) (l : loc) : object :=
  default [] (h !! l).

Definition own (h : gmap loc object) (l : loc) (k : string) : option prop :=
  assoc k (obj_at h l).

(** [obj[key]] on an object. *)
Definition get (h : gmap loc object) (l : loc) (k : string) : value :=
  prop_read (own h l k).

(** [obj.hasOwnProperty(key)] *)
Definition hasOwnProperty (h : gmap loc object) (l : loc) (k : string) : bool :=
  bool_decide (is_Some (own h l k)).

(** [obj.propertyIsEnumerable(key)] *)
Definition propertyIsEnumerable (h : gmap loc object) (l : loc) (k : string)
  : bool :=
  match own h l k with
  | Some p => prop_enumerable p
  | None => false
  end.

(** [obj[key] = v] in strict mode, on an ordinary, extensible object and for
    a key that an own property answers for or that nothing answers for (on
    an array a new index changes [length] too, and [__proto__] on an object
    that does not own it is answered by the setter inherited from
    [Object.prototype]: see [Ordinary]). *)
Definition put (h : gmap loc object) (l : loc) (k : string) (v : value)
  : exn + gmap loc object :=
  let o := obj_at h l in
  match assoc k o with
  | Some (Data _ true e c) => inr (<[l := assoc_set k (Data v true e c) o]> h)
  | Some (Data _ false _ _) => inl TypeError_readonly
  | Some (Accessor _ g StoreSetter e c) =>
      inr (<[l := assoc_set k (Accessor v g StoreSetter e c) o]> h)
  | Some (Accessor _ _ RejectSetter _ _) => inl SetterRejected
  | Some (Accessor _ _ NoSetter _ _) => inl TypeError_readonly
  | None => inr (<[l := assoc_set k (Data v true true true) o]> h)
  end.

(** [delete obj[key]] in strict mode. *)
Definition delete (h : gmap loc object) (l : loc) (k : string)
  : exn + gmap loc object :=
  let o := obj_at h l in
  match assoc k o with
  | Some p =>
      if prop_configurable p then inr (<[l := assoc_del k o]> h)
      else inl TypeError_delete
  | None => inr h
  end.

(** [Object.defineProperty(obj, key, {enumerable: e})] *)
Definition defineEnumerable (h : gmap loc object) (l : loc) (k : string)
  (e : bool) : exn + gmap loc object :=
  let o := obj_at h l in
  match assoc k o with
  | Some p =>
      if prop_configurable p
      then inr (<[l := assoc_set k (prop_set_enumerable e p) o]> h)
      else if bool_decide (prop_enumerable p = e) then inr h
      else inl TypeError_redefine
  | None => inr (<[l := assoc_set k (Data VUndef false e false) o]> h)
  end.

(** Calling the function [descriptor.set] of the property [key] of [obj]. *)
Definition call_setter (h : gmap loc object) (l : loc) (k : string)
  (v : value) : exn + gmap loc object :=
  let o := obj_at h l in
  match assoc k o with
  | Some (Accessor _ g StoreSetter e c) =>
      inr (<[l := assoc_set k (Accessor v g StoreSetter e c) o]> h)
  | Some (Accessor _ _ RejectSetter _ _) => inl SetterRejected
  | _ => inr h
  end.

(** [descriptor && !descriptor.configurable] *)
Definition is_locked (descriptor : option prop) : bool :=
  match descriptor with
  | Some d => negb (prop_configurable d)
  | None => false
  end.

(** A data property that is neither writable nor configurable: a [Proxy]
    must report its value as it is. *)
Definition is_constant (descriptor : option prop) : bool :=
  match descriptor with
  | Some (Data _ false _ false) => true
  | _ => false
  end.

(** *** The monad of code that has state and may throw

    State survives an exception: what was written before a throw stays
    written. *)

Definition M (S A : Type) : Type := S -> outcome A * S.

Definition ret {S A} (a : A) : M S A := fun s => (Ok a, s).

Definition bind {S A B} (m : M S A) (k : A -> M S B) : M S B :=
  fun s =>
    match m s with
    | (Ok a, s') => k a s'
    | (Throw e, s') => (Throw e, s')
    | (OutOfFuel, s') => (OutOfFuel, s')
    end.

Definition throw {S A} (e : exn) : M S A := fun s => (Throw e, s).

Definition out_of_fuel {S A} : M S A := fun s => (OutOfFuel, s).

(** [try { body } catch (err) { handler }] *)
Definition try_catch {S A} (body : M S A) (handler : exn -> M S A) : M S A :=
  fun s =>
    match body s with
    | (Throw e, s') => handler e s'
    | r => r
    end.

Definition gets {S A} (f : S -> A) : M S A := fun s => (Ok (f s), s).

Definition modify {S} (f : S -> S) : M S unit := fun s => (Ok tt, f s).

Module Notations.
Notation "'let*' x ':=' m 'in' k" := (bind m (fun x => k))
  (at level 10, x name, m at level 100, k at level 200).
Notation "m ';;' k" := (bind m (fun _ => k))
  (at level 100, k at level 200, right associativity).
End Notations.

End JS.

(** ** The patch reconciler: [applyChange] *)

Module Reconcile.
Import JS JS.Notations.

(** Calls to the logging collaborator: [log(...args)] and
    [log.err(...args)], the latter optionally followed by [.ERROR(err)]. *)
Inductive event :=
| Log (args : list value)
| LogErr (args : list value) (detail : option exn).

#[global] Instance event_eq_dec : EqDecision event.
Proof. solve_decision. Defined.

Record state := mkState { heap : gmap loc object; log : list event }.

Abbreviation M := (JS.M state).

Definition emit (e : event) : M unit :=
  fun s => (Ok tt, mkState (heap s) (log s ++ [e])).

(** A heap update that may throw. *)
Definition update (f : gmap loc object -> exn + gmap loc object) : M unit :=
  fun s =>
    match f (heap s) with
    | inr h' => (Ok tt, mkState h' (log s))
    | inl e => (Throw e, s)
    end.

(** An operand of [applyChange] is an object or [null]; touching a property
    of [null] throws a TypeError. *)
Definition on_object {A} (o : option loc) (f : gmap loc object -> loc -> A)
  : M A :=
  fun s =>
    match o with
    | Some l => (Ok (f (heap s) l), s)
    | None => (Throw TypeError_nullish, s)
    end.

Definition read (o : option loc) (k : string) : M value :=
  on_object o (fun h l => get h l k).

Definition getOwnPropertyDescriptor (o : option loc) (k : string)
  : M (option prop) :=
  on_object o (fun h l => own h l k).

Definition has_own (o : option loc) (k : string) : M bool :=
  on_object o (fun h l => hasOwnProperty h l k).

Definition is_enumerable (o : option loc) (k : string) : M bool :=
  on_object o (fun h l => propertyIsEnumerable h l k).

Definition on_object_update (o : option loc)
  (f : gmap loc object -> loc -> exn + gmap loc object) : M unit :=
  match o with
  | Some l => update (fun h => f h l)
  | None => throw TypeError_nullish
  end.

Definition write (o : option loc) (k : string) (v : value) : M unit :=
  on_object_update o (fun h l => put h l k v).

(** The operand a value of type 'object' denotes. *)
Definition as_operand (v : value) : option loc :=
  match v with
  | VObj l => Some l
  | _ => None
  end.

Definition own_enumerable_keys (h : gmap loc object) (o : option loc)
  : list string :=
  match o with
  | Some l => enumerable_keys (obj_at h l)
  | None => []
  end.

Definition dedup (ks : list string) : list string :=
  fold_left (fun acc k => if bool_decide (k ∈ acc) then acc else acc ++ [k])
            ks [].

(** [Object.keys({...oldObj, ...newObj})]; spreading [null] adds nothing. *)
Definition union_keys (h : gmap loc object) (oldObj newObj : option loc)
  : list string :=
  key_order (dedup (own_enumerable_keys h oldObj
                    ++ own_enumerable_keys h newObj)).

Fixpoint forEach (ks : list string) (f : string -> M unit) : M unit :=
  match ks with
  | [] => ret tt
  | k :: ks' => f k ;; forEach ks' f
  end.

(** The callback of [forEach] in [applyChange]; [rec] stands for
    [exports.applyChange]. *)
Definition applyKey (rec : option loc -> option loc -> string -> M unit)
  (oldObj newObj : option loc) (keyPath key : string) : M unit :=
  let* nv := read newObj key in
  let* ov := read oldObj key in
  if strict_eq nv ov then ret tt else
  let* descriptor := getOwnPropertyDescriptor oldObj key in
  if is_locked descriptor then
    let* supplied := has_own newObj key in
    if supplied
    then emit (LogErr [VStr "Unable to modify locked property:"; VStr key] None)
    else ret tt
  else
  let* visible := is_enumerable oldObj key in
  if negb visible then
    let* assigned :=
      try_catch
        (let* v := read newObj key in write oldObj key v ;; ret true)
        (fun err =>
           emit (LogErr [VStr "Unable to add property:"; VStr key]
                        (Some err)) ;;
           ret false) in
    if assigned then
      let* present := has_own oldObj key in
      (if present
       then on_object_update oldObj (fun h l => defineEnumerable h l key true)
       else ret tt) ;;
      let* v := read newObj key in
      emit (Log [VStr ("Added property '" +:+ keyPath +:+ key
                       +:+ "' with value:"); v])
    else ret tt
  else
  let* supplied := has_own newObj key in
  if negb supplied then
    match descriptor with
    | None => throw TypeError_nullish
    | Some d =>
        (if truthy (descriptor_value d)
         then on_object_update oldObj (fun h l => delete h l key)
         else
           (match descriptor_set d with
            | NoSetter => ret tt
            | _ => on_object_update oldObj
                     (fun h l => call_setter h l key VUndef)
            end) ;;
           on_object_update oldObj
             (fun h l => defineEnumerable h l key false)) ;;
        emit (Log [VStr "Removed property:"; VStr (keyPath +:+ key)])
    end
  else
  let* nv1 := read newObj key in
  let* both :=
    (if bool_decide (typeof nv1 = TObject)
     then let* ov1 := read oldObj key in
          ret (bool_decide (typeof ov1 = TObject))
     else ret false) in
  if (both : bool) then
    let* ov2 := read oldObj key in
    let* nv2 := read newObj key in
    rec (as_operand ov2) (as_operand nv2) (key +:+ "/")
  else
    let* assigned :=
      try_catch
        (let* v := read newObj key in write oldObj key v ;; ret true)
        (fun err =>
           emit (LogErr [VStr "Unable to update property:"; VStr key]
                        (Some err)) ;;
           ret false) in
    if assigned then
      let* v := read newObj key in
      emit (Log [VStr ("Updated property '" +:+ keyPath +:+ key
                       +:+ "' to:"); v])
    else ret tt.

(** [exports.applyChange(oldObj, newObj, keyPath)].  The recursion follows the
    object graph, so it is bounded by [fuel]. *)
Fixpoint applyChange (fuel : nat) (oldObj newObj : option loc)
  (keyPath : string) : M unit :=
  match fuel with
  | O => out_of_fuel
  | S fuel' =>
      fun s =>
        forEach (union_keys (heap s) oldObj newObj)
                (applyKey (applyChange fuel') oldObj newObj keyPath) s
  end.

End Reconcile.

(** ** The observed tree: [DeepObserve] and [observe] *)

Module Observer.
Import JS JS.Notations.

(** Modelled from the spec: the helper [./isObj] is not among the sources;
    the spec has [get] return the value verbatim "if target[key] is not an
    object", so [isObj] holds of objects and of nothing else. *)
Definition isObj (v : value) : bool :=
  match v with
  | VObj _ => true
  | _ => false
  end.

(** A JSON-like picture of a value, taken when the callback is called. *)
Local Unset Elimination Schemes.
Inductive json :=
| JLeaf (v : value)
| JObj (fields : list (string * json)).
Local Set Elimination Schemes.

Fixpoint reify (fuel : nat) (h : gmap loc object) (v : value) {struct fuel}
  : json :=
  match v, fuel with
  | VObj l, S fuel' =>
      JObj (map (fun k => (k, reify fuel' h (get h l k)))
                (enumerable_keys (obj_at h l)))
  | _, _ => JLeaf v
  end.

(** The result of an expression: a raw value, or a [Proxy] over [target]
    whose handler is the node [handler]. *)
Inductive ref :=
| Raw (v : value)
| Proxy (handler : nat) (target : loc).

(** The own properties a [DeepObserve] node may carry.  A node inherits from
    the shared prototype object, which has none of them, so a property never
    assigned reads as [undefined]. *)
Record node := mkNode {
  n_proxy : option loc;                    (* target of [this.proxy], if set *)
  n_children : option (gmap string nat);   (* [this.children] *)
  n_tmp : value;                           (* [this.tmp] *)
  n_store : value                          (* [this.store] *)
}.

Definition empty_node : node := mkNode None None VUndef VUndef.

(** The properties hung on the user's callback function. *)
Record cbprops := mkCb {
  cb_wait : bool;
  cb_key : string;
  cb_store : value;
  cb_tmp : value
}.

(** The closure variables of [observe]: [descriptor.value], whether
    [descriptor.get] exists, the kind of [descriptor.set], and the
    enumerability of the bound property of the host. *)
Record binding := mkBinding {
  b_host : loc;
  b_key : string;
  b_slot : value;
  b_getter : bool;
  b_setter : setter;
  b_enumerable : bool
}.

Record state := mkState {
  heap : gmap loc object;
  next : loc;                       (* next unused heap location *)
  nodes : gmap nat node;            (* the nodes created so far *)
  next_node : nat;
  cb : cbprops;
  pending : nat;                    (* callbacks queued by process.nextTick *)
  calls : list (value * json);      (* calls of the user's callback *)
  bound : binding
}.

Abbreviation M := (JS.M state).

Definition top : nat := 0.

Definition with_heap (f : gmap loc object -> gmap loc object) (s : state) :=
  mkState (f (heap s)) (next s) (nodes s) (next_node s) (cb s) (pending s)
          (calls s) (bound s).
Definition with_nodes (f : gmap nat node -> gmap nat node) (s : state) :=
  mkState (heap s) (next s) (f (nodes s)) (next_node s) (cb s) (pending s)
          (calls s) (bound s).
Definition with_cb (f : cbprops -> cbprops) (s : state) :=
  mkState (heap s) (next s) (nodes s) (next_node s) (f (cb s)) (pending s)
          (calls s) (bound s).
Definition with_pending (f : nat -> nat) (s : state) :=
  mkState (heap s) (next s) (nodes s) (next_node s) (cb s) (f (pending s))
          (calls s) (bound s).
Definition with_calls (f : list (value * json) -> list (value * json))
  (s : state) :=
  mkState (heap s) (next s) (nodes s) (next_node s) (cb s) (pending s)
          (f (calls s)) (bound s).
Definition with_bound (f : binding -> binding) (s : state) :=
  mkState (heap s) (next s) (nodes s) (next_node s) (cb s) (pending s)
          (calls s) (f (bound s)).

Definition node_at (s : state) (n : nat) : node :=
  default empty_node (nodes s !! n).

Definition this (n : nat) : M node := gets (fun s => node_at s n).

Definition set_node (n : nat) (f : node -> node) : M unit :=
  modify (fun s => with_nodes <[n := f (node_at s n)]> s).

Definition set_proxy (p : option loc) (x : node) : node :=
  mkNode p (n_children x) (n_tmp x) (n_store x).
Definition set_children (c : option (gmap string nat)) (x : node) : node :=
  mkNode (n_proxy x) c (n_tmp x) (n_store x).
Definition set_tmp (v : value) (x : node) : node :=
  mkNode (n_proxy x) (n_children x) v (n_store x).
Definition set_store (v : value) (x : node) : node :=
  mkNode (n_proxy x) (n_children x) (n_tmp x) v.

(** The object literal [{}]. *)
Definition new_object : M loc :=
  fun s =>
    (Ok (next s),
     mkState (<[next s := []]> (heap s)) (S (next s)) (nodes s) (next_node s)
             (cb s) (pending s) (calls s) (bound s)).

(** [Object.create(this.prototype)] *)
Definition new_node : M nat :=
  fun s =>
    (Ok (next_node s),
     mkState (heap s) (next s) (<[next_node s := empty_node]> (nodes s))
             (S (next_node s)) (cb s) (pending s) (calls s) (bound s)).

Definition heap_update (f : gmap loc object -> exn + gmap loc object)
  : M unit :=
  fun s =>
    match f (heap s) with
    | inr h' => (Ok tt, with_heap (fun _ => h') s)
    | inl e => (Throw e, s)
    end.

(** [base[key]] on any value.  Members of built-in prototypes and own
    properties of functions are not modelled. *)
Definition read_value (base : value) (k : string) : M value :=
  match base with
  | VObj l => gets (fun s => get (heap s) l k)
  | VUndef | VNull => throw TypeError_nullish
  | VStr str =>
      match array_index k with
      | Some i =>
          ret (if (N.to_nat i <? String.length str)%nat
               then VStr (substring (N.to_nat i) 1 str) else VUndef)
      | None =>
          ret (if bool_decide (k = "length")
               then VNum (Z.of_nat (String.length str)) else VUndef)
      end
  | _ => ret VUndef
  end.

(** [base[key] = v] on any value, in strict mode. *)
Definition write_value (base : value) (k : string) (v : value) : M unit :=
  match base with
  | VObj l => heap_update (fun h => put h l k v)
  | VUndef | VNull => throw TypeError_nullish
  | _ => throw TypeError_readonly
  end.

(** The user's callback, called with [arg]. *)
Definition callback (arg : value) : M unit :=
  modify (fun s =>
    with_calls (fun c => c ++ [(arg, reify (next s) (heap s) arg)]) s).

(** [DeepObserve.prototype.getProxy] *)
Definition getProxy (self : nat) (obj : loc) : M ref :=
  let* n := this self in
  match n_proxy n with
  | Some t => ret (Proxy self t)
  | None =>
      set_node self (set_children (Some ∅)) ;;
      set_node self (set_proxy (Some obj)) ;;
      ret (Proxy self obj)
  end.

(** [DeepObserve.prototype.topGetter] *)
Definition topGetter (self : nat) (v : value) : M ref :=
  if negb (isObj v) then ret (Raw v)
  else
    match v with
    | VObj l => getProxy self l
    | _ => throw TypeError_proxy
    end.

(** The function queued by [process.nextTick] in [nextCallback]: every node
    reaches the same [top] and the same callback through its prototype.  The
    callback returns; when it throws, the two statements after the call are
    not run ([Sched.failing_tick]). *)
Definition tick_body : M unit :=
  let* t := this top in
  callback (n_store t) ;;
  let* fresh := new_object in
  set_node top (set_store (VObj fresh)) ;;
  modify (with_cb (fun c => mkCb false (cb_key c) (cb_store c) (cb_tmp c))).

(** [DeepObserve.prototype.nextCallback]: yields the object the change is to
    be written into. *)
Definition nextCallback (self : nat) : M value :=
  set_node self (set_proxy None) ;;
  let* c := gets cb in
  (if cb_wait c then ret tt
   else
     modify (with_cb (fun c => mkCb true (cb_key c) (cb_store c) (cb_tmp c))) ;;
     modify (with_pending S)) ;;
  let* n := this self in
  if truthy (n_store n) then ret (n_store n)
  else
    let* c := gets cb in
    write_value (cb_store c) (cb_key c) (cb_tmp c) ;;
    let* n := this self in
    ret (n_tmp n).

(** [DeepObserve.prototype.get], the [get] trap, as the engine runs it: when
    the trap has returned, the engine compares the result with the target's
    own property and throws a TypeError if that property is a data property
    neither writable nor configurable and the result is not its value.  The
    trap returns the value itself unless it is an object, and a fresh [Proxy]
    if it is.  The keys are own keys of the tree: for a name [children]
    inherits from [Object.prototype] the trap finds a member that is no
    node. *)
Definition get_trap (self : nat) (target : loc) (key : string) : M ref :=
  let* v := gets (fun s => get (heap s) target key) in
  if negb (isObj v) then ret (Raw v)
  else
    let* n := this self in
    match n_children n with
    | None => throw TypeError_nullish
    | Some children =>
        let* child :=
          match children !! key with
          | Some c => ret c
          | None =>
              let* c := new_node in
              set_node self (set_children (Some (<[key := c]> children))) ;;
              ret c
          end in
        let* t := new_object in
        set_node child (set_tmp (VObj t)) ;;
        let* n := this self in
        (if truthy (n_store n) then
           let* sv := read_value (n_store n) key in
           set_node child (set_store sv) ;;
           modify (with_cb (fun c => mkCb (cb_wait c) key (n_store n) (VObj t)))
         else
           let* ct := this child in
           write_value (n_tmp n) key (n_tmp ct)) ;;
        let* v' := gets (fun s => get (heap s) target key) in
        let* proxy :=
          match v' with
          | VObj l => getProxy child l
          | _ => throw TypeError_proxy
          end in
        let* descriptor := gets (fun s => own (heap s) target key) in
        if is_constant descriptor then throw TypeError_invariant
        else ret proxy
    end.

(** [DeepObserve.prototype.set], the [set] trap. *)
Definition set_trap (self : nat) (target : loc) (key : string) (v : value)
  : M bool :=
  let* dst := nextCallback self in
  write_value dst key v ;;
  heap_update (fun h => put h target key v) ;;
  ret true.

(** [DeepObserve.prototype.deleteProperty], the [deleteProperty] trap. *)
Definition deleteProperty (self : nat) (target : loc) (key : string)
  : M bool :=
  let* dst := nextCallback self in
  write_value dst key VNull ;;
  heap_update (fun h => delete h target key) ;;
  ret true.

(** [setter.mid] of [observe]. *)
Definition mid (v : value) : M unit :=
  let* b := gets bound in
  let* visible :=
    gets (fun s => propertyIsEnumerable (heap s) (b_host b) "undefined") in
  (if negb visible
   then modify (with_bound (fun b =>
          mkBinding (b_host b) (b_key b) (b_slot b) (b_getter b) (b_setter b)
                    true))
   else ret tt) ;;
  let* t := this top in
  (match n_proxy t with
   | Some _ => set_node top (set_proxy None)
   | None => ret tt
   end) ;;
  let* c := gets cb in
  if cb_wait c then set_node top (set_store v)
  else callback v.

(** [descriptor.set(value)] inside the installed setter. *)
Definition inner_set (v : value) : M unit :=
  let* b := gets bound in
  match b_setter b with
  | StoreSetter =>
      modify (with_bound (fun b =>
        mkBinding (b_host b) (b_key b) v (b_getter b) (b_setter b)
                  (b_enumerable b)))
  | RejectSetter => throw SetterRejected
  | NoSetter => throw TypeError_not_function
  end.

(** Writing the bound property: the function [setter] of [observe]. *)
Definition host_set (v : value) : M unit :=
  mid v ;; inner_set v.

(** Reading the bound property: the installed getter. *)
Definition host_get : M ref :=
  let* b := gets bound in
  if b_getter b then topGetter top (b_slot b) else ret (Raw VUndef).

(** What the installed getter obtains from [descriptor.get()]; without a
    getter the property reads as [undefined]. *)
Definition current_value (b : binding) : value :=
  if b_getter b then b_slot b else VUndef.

(** [exports.observe(obj, key, callback)] on the heap [h] whose locations from
    [nxt] on are unused.  [None]: nothing was installed (getter-only
    property).  The bound property is kept in [bound], not in the heap; the
    callback is a function not used for another binding. *)
Definition observe (h : gmap loc object) (nxt : loc) (obj : loc) (key : string)
  : exn + option state :=
  let descriptor := own h obj key in
  let closure :=
    match descriptor with
    | None => Some (VUndef, true, StoreSetter)
    | Some (Data v _ _ _) => Some (v, true, StoreSetter)
    | Some (Accessor _ true NoSetter _ _) => None
    | Some (Accessor _ false NoSetter _ _) => Some (VUndef, true, StoreSetter)
    | Some (Accessor slot g f _ _) => Some (slot, g, f)
    end in
  match closure with
  | None => inr None
  | Some (slot, g, f) =>
      if is_locked descriptor then inl TypeError_redefine
      else
        inr (Some
          (mkState (<[nxt := []]> h) (S nxt)
                   {[ top := mkNode None None VUndef (VObj nxt) ]} 1
                   (mkCb false "undefined" VUndef VUndef) 0 []
                   (mkBinding obj key slot g f
                      (match descriptor with
                       | Some p => prop_enumerable p
                       | None => false
                       end))))
  end.

(** *** Expressions over the results of reads *)

(** [r.key] *)
Definition ref_get (r : ref) (key : string) : M ref :=
  match r with
  | Proxy n t => get_trap n t key
  | Raw v => let* x := read_value v key in ret (Raw x)
  end.

(** [r.key = v] *)
Definition ref_set (r : ref) (key : string) (v : value) : M unit :=
  match r with
  | Proxy n t => set_trap n t key v ;; ret tt
  | Raw b => write_value b key v
  end.

(** [delete r.key] *)
Definition ref_delete (r : ref) (key : string) : M unit :=
  match r with
  | Proxy n t => deleteProperty n t key ;; ret tt
  | Raw (VObj l) => heap_update (fun h => delete h l key)
  | Raw (VUndef | VNull) => throw TypeError_nullish
  | Raw _ => ret tt
  end.

(** The path [host[key].k1.k2...] read from the bound property. *)
Fixpoint ref_path (r : ref) (path : list string) : M ref :=
  match path with
  | [] => ret r
  | k :: path' => let* r' := ref_get r k in ref_path r' path'
  end.

Definition navigate (path : list string) : M ref :=
  let* r := host_get in ref_path r path.

(** The statement [host[key].p1. ... .pn.k = v], [v] a constant. *)
Definition assign (path : list string) (k : string) (v : value) : M unit :=
  let* r := navigate path in ref_set r k v.

(** The statement [delete host[key].p1. ... .pn.k]. *)
Definition remove (path : list string) (k : string) : M unit :=
  let* r := navigate path in ref_delete r k.

(** *** The scheduler *)

Fixpoint run_ticks (n : nat) : M unit :=
  match n with
  | O => ret tt
  | S n' => tick_body ;; run_ticks n'
  end.

(** The next scheduling opportunity: the queued callbacks run. *)
Definition next_turn : M unit :=
  let* n := gets pending in
  modify (with_pending (fun _ => 0)) ;;
  run_ticks n.

End Observer.

(** ** The event-registration surface of [src/server.js] *)

Module Server.
Import JS JS.Notations.

(** A [trigger] function object with the two properties [addTrigger] gives
    it. *)
Record trigger := mkTrigger {
  t_callback : value;         (* [trigger.callback] *)
  listeners : list value      (* [trigger.listeners] *)
}.

(** What [on] touches: [this.triggers] of the server, a record of the
    first-listener callbacks that were called, each with its event, and what
    becomes of an object or a function that is converted to a string.  That
    conversion runs the [Symbol.toPrimitive], [toString] or [valueOf] the
    argument has: [None] when it returns (as the members inherited from
    [Object.prototype] and [Function.prototype] do), [Some e] when it throws
    [e]. *)
Record server := mkServer {
  triggers : gmap string trigger;
  fired : list (value * string);
  conversion : value -> option exn
}.

Abbreviation M := (JS.M server).

(** Converting the value to a string runs code that the value brings
    along. *)
Definition converts_itself (arg : value) : bool :=
  match arg with
  | VObj _ | VFun _ => true
  | _ => false
  end.

(** What [throw TypeError(prefix + arg)] throws.  The concatenation comes
    first: a Symbol cannot be converted to a string, and an object or a
    function is asked to convert itself, which may throw; only then is the
    TypeError built. *)
Definition type_error (convert : value -> option exn) (prefix : string)
  (arg : value) : exn :=
  match arg with
  | VSym _ => TypeError_symbol
  | VObj _ | VFun _ =>
      match convert arg with
      | Some e => e
      | None => TypeError_msg prefix arg
      end
  | _ => TypeError_msg prefix arg
  end.

(** [Server.prototype.addTrigger] *)
Definition addTrigger (event : string) (callback : value) : M unit :=
  modify (fun s =>
    mkServer (<[event := mkTrigger callback []]> (triggers s)) (fired s)
             (conversion s)).

(** [Server.prototype.on].  The event, when it is a string, is not the name
    of a member of [Object.prototype], which [this.triggers] would answer
    for ([Inherited]). *)
Definition on (event callback : value) : M unit :=
  match event with
  | VStr ev =>
      if negb (bool_decide (typeof callback = TFunction))
      then
        let* convert := gets conversion in
        throw (type_error convert "Callback needs to be a function: "
                          callback)
      else
        let* ts := gets triggers in
        match ts !! ev with
        | None => ret tt
        | Some t =>
            modify (fun s =>
              mkServer (<[ev := mkTrigger (t_callback t)
                                          (listeners t ++ [callback])]>
                          (triggers s))
                       (fired s) (conversion s)) ;;
            if truthy (t_callback t) then
              (match t_callback t with
               | VFun _ =>
                   modify (fun s =>
                     mkServer (triggers s) (fired s ++ [(t_callback t, ev)])
                              (conversion s))
               | _ => throw TypeError_not_function
               end) ;;
              modify (fun s =>
                mkServer (<[ev := mkTrigger VNull (listeners t ++ [callback])]>
                            (triggers s))
                         (fired s) (conversion s))
            else ret tt
        end
  | _ =>
      let* convert := gets conversion in
      throw (type_error convert "Event needs to be a string: " event)
  end.

(** The argument that [on] refuses: the event if it is not a string,
    otherwise the callback. *)
Definition offending (event callback : value) : value :=
  if bool_decide (typeof event = TString) then callback else event.

End Server.

(** ** Closed trees and programs used as examples *)

Module Examples.
Import JS JS.Notations.

(** A plain property, as an object literal or [JSON.parse] creates it. *)
Definition plain (v : value) : prop := Data v true true true.

Definition heap_of (objs : list (loc * object)) : gmap loc object :=
  list_to_map objs.

(** [previous = {x: 1}] with [x] locked, [incoming = {x: 2}]. *)
Definition locked_heap : gmap loc object :=
  heap_of [(1, [("x", Data (VNum 1) true true false)]);
           (2, [("x", plain (VNum 2))])].

(** [previous = {y: 1}], [incoming = {}]. *)
Definition plain_y_heap : gmap loc object :=
  heap_of [(1, [("y", plain (VNum 1))]); (2, [])].

(** [previous = {a: {k: 1}}], [incoming = {a: {k: 2}}]. *)
Definition nested_heap : gmap loc object :=
  heap_of [(1, [("a", plain (VObj 3))]);
           (2, [("a", plain (VObj 4))]);
           (3, [("k", plain (VNum 1))]);
           (4, [("k", plain (VNum 2))])].

(** [previous = {a: {k: 1}, z: 1}], [incoming = {a: null, z: 2}]. *)
Definition null_heap : gmap loc object :=
  heap_of [(1, [("a", plain (VObj 3)); ("z", plain (VNum 1))]);
           (2, [("a", plain VNull); ("z", plain (VNum 2))]);
           (3, [("k", plain (VNum 1))])].

(** [previous = {a: {}}], [incoming = {a: null}]. *)
Definition null_empty_heap : gmap loc object :=
  heap_of [(1, [("a", plain (VObj 3))]);
           (2, [("a", plain VNull)]);
           (3, [])].

(** Three levels: [previous = {a: {b: {c: 1}}}],
    [incoming = {a: {b: {c: 2}}}]. *)
Definition deep_heap : gmap loc object :=
  heap_of [(1, [("a", plain (VObj 2))]);
           (2, [("b", plain (VObj 3))]);
           (3, [("c", plain (VNum 1))]);
           (11, [("a", plain (VObj 12))]);
           (12, [("b", plain (VObj 13))]);
           (13, [("c", plain (VNum 2))])].

(** [T = {y: 0}], [T2 = {}], [T3 = {y: 0}]. *)
Definition round_trip_heap : gmap loc object :=
  heap_of [(1, [("y", plain (VNum 0))]);
           (2, []);
           (3, [("y", plain (VNum 0))])].

(** A host whose property [state] holds
    [{a: {b: {c: 0}, q: {z: 1}}, count: 0}]; locations from 10 on are
    unused. *)
Definition tree_heap : gmap loc object :=
  heap_of [(1, [("state", plain (VObj 2))]);
           (2, [("a", plain (VObj 3)); ("count", plain (VNum 0))]);
           (3, [("b", plain (VObj 4)); ("q", plain (VObj 5))]);
           (4, [("c", plain (VNum 0))]);
           (5, [("z", plain (VNum 1))])].

(** A first turn that writes twice below [a.b], and its flush. *)
Definition first_turn : Observer.M unit :=
  Observer.assign ["a"; "b"] "c" (VNum 1) ;;
  Observer.assign ["a"; "b"] "d" (VNum 2) ;;
  Observer.next_turn.

(** The state [observe(host, 'state', callback)] leaves on [tree_heap]. *)
Definition tree_state : Observer.state :=
  Observer.mkState
    (<[10 := []]> tree_heap) 11
    {[ Observer.top := Observer.mkNode None None VUndef (VObj 10) ]} 1
    (Observer.mkCb false "undefined" VUndef VUndef) 0 []
    (Observer.mkBinding 1 "state" (VObj 2) true StoreSetter true).

(** A sender whose observed [state] is [{a: {b: v}}] (locations 1 to 3) and
    a receiver holding its own copy [{a: {b: v}}] (locations 6 and 7). *)
Definition sender_receiver_heap (v : value) : gmap loc object :=
  heap_of [(1, [("state", plain (VObj 2))]);
           (2, [("a", plain (VObj 3))]);
           (3, [("b", plain v)]);
           (6, [("a", plain (VObj 7))]);
           (7, [("b", plain v)])].

(** A host whose property [state] holds [{a: {b: 1}}], where [a] is
    read-only and not configurable. *)
Definition constant_heap : gmap loc object :=
  heap_of [(1, [("state", plain (VObj 2))]);
           (2, [("a", Data (VObj 3) false true false)]);
           (3, [("b", plain (VNum 1))])].

(** [previous = {w: n, x: 1, y: 1}] with [x] locked,
    [incoming = {w: 2, x: 2}]. *)
Definition mixed_heap (n : Z) : gmap loc object :=
  heap_of [(1, [("w", plain (VNum n)); ("x", Data (VNum 1) true true false);
                ("y", plain (VNum 1))]);
           (2, [("w", plain (VNum 2)); ("x", plain (VNum 2))])].

(** [previous = {w: n, y: <accessor>}], the accessor holding [1] behind a
    getter and a setter that stores; [incoming = {w: 2}]. *)
Definition accessor_heap (n : Z) : gmap loc object :=
  heap_of [(1, [("w", plain (VNum n));
                ("y", Accessor (VNum 1) true StoreSetter true true)]);
           (2, [("w", plain (VNum 2))])].

(** [previous = {w: n, a: {k: 1}, z: 1}],
    [incoming = {w: 2, a: null, z: 2}]. *)
Definition null_later_heap (n : Z) : gmap loc object :=
  heap_of [(1, [("w", plain (VNum n)); ("a", plain (VObj 3));
                ("z", plain (VNum 1))]);
           (2, [("w", plain (VNum 2)); ("a", plain VNull);
                ("z", plain (VNum 2))]);
           (3, [("k", plain (VNum 1))])].

(** [previous = {a: {k: 1}, x: 1, y: 1}] with [x] locked,
    [incoming = {a: null, x: 2}]. *)
Definition null_first_heap : gmap loc object :=
  heap_of [(1, [("a", plain (VObj 3)); ("x", Data (VNum 1) true true false);
                ("y", plain (VNum 1))]);
           (2, [("a", plain VNull); ("x", plain (VNum 2))]);
           (3, [("k", plain (VNum 1))])].

(** [previous = {q: <accessor>, r: 1, a: {k: 1}}], the accessor holding [1]
    behind a getter and a setter that throws; [incoming = {a: null}]. *)
Definition rejecting_heap : gmap loc object :=
  heap_of [(1, [("q", Accessor (VNum 1) true RejectSetter true true);
                ("r", plain (VNum 1)); ("a", plain (VObj 3))]);
           (2, [("a", plain VNull)]);
           (3, [("k", plain (VNum 1))])].

End Examples.

(** ** Predicates used to state what a walk preserves *)

Module Invariants.
Import JS Examples.

(** No property of the object has a setter that throws. *)
Definition accepting (o : object) : Prop :=
  forall k p, assoc k o = Some p -> descriptor_set p ≠ RejectSetter.

(** [h'] differs from [h] at most in the property [k] of the object [t]. *)
Definition changes_only (t : loc) (k : string) (h h' : gmap loc object)
  : Prop :=
  (forall l, l ≠ t -> obj_at h' l = obj_at h l)
  /\ (forall k', k' ≠ k -> own h' t k' = own h t k')
  /\ accepting (obj_at h' t).

(** A strict-mode assignment to a property with this descriptor (or to a
    property not there yet) goes through. *)
Definition assignable (p : option prop) : bool :=
  match p with
  | Some (Data _ w _ _) => w
  | Some (Accessor _ _ StoreSetter _ _) => true
  | Some (Accessor _ _ _ _ _) => false
  | None => true
  end.

(** The report of [a.b] being overwritten with [null]. *)
Definition updated_ab : Reconcile.event :=
  Reconcile.Log [VStr "Updated property 'a/b' to:"; VNull].

(** The diff [{a: {b: null}}] sits at [d] and [da]; the target [t] holds the
    object [ta] in its plain, visible, unlocked field [a]; no setter of [t]
    or [ta] throws. *)
Definition null_frame (t ta d da : loc) (w : bool) (h : gmap loc object)
  : Prop :=
  obj_at h d = [("a", plain (VObj da))]
  /\ obj_at h da = [("b", plain VNull)]
  /\ own h t "a" = Some (Data (VObj ta) w true true)
  /\ accepting (obj_at h t)
  /\ accepting (obj_at h ta).

(** Before [b] is reached, [target.a.b] holds [v]. *)
Definition null_before (t ta d da : loc) (w : bool) (v : value)
  (s : Reconcile.state) : Prop :=
  null_frame t ta d da w (Reconcile.heap s)
  /\ own (Reconcile.heap s) ta "b" = Some (plain v).

(** After it, [target.a.b] holds [null] and the update is in the log. *)
Definition null_after (t ta d da : loc) (w : bool)
  (s : Reconcile.state) : Prop :=
  null_frame t ta d da w (Reconcile.heap s)
  /\ own (Reconcile.heap s) ta "b" = Some (plain VNull)
  /\ updated_ab ∈ Reconcile.log s.

End Invariants.

(** ** Predicates on pairs of heaps *)

Module Frames.
Import JS.

(** [h'] differs from [h] at most in the property [k] of the object [l]. *)
Definition touches_only (l : loc) (k : string) (h h' : gmap loc object)
  : Prop :=
  (forall l', l' ≠ l -> obj_at h' l' = obj_at h l')
  /\ (forall k', k' ≠ k -> own h' l k' = own h l k').

(** Every non-configurable property of [h] is in [h'] with the same
    descriptor. *)
Definition keeps_locked (h h' : gmap loc object) : Prop :=
  forall l k p,
    own h l k = Some p -> prop_configurable p = false -> own h' l k = Some p.

(** Between two states of the reconciler: locked properties are kept and
    the log is only added to. *)
Definition grows (s s' : Reconcile.state) : Prop :=
  keeps_locked (Reconcile.heap s) (Reconcile.heap s')
  /\ Reconcile.log s `prefix_of` Reconcile.log s'.

(** Reading a property with this descriptor gives the value last stored in
    it: it is not an accessor that lacks a getter. *)
Definition readable (p : option prop) : bool :=
  match p with
  | Some (Accessor _ g _ _ _) => g
  | _ => true
  end.

(** The exception of a strict-mode assignment to a property with this
    descriptor, when the assignment cannot be done. *)
Definition put_error (p : option prop) : exn :=
  match p with
  | Some (Accessor _ _ RejectSetter _ _) => SetterRejected
  | _ => TypeError_readonly
  end.

(** Every property of the object is a plain field whose value is neither
    an object nor [null]. *)
Definition flat (o : object) : Prop :=
  forall k p,
    assoc k o = Some p ->
    exists v, p = Examples.plain v /\ typeof v ≠ TObject.

(** Every property of [o] is a plain field, and a field that [o'] lacks holds
    a truthy value. *)
Definition plain_fields (o o' : object) : Prop :=
  forall k p,
    assoc k o = Some p ->
    exists v,
      p = Examples.plain v /\ (is_Some (assoc k o') \/ truthy v = true).

(** What a walk that brings the object [l] in line with the flat diff [n] of
    the heap [h0] keeps true: the other objects are as in [h0], and [l] has
    plain fields only. *)
Definition sync_inv (h0 : gmap loc object) (l n : loc) (s : Reconcile.state)
  : Prop :=
  (forall l', l' ≠ l -> obj_at (Reconcile.heap s) l' = obj_at h0 l')
  /\ plain_fields (obj_at (Reconcile.heap s) l) (obj_at h0 n).

End Frames.

(** ** Further scenarios *)

Module Scenarios.
Import JS Examples.

(** [target = {a: 1, b: 2}], [diff = {a: 5, c: 'x'}]. *)
Definition sync_heap : gmap loc object :=
  heap_of [(1, [("a", plain (VNum 1)); ("b", plain (VNum 2))]);
           (2, [("a", plain (VNum 5)); ("c", plain (VStr "x"))])].

(** [target = {x: 1}], [diff = {x: 2}]. *)
Definition update_heap : gmap loc object :=
  heap_of [(1, [("x", plain (VNum 1))]); (2, [("x", plain (VNum 2))])].

(** [target = {x: 1}] with [x] read-only but configurable, [diff = {x: 2}]. *)
Definition readonly_heap : gmap loc object :=
  heap_of [(1, [("x", Data (VNum 1) false true true)]);
           (2, [("x", plain (VNum 2))])].

(** [target = {a: null}], [diff = {a: {x: 1}}]. *)
Definition null_field_heap : gmap loc object :=
  heap_of [(1, [("a", plain VNull)]); (2, [("a", plain (VObj 3))]);
           (3, [("x", plain (VNum 1))])].

End Scenarios.

(** ** Statements on the observed value itself, and a turn of them *)

Module Turn.
Import JS JS.Notations Observer.

(** What a statement does to a key of the observed value: [state.k = v] or
    [delete state.k]. *)
Inductive change := Put (v : value) | Del.

Definition run_stmt (c : string * change) : M unit :=
  match c.2 with
  | Put v => assign [] c.1 v
  | Del => remove [] c.1
  end.

(** The statements of one turn, in program order. *)
Fixpoint run_stmts (cs : list (string * change)) : M unit :=
  match cs with
  | [] => ret tt
  | c :: cs' => run_stmt c ;; run_stmts cs'
  end.

(** The last change the statements make to the key [k], if any. *)
Fixpoint last_change (cs : list (string * change)) (k : string)
  : option change :=
  match cs with
  | [] => None
  | (k', c) :: cs' =>
      match last_change cs' k with
      | Some c' => Some c'
      | None => if bool_decide (k' = k) then Some c else None
      end
  end.

(** What a change leaves in the diff, and what it leaves in the observed
    value. *)
Definition diff_value (c : change) : value :=
  match c with
  | Put v => v
  | Del => VNull
  end.

Definition kept_value (c : change) : value :=
  match c with
  | Put v => v
  | Del => VUndef
  end.

(** Every property of the object is a plain field. *)
Definition plain_object (o : object) : Prop :=
  forall k p, assoc k o = Some p -> exists v, p = Examples.plain v.

(** The binding holds the plain object [S] behind a getter, the diff under
    construction is the plain object [agg], and the proxy cached for the top
    level, if any, is over [S]. *)
Record ready (S agg : loc) (s : state) : Prop := mkReady {
  ready_getter : b_getter (bound s) = true;
  ready_slot : b_slot (bound s) = VObj S;
  ready_store : n_store (node_at s top) = VObj agg;
  ready_proxy : n_proxy (node_at s top) = None
                \/ n_proxy (node_at s top) = Some S;
  ready_apart : S ≠ agg;
  ready_target : plain_object (obj_at (heap s) S);
  ready_diff : plain_object (obj_at (heap s) agg)
}.

(** What one statement on the key [k] has done when it returns. *)
Definition stmt_post (S agg : loc) (k : string) (c : change)
  (s s' : state) : Prop :=
  ready S agg s'
  /\ calls s' = calls s
  /\ cb_wait (cb s') = true
  /\ pending s' = (if cb_wait (cb s) then pending s
                   else Datatypes.S (pending s))
  /\ next s' = next s
  /\ own (heap s') agg k = Some (Examples.plain (diff_value c))
  /\ (forall k', k' ≠ k -> own (heap s') agg k' = own (heap s) agg k')
  /\ get (heap s') S k = kept_value c
  /\ (forall k', k' ≠ k -> own (heap s') S k' = own (heap s) S k')
  /\ (forall l, l ≠ S -> l ≠ agg -> obj_at (heap s') l = obj_at (heap s) l).

End Turn.

Module TurnScenarios.
Import JS Turn.

(** [state.count = 1; state.count = 2; delete state.a]. *)
Definition count_twice_then_drop : list (string * change) :=
  [("count", Put (VNum 1)); ("count", Put (VNum 2)); ("a", Del)].

End TurnScenarios.

(** ** What the callback and the tick queue see of an operation *)

Module Sched.
Import JS JS.Notations Observer.

(** Between [s] and [s'] the callback was not called, nothing was queued and
    the wait flag was not touched. *)
Definition quiet (s s' : state) : Prop :=
  calls s' = calls s
  /\ pending s' = pending s
  /\ cb_wait (cb s') = cb_wait (cb s).

(** Between [s] and [s'] the callback was not called, and a tick was queued
    unless one was waiting already. *)
Definition noted (s s' : state) : Prop :=
  calls s' = calls s
  /\ cb_wait (cb s') = true
  /\ pending s' = (if cb_wait (cb s) then pending s else S (pending s)).

(** A computation that is quiet from every state, whatever its outcome. *)
Definition silent {A} (m : M A) : Prop := forall s, quiet s (m s).2.

(** A computation that notes a change from every state, whatever its
    outcome. *)
Definition noting {A} (m : M A) : Prop := forall s, noted s (m s).2.

(** A tick is queued exactly when the wait flag is set, and then only one. *)
Definition sched_ok (s : state) : Prop :=
  pending s = (if cb_wait (cb s) then 1 else 0).

(** What a program does with the bound property between two turns, and the
    turn itself. *)
Inductive action :=
| Read (path : list string)
| Assign (path : list string) (k : string) (v : value)
| Remove (path : list string) (k : string)
| Replace (v : value)
| Turn.

Definition run_action (a : action) : M unit :=
  match a with
  | Read path => navigate path ;; ret tt
  | Assign path k v => assign path k v
  | Remove path k => remove path k
  | Replace v => host_set v
  | Turn => next_turn
  end.

Fixpoint run_actions (acts : list action) : M unit :=
  match acts with
  | [] => ret tt
  | a :: acts' => run_action a ;; run_actions acts'
  end.

(** The function queued by [process.nextTick] when the user's callback
    throws [e]: the call is made, and the two resets that follow it are
    skipped. *)
Definition failing_tick (e : exn) : M unit :=
  let* t := this top in
  callback (n_store t) ;;
  throw e.

(** A scheduling opportunity at which the callback throws [e]. *)
Definition failing_turn (e : exn) : M unit :=
  let* n := gets pending in
  modify (with_pending (fun _ => 0)) ;;
  match n with
  | O => ret tt
  | S _ => failing_tick e
  end.

(** The wait flag is set and no tick is queued. *)
Definition stuck (s : state) : Prop :=
  cb_wait (cb s) = true /\ pending s = 0.

End Sched.

Module ObserveScenarios.
Import JS Observer Sched.

(** The property is an accessor with a getter and no setter. *)
Definition getter_only (d : option prop) : Prop :=
  exists slot e c, d = Some (Accessor slot true NoSetter e c).

(** [host.state.a.b.c = 1; host.state = 3;] a turn; then a read of
    [host.state.a]. *)
Definition mixed_actions : list action :=
  [Assign ["a"; "b"] "c" (VNum 1); Replace (VNum 3); Turn; Read ["a"]].

End ObserveScenarios.

(** ** Names every object inherits *)

Module Inherited.

(** The members of [Object.prototype].  [this.triggers] and [this.library]
    are created as [{}], so a lookup under one of these names finds the
    inherited member where the maps below find nothing. *)
Definition inherited_names : list string :=
  ["constructor"; "hasOwnProperty"; "isPrototypeOf"; "propertyIsEnumerable";
   "toLocaleString"; "toString"; "valueOf"; "__proto__";
   "__defineGetter__"; "__defineSetter__"; "__lookupGetter__";
   "__lookupSetter__"].

Definition inherited (name : string) : bool :=
  bool_decide (name ∈ inherited_names).

End Inherited.

(** ** Ordinary objects

    The objects of the heap are ordinary objects whose keys are theirs
    alone.  Two kinds of object the engine treats otherwise can be told by
    their own properties. *)

Module Ordinary.
Import JS.

(** An array owns a [length] that is not configurable; assigning to an index
    at or beyond it changes that [length] too. *)
Definition array_like (o : object) : bool := is_locked (assoc "length" o).

(** No own key of the object is the name of a member of [Object.prototype]
    (an assignment to [__proto__] on an object that does not own that key
    runs the inherited setter and creates no property). *)
Definition own_names (o : object) : bool :=
  forallb (fun kp => negb (Inherited.inherited kp.1)) o.

(** Every object of the heap is neither. *)
Definition ordinary (h : gmap loc object) : Prop :=
  map_Forall (fun _ o => negb (array_like o) && own_names o = true) h.

End Ordinary.

(** ** Listeners and triggers of [src/server.js] at work *)

Module Registry.
Import JS JS.Notations Server.

(** A call of the function [trigger] that [addTrigger] creates: every
    listener is called with the arguments of the call, in the order of
    [trigger.listeners]. *)
Definition invoke (t : trigger) (args : list value)
  : list (value * list value) :=
  map (fun cb => (cb, args)) (listeners t).

(** [server.on(event, cb)] for each [cb] in turn. *)
Fixpoint on_all (ev : string) (cbs : list value) : M unit :=
  match cbs with
  | [] => ret tt
  | cb :: cbs' => on (VStr ev) cb ;; on_all ev cbs'
  end.

(** The value [trigger.callback] is left with once listeners were added. *)
Definition spent (callback : value) (cbs : list value) : value :=
  match cbs with
  | [] => callback
  | _ => if truthy callback then VNull else callback
  end.

(** The calls of [trigger.callback] that adding the listeners makes. *)
Definition first_listener_calls (callback : value) (ev : string)
  (cbs : list value) : list (value * string) :=
  match cbs with
  | [] => []
  | _ => if truthy callback then [(callback, ev)] else []
  end.

End Registry.

(** ** The project library and the shutdown counter of [src/server.js] *)

Module Lifecycle.
Import JS JS.Notations.

(** What [new Project(projID, settings, loader)] returns: the class is a
    collaborator, so the object is a record of the arguments it got,
    together with a serial number that tells two creations apart. *)
Record project := mkProject {
  p_id : string;
  p_settings : value;
  p_serial : nat
}.

#[global] Instance project_eq_dec : EqDecision project.
Proof. solve_decision. Defined.

(** Calls to the logging collaborator: [log.err(msg, ...args).ERROR(err)],
    [log.err(msg, ...args)], [log(msg)], and [log(msg + names.join(...))],
    of which the names are kept without their order. *)
Inductive event :=
| LogError (msg : string) (args : list value) (err : option value)
| LogNote (msg : string)
| LogNames (msg : string) (names : gset string).

#[global] Instance event_eq_dec : EqDecision event.
Proof. solve_decision. Defined.

(** What [getProj] and [addOnClosed] touch of a server: [this.library],
    [this.closedCount], and records of what the collaborators were asked:
    the calls of [this.loader.loadProj] (project, [init], the callback of
    the [getProj] call), the calls of callbacks of [getProj] with their
    argument ([None] for [undefined]), the calls of callbacks given to
    [addOnClosed] with their arguments, and the log. *)
Record server := mkServer {
  library : gmap string project;
  closedCount : Z;
  created : nat;
  requests : list (string * value * nat);
  answers : list (nat * option project);
  closings : list (nat * list value);
  log : list event
}.

Abbreviation M := (JS.M server).

Definition emit (e : event) : M unit :=
  modify (fun s =>
    mkServer (library s) (closedCount s) (created s) (requests s) (answers s)
             (closings s) (log s ++ [e])).

(** [callback(this.library[projID])] *)
Definition answer (callback : nat) (projID : string) : M unit :=
  modify (fun s =>
    mkServer (library s) (closedCount s) (created s) (requests s)
             (answers s ++ [(callback, library s !! projID)])
             (closings s) (log s)).

(** [this.library[projID] = new Project(projID, settings, this.loader)] *)
Definition create (projID : string) (settings : value) : M unit :=
  modify (fun s =>
    mkServer (<[projID := mkProject projID settings (created s)]> (library s))
             (closedCount s) (S (created s)) (requests s) (answers s)
             (closings s) (log s)).

(** The function [getProj] hands to [this.loader.loadProj].  [err] is [None]
    when the first argument is falsy and [Some code] when it is truthy and
    its property [code] reads [code]. *)
Definition loadProj_reply (projID : string) (callback : nat)
  (err : option value) (settings : value) : M unit :=
  (match err with
   | Some code =>
       if strict_eq code (VStr "TIMEOUT")
       then emit (LogError "Timed out getting project settings for:"
                           [VStr projID] (Some code))
       else if strict_eq code (VStr "BLOCKED")
       then emit (LogError "Settings has already been received for:"
                           [VStr projID] (Some code))
       else emit (LogError "Error loading proj:" [VStr projID] (Some code))
   | None =>
       if Observer.isObj settings then create projID settings
       else if negb (strict_eq settings VNull)
       then emit (LogError
                    "Returned value from 'loadProj' needs to be an object:"
                    [settings] None)
       else ret tt
   end) ;;
  answer callback projID.

(** [Server.prototype.getProj]; the loader replies by calling
    [loadProj_reply projID callback].  The project name is not the name of a
    member of [Object.prototype], which [this.library] would answer for
    ([Inherited]). *)
Definition getProj (projID : string) (init : value) (callback : nat)
  : M unit :=
  let* lib := gets library in
  match lib !! projID with
  | Some _ => answer callback projID
  | None =>
      modify (fun s =>
        mkServer (library s) (closedCount s) (created s)
                 (requests s ++ [(projID, init, callback)]) (answers s)
                 (closings s) (log s))
  end.

(** [Server.prototype.addOnClosed]: the function it returns is
    [onClosed callback]. *)
Definition addOnClosed (callback : nat) : M unit :=
  modify (fun s =>
    mkServer (library s) (closedCount s + 1) (created s) (requests s)
             (answers s) (closings s) (log s)).

Definition shut_down : event := LogNote "Teleprompter server shut down!".

(** The function [addOnClosed] returns, called with [args]. *)
Definition onClosed (callback : nat) (args : list value) : M unit :=
  modify (fun s =>
    mkServer (library s) (closedCount s) (created s) (requests s) (answers s)
             (closings s ++ [(callback, args)]) (log s)) ;;
  modify (fun s =>
    mkServer (library s) (closedCount s - 1) (created s) (requests s)
             (answers s) (closings s) (log s)) ;;
  let* n := gets closedCount in
  if (n =? 0)%Z then emit shut_down else ret tt.

(** [addOnClosed] for each callback in turn. *)
Fixpoint addOnClosed_all (callbacks : list nat) : M unit :=
  match callbacks with
  | [] => ret tt
  | cb :: cbs => addOnClosed cb ;; addOnClosed_all cbs
  end.

(** Calls of functions that [addOnClosed] returned, in turn. *)
Fixpoint onClosed_all (cs : list (nat * list value)) : M unit :=
  match cs with
  | [] => ret tt
  | c :: cs' => onClosed c.1 c.2 ;; onClosed_all cs'
  end.

(** [getProj(projID, init, callback)] for each pair in turn. *)
Fixpoint getProj_all (projID : string) (cs : list (value * nat)) : M unit :=
  match cs with
  | [] => ret tt
  | c :: cs' => getProj projID c.1 c.2 ;; getProj_all projID cs'
  end.

(** The reply creates a project. *)
Definition creates (err : option value) (settings : value) : bool :=
  match err with
  | Some _ => false
  | None => Observer.isObj settings
  end.

(** The reply is reported as an error. *)
Definition reported (err : option value) (settings : value) : bool :=
  match err with
  | Some _ => true
  | None => negb (Observer.isObj settings) && negb (strict_eq settings VNull)
  end.

End Lifecycle.

Module ServerScenarios.
Import JS.

(** A server whose event [preload] has a first-listener callback and one
    listener. *)
Definition preload_trigger : Server.trigger :=
  Server.mkTrigger (VFun 0) [VFun 1].

Definition preload_server : Server.server :=
  Server.mkServer {[ "preload" := preload_trigger ]} [] (fun _ => None).

(** The same server, where the object at 1 has a [toString] that throws a
    RangeError. *)
Definition touchy_server : Server.server :=
  Server.mkServer {[ "preload" := preload_trigger ]} []
    (fun v => if bool_decide (v = VObj 1) then Some (Thrown "RangeError")
              else None).

(** A server that has loaded nothing and registered nothing to close. *)
Definition idle_server : Lifecycle.server :=
  Lifecycle.mkServer ∅ 0 0 [] [] [] [].

Definition show_project : Lifecycle.project :=
  Lifecycle.mkProject "show" (VObj 1) 0.

(** A server whose library holds the project [show]. *)
Definition loaded_server : Lifecycle.server :=
  Lifecycle.mkServer {[ "show" := show_project ]} 0 1 [] [] [] [].

End ServerScenarios.

(** ** The query parameter of a connection URL: [getQueryProperty] of
       [src/socket.js]

    A URL is a string of single-unit characters.  [decodeURIComponent] is
    the built-in: it is a parameter here, with whatever it returns or
    throws as its result. *)

Module Socket.

(** The string without its first [n] characters. *)
Fixpoint drop (n : nat) (s : string) : string :=
  match n, s with
  | O, _ => s
  | S n', String _ s' => drop n' s'
  | S _, EmptyString => EmptyString
  end.

(** The first [n] characters of the string. *)
Fixpoint take (n : nat) (s : string) : string :=
  match n, s with
  | S n', String c s' => String c (take n' s')
  | _, _ => EmptyString
  end.

(** The least index at which [needle] occurs in [s]. *)
Fixpoint find (needle s : string) : option nat :=
  if String.prefix needle s then Some 0
  else
    match s with
    | EmptyString => None
    | String _ s' => option_map S (find needle s')
    end.

(** [s.indexOf(needle, from)], [from] not negative: the position is clamped
    to the length, and the result is -1 when there is no occurrence. *)
Definition indexOf (s needle : string) (from : nat) : Z :=
  let from' := Nat.min from (String.length s) in
  match find needle (drop from' s) with
  | Some i => Z.of_nat (from' + i)
  | None => (-1)%Z
  end.

(** [s.slice(start, end)], [start] not negative, [end] either [undefined]
    or not negative. *)
Definition slice (s : string) (start : nat) (end_ : option nat) : string :=
  match end_ with
  | None => drop start s
  | Some e => take (e - start) (drop start s)
  end.

(** [s.replace(/\+/g, ' ')] *)
Fixpoint replace_plus (s : string) : string :=
  match s with
  | EmptyString => EmptyString
  | String c s' =>
      String (if Ascii.eqb c "+" then " "%char else c) (replace_plus s')
  end.

(** The character occurs in the string. *)
Fixpoint has (c : ascii) (s : string) : bool :=
  match s with
  | EmptyString => false
  | String c' s' => Ascii.eqb c' c || has c s'
  end.

Section GetQueryProperty.

Context {R : Type}.
Variable decodeURIComponent : string -> R.

(** [getQueryProperty(url, param)]; [None] is [undefined]. *)
Definition getQueryProperty (url param : string) : option R :=
  let qm := (indexOf url "?" 0 + 1)%Z in
  if (qm =? 0)%Z then None
  else
    let paramIndex := (indexOf url (param +:+ "=") (Z.to_nat qm) + 1)%Z in
    if (paramIndex =? 0)%Z then None
    else
      let start := (paramIndex + Z.of_nat (String.length param))%Z in
      let amp := Z.max 0 (indexOf url "&" (Z.to_nat start)) in
      let end_ := if (amp =? 0)%Z then None else Some (Z.to_nat amp) in
      Some (decodeURIComponent
              (replace_plus (slice url (Z.to_nat start) end_))).

End GetQueryProperty.

End Socket.

(** ** Paths into the observed tree and the diffs they leave *)

Module Deep.
Import JS Observer.

(** Reading [path] from the object [T] of the heap goes through objects that
    all sit below [bound], and ends at [T'].  No key of the path is the name
    of a member of [Object.prototype], and none is a read-only,
    non-configurable data property of the object it is read from: a [Proxy]
    may not answer for such a property with another [Proxy]. *)
Fixpoint resolves (h : gmap loc object) (bound T : loc) (path : list string)
  (T' : loc) : Prop :=
  match path with
  | [] => T' = T
  | k :: path' =>
      Inherited.inherited k = false
      /\ is_constant (own h T k) = false
      /\ exists U,
           get h T k = VObj U /\ U < bound /\ resolves h bound U path' T'
  end.

(** The object at [t] has one key only, the first of [path], and so on down
    to an object whose only key is [k], with the value [v]. *)
Fixpoint tree_at (h : gmap loc object) (t : loc) (path : list string)
  (k : string) (v : value) : Prop :=
  match path with
  | [] => obj_at h t = [(k, Examples.plain v)]
  | p :: path' =>
      exists t',
        obj_at h t = [(p, Examples.plain (VObj t'))]
        /\ tree_at h t' path' k v
  end.

(** The picture of such a chain. *)
Fixpoint nest (path : list string) (k : string) (v : value) : json :=
  match path with
  | [] => JObj [(k, JLeaf v)]
  | p :: path' => JObj [(p, nest path' k v)]
  end.

End Deep.

Module SetterScenarios.
Import JS.

(** A binding over a hidden property whose own setter throws; no tick is
    waiting. *)
Definition guarded_state : Observer.state :=
  Observer.mkState
    (<[10 := []]> Examples.tree_heap) 11
    {[ Observer.top := Observer.mkNode None None VUndef (VObj 10) ]} 1
    (Observer.mkCb false "undefined" VUndef VUndef) 0 []
    (Observer.mkBinding 1 "state" (VNum 0) true RejectSetter false).

End SetterScenarios.

(** ** Pre-loading in the constructor of [src/server.js]

    The callback handed to [this.loader.getProjs], the callbacks it hands to
    [getProj], and [on] with the first-listener callback of [preload]
    run. *)

Module Preload.
Import JS JS.Notations.

(** The arrow function stored in [this.triggers.preload.callback]. *)
Definition deferred : value := VFun 0.

(** The registry and the library of the server, the variable [completed]
    of the call of the [getProjs] callback, the variable [async] of each
    iteration (no entry: [undefined]), and the calls the trigger [preload]
    made: the listener, and the library as it was handed over. *)
Record state := mkState {
  registry : Server.server;
  life : Lifecycle.server;
  completed : Z;
  async : gmap nat bool;
  delivered : list (value * gmap string Lifecycle.project)
}.

Abbreviation M := (JS.M state).

Definition lift_registry {A} (m : Server.M A) : M A :=
  fun s =>
    let (r, reg) := m (registry s) in
    (r, mkState reg (life s) (completed s) (async s) (delivered s)).

Definition lift_life {A} (m : Lifecycle.M A) : M A :=
  fun s =>
    let (r, l) := m (life s) in
    (r, mkState (registry s) l (completed s) (async s) (delivered s)).

Fixpoint each {A} (xs : list A) (f : A -> M unit) : M unit :=
  match xs with
  | [] => ret tt
  | x :: xs' => f x ;; each xs' f
  end.

(** [this.triggers.preload(this.library)] *)
Definition fire : M unit :=
  fun s =>
    match Server.triggers (registry s) !! "preload" with
    | Some t =>
        (Ok tt,
         mkState (registry s) (life s) (completed s) (async s)
                 (delivered s
                  ++ map (fun cb => (cb, Lifecycle.library (life s)))
                         (Server.listeners t)))
    | None => (Throw TypeError_not_function, s)
    end.

(** [this.triggers.preload.callback = () => {...}] *)
Definition defer : M unit :=
  fun s =>
    match Server.triggers (registry s) !! "preload" with
    | Some t =>
        (Ok tt,
         mkState (Server.mkServer
                    (<["preload" := Server.mkTrigger deferred
                                      (Server.listeners t)]>
                       (Server.triggers (registry s)))
                    (Server.fired (registry s))
                    (Server.conversion (registry s)))
                 (life s) (completed s) (async s) (delivered s))
    | None => (Throw TypeError_nullish, s)
    end.

(** The log line that lists [Object.keys(this.library)]. *)
Definition summary (lib : gmap string Lifecycle.project) : Lifecycle.event :=
  if bool_decide (lib = ∅) then Lifecycle.LogNote "No projects pre-loaded"
  else Lifecycle.LogNames "Pre-loaded projects:" (dom lib).

(** The callback handed to [getProj] in the iteration [i]. *)
Definition done_one (i : nat) : M unit :=
  modify (fun s =>
    mkState (registry s) (life s) (completed s - 1) (async s) (delivered s)) ;;
  let* n := gets completed in
  if (n =? 0)%Z then
    let* lib := gets (fun s => Lifecycle.library (life s)) in
    lift_life (Lifecycle.emit (summary lib)) ;;
    let* a := gets (fun s => async s !! i) in
    match a with
    | Some true => fire
    | _ => defer
    end
  else ret tt.

(** A step of the library, followed by the callbacks of [getProj] that it
    called. *)
Definition answered (m : Lifecycle.M unit) : M unit :=
  let* before := gets (fun s => length (Lifecycle.answers (life s))) in
  lift_life m ;;
  let* new := gets (fun s => drop before (Lifecycle.answers (life s))) in
  each new (fun c => done_one c.1).

(** One iteration of [list.forEach]; [loader projID] is what the loader
    replies before [loadProj] returns, if it replies that early. *)
Definition iteration (loader : string -> option (option value * value))
  (i : nat) (projID : string) : M unit :=
  let* known :=
    gets (fun s =>
      bool_decide (is_Some (Lifecycle.library (life s) !! projID))) in
  answered (Lifecycle.getProj projID VNull i) ;;
  (if (known : bool) then ret tt
   else
     match loader projID with
     | Some (err, settings) =>
         answered (Lifecycle.loadProj_reply projID i err settings)
     | None => ret tt
     end) ;;
  modify (fun s =>
    mkState (registry s) (life s) (completed s) (<[i := true]> (async s))
            (delivered s)).

Fixpoint iterations (loader : string -> option (option value * value))
  (i : nat) (ids : list string) : M unit :=
  match ids with
  | [] => ret tt
  | projID :: ids' => iteration loader i projID ;; iterations loader (S i) ids'
  end.

(** The second argument of the [getProjs] callback: an array of project
    names, [null], or something else. *)
Inductive projs :=
| Ids (ids : list string)
| NoIds
| NotArray (v : value).

Definition note (msg : string) : M unit :=
  lift_life (Lifecycle.emit (Lifecycle.LogNote msg)).

(** The callback handed to [this.loader.getProjs]. *)
Definition getProjs_reply (loader : string -> option (option value * value))
  (err : option value) (list : projs) : M unit :=
  match err with
  | Some code =>
      if strict_eq code (VStr "TIMEOUT")
      then lift_life (Lifecycle.emit
             (Lifecycle.LogError "Timed out getting projects to preload"
                                 [] (Some code)))
      else if strict_eq code (VStr "BLOCKED")
      then lift_life (Lifecycle.emit
             (Lifecycle.LogError
                "List of projects to preload has already been received"
                [] (Some code)))
      else
        lift_life (Lifecycle.emit
          (Lifecycle.LogError "Error getting projects list" []
                              (Some code))) ;;
        note "Found no projects to pre-load"
  | None =>
      match list with
      | Ids ids =>
          modify (fun s =>
            mkState (registry s) (life s) (Z.of_nat (length ids)) (async s)
                    (delivered s)) ;;
          if bool_decide (ids = []) then note "Found no projects to pre-load"
          else iterations loader 0 ids
      | NotArray v =>
          lift_life (Lifecycle.emit
            (Lifecycle.LogError
               "Returned value from 'getProjs' needs to be an array:" [v]
               None)) ;;
          note "Found no projects to pre-load"
      | NoIds => note "Found no projects to pre-load"
      end
  end.

(** A reply of the loader that comes after [loadProj] has returned. *)
Definition reply (i : nat) (projID : string) (err : option value)
  (settings : value) : M unit :=
  answered (Lifecycle.loadProj_reply projID i err settings).

(** [server.on(event, callback)], the first-listener callback run. *)
Definition on (event callback : value) : M unit :=
  let* before := gets (fun s => length (Server.fired (registry s))) in
  lift_registry (Server.on event callback) ;;
  let* new := gets (fun s => drop before (Server.fired (registry s))) in
  each new (fun f => if bool_decide (f.1 = deferred) then fire else ret tt).

(** Replies that come later, in the order they come. *)
Fixpoint replies (rs : list (nat * string * option value * value)) : M unit :=
  match rs with
  | [] => ret tt
  | (i, projID, err, settings) :: rs' =>
      reply i projID err settings ;; replies rs'
  end.

End Preload.

Module PreloadScenarios.
Import JS.

(** A server with the trigger [preload] as the constructor creates it, one
    listener added, and the project [show] in the library. *)
Definition warm : Preload.state :=
  Preload.mkState
    (Server.mkServer {[ "preload" := Server.mkTrigger VUndef [VFun 1] ]} []
                     (fun _ => None))
    ServerScenarios.loaded_server 0 ∅ [].

(** The same with an empty library. *)
Definition cold : Preload.state :=
  Preload.mkState
    (Server.mkServer {[ "preload" := Server.mkTrigger VUndef [VFun 1] ]} []
                     (fun _ => None))
    ServerScenarios.idle_server 0 ∅ [].

(** The replies for [show] and [news], the second to come first. *)
Definition two_replies : list (nat * string * option value * value) :=
  [(1, "news", Some (VStr "TIMEOUT"), VUndef); (0, "show", None, VObj 1)].

End PreloadScenarios.

(** * Properties *)

Import JS JS.Notations Examples Invariants.

(** ** Property lists and the heap *)

Lemma assoc_set_eq (k : string) (p : prop) (o : object) :
  assoc k (assoc_set k p o) = Some p.
Proof.
  induction o as [|[k' p'] o IH]; cbn.
  - by rewrite bool_decide_true.
  - case_bool_decide as Hk; cbn.
    + by rewrite bool_decide_true.
    + by rewrite bool_decide_false.
Qed.

Lemma assoc_set_ne (k k' : string) (p : prop) (o : object) :
  k ≠ k' -> assoc k' (assoc_set k p o) = assoc k' o.
Proof.
  intros Hne. induction o as [|[k0 p0] o IH]; cbn.
  - by rewrite bool_decide_false.
  - case_bool_decide as Hk; cbn.
    + subst k0. by rewrite !bool_decide_false.
    + by rewrite IH.
Qed.

Lemma assoc_del_eq (k : string) (o : object) : assoc k (assoc_del k o) = None.
Proof.
  induction o as [|[k' p'] o IH]; cbn; [done|].
  case_bool_decide as Hk; cbn; [done|]. by rewrite bool_decide_false.
Qed.

Lemma assoc_del_ne (k k' : string) (o : object) :
  k ≠ k' -> assoc k' (assoc_del k o) = assoc k' o.
Proof.
  intros Hne. induction o as [|[k0 p0] o IH]; cbn; [done|].
  case_bool_decide as Hk; cbn.
  - subst k0. by rewrite bool_decide_false.
  - by rewrite IH.
Qed.

(** A heap written out as a list of ordinary objects. *)
Lemma ordinary_heap_of (objs : list (loc * object)) :
  Forall (fun lo => negb (Ordinary.array_like lo.2) && Ordinary.own_names lo.2
                    = true) objs ->
  Ordinary.ordinary (heap_of objs).
Proof.
  intros Hall l o Hl. apply elem_of_list_to_map_2 in Hl.
  by apply (proj1 (Forall_forall _ _) Hall (l, o)).
Qed.

Lemma obj_at_insert (h : gmap loc object) (l : loc) (o : object) :
  obj_at (<[l := o]> h) l = o.
Proof. unfold obj_at. by rewrite lookup_insert_eq. Qed.

Lemma obj_at_insert_ne (h : gmap loc object) (l l' : loc) (o : object) :
  l ≠ l' -> obj_at (<[l := o]> h) l' = obj_at h l'.
Proof. intros. unfold obj_at. by rewrite lookup_insert_ne. Qed.

Lemma own_insert (h : gmap loc object) (l : loc) (o : object) (k : string) :
  own (<[l := o]> h) l k = assoc k o.
Proof. unfold own. by rewrite obj_at_insert. Qed.

Lemma own_insert_ne (h : gmap loc object) (l l' : loc) (o : object)
  (k : string) :
  l ≠ l' -> own (<[l := o]> h) l' k = own h l' k.
Proof. intros. unfold own. by rewrite obj_at_insert_ne. Qed.

(** A key that [obj] does not own reads as [undefined]. *)
Lemma get_absent (h : gmap loc object) (l : loc) (k : string) :
  hasOwnProperty h l k = false -> get h l k = VUndef.
Proof.
  unfold hasOwnProperty, get. intros Hk.
  apply bool_decide_eq_false in Hk.
  destruct (own h l k); [ by destruct Hk | done ].
Qed.

Lemma get_insert (hp : gmap loc object) (l : loc) (o : object) (k : string) :
  get (<[l := o]> hp) l k = prop_read (assoc k o).
Proof. unfold get. by rewrite own_insert. Qed.

Lemma get_insert_ne (hp : gmap loc object) (l l' : loc) (o : object)
  (k : string) :
  l ≠ l' -> get (<[l := o]> hp) l' k = get hp l' k.
Proof. intros. unfold get. by rewrite own_insert_ne. Qed.

(** Writing the first property of an empty object. *)
Lemma put_fresh (hp : gmap loc object) (l : loc) (k : string) (v : value) :
  obj_at hp l = [] ->
  put hp l k v = inr (<[l := [(k, Data v true true true)]]> hp).
Proof. intros Hl. unfold put. by rewrite Hl. Qed.

Lemma delete_unlocked (hp : gmap loc object) (l : loc) (k : string) :
  is_locked (own hp l k) = false ->
  exists hp',
    delete hp l k = inr hp'
    /\ own hp' l k = None
    /\ (forall l', l' ≠ l -> obj_at hp' l' = obj_at hp l')
    /\ (forall k', k' ≠ k -> own hp' l k' = own hp l k').
Proof.
  unfold delete, own. intros Hl.
  destruct (assoc k (obj_at hp l)) as [p|] eqn:Hp.
  - cbn in Hl. apply negb_false_iff in Hl. rewrite Hl.
    eexists. split; [reflexivity|]. split; [ | split ].
    + by rewrite obj_at_insert, assoc_del_eq.
    + intros l' Hne. by rewrite obj_at_insert_ne.
    + intros k' Hne. by rewrite obj_at_insert, assoc_del_ne.
  - exists hp. by repeat split.
Qed.

Lemma own_absent_singleton (h : gmap loc object) (l : loc) (k0 k : string)
  (p : prop) :
  obj_at h l = [(k0, p)] -> k ≠ k0 -> hasOwnProperty h l k = false.
Proof.
  intros Hobj Hne. unfold hasOwnProperty, own. rewrite Hobj. cbn.
  rewrite (bool_decide_false (k0 = k)) by congruence.
  apply bool_decide_false.
  by intros [? ?].
Qed.

Lemma strict_eq_false (a b : value) : a ≠ b -> strict_eq a b = false.
Proof. intros. unfold strict_eq. by rewrite bool_decide_false. Qed.

(** ** Key lists *)

(** *** The key list is never emptied by ordering or by removing repeats *)

Lemma key_order_nonempty (ks : list string) : ks ≠ [] -> key_order ks ≠ [].
Proof.
  destruct ks as [|k ks]; [done|]. intros _ Hnil. unfold key_order in Hnil.
  apply app_eq_nil in Hnil as [Hidx Hstr].
  apply (f_equal length) in Hidx. rewrite length_map in Hidx.
  rewrite (Permutation_length (merge_sort_Permutation _ _)) in Hidx.
  rewrite filter_cons in Hstr. cbn in Hidx.
  destruct (array_index k) as [n|] eqn:Hk.
  - discriminate.
  - by rewrite decide_True in Hstr.
Qed.

Lemma dedup_acc_nonempty (ks acc : list string) :
  acc ≠ [] ->
  fold_left (fun acc k => if bool_decide (k ∈ acc) then acc else acc ++ [k])
            ks acc ≠ [].
Proof.
  revert acc. induction ks as [|k ks IH]; intros acc Hacc; [done|].
  cbn. apply IH. case_bool_decide; [done|].
  intros Hnil. by apply app_eq_nil in Hnil as [? _].
Qed.

Lemma dedup_nonempty (ks : list string) :
  ks ≠ [] -> Reconcile.dedup ks ≠ [].
Proof.
  destruct ks as [|k ks]; [done|]. intros _. unfold Reconcile.dedup. cbn.
  rewrite bool_decide_false by apply not_elem_of_nil.
  by apply dedup_acc_nonempty.
Qed.

(** *** Every key given is among the keys walked *)

Lemma array_index_pretty (k : string) (n : N) :
  array_index k = Some n -> pretty n = k.
Proof.
  unfold array_index. destruct k as [|c k]; [done|].
  destruct (parse_digits 0 (String c k)) as [m|]; [ | done ].
  case_bool_decide as Hm; cbn; [ | done ].
  destruct (m <? 4294967295)%N; [ | done ]. by intros [= <-].
Qed.

Lemma elem_of_key_order (k : string) (ks : list string) :
  k ∈ ks -> k ∈ key_order ks.
Proof.
  intros Hin. unfold key_order. apply elem_of_app.
  destruct (array_index k) as [n|] eqn:Hk.
  - left. rewrite <- (array_index_pretty _ _ Hk). apply list_elem_of_fmap_2.
    rewrite merge_sort_Permutation. apply list_elem_of_omap. eauto.
  - right. by apply list_elem_of_filter.
Qed.

Lemma elem_of_dedup_acc (k : string) (ks acc : list string) :
  k ∈ acc \/ k ∈ ks ->
  k ∈ fold_left
        (fun acc k => if bool_decide (k ∈ acc) then acc else acc ++ [k])
        ks acc.
Proof.
  revert acc. induction ks as [|k' ks IH]; intros acc [Hacc | Hks]; cbn.
  - done.
  - by apply elem_of_nil in Hks.
  - apply IH. left. case_bool_decide; [done|]. apply elem_of_app. by left.
  - apply IH. apply elem_of_cons in Hks as [-> | Hks]; [ left | by right ].
    case_bool_decide; [done|]. apply elem_of_app. right.
    apply list_elem_of_here.
Qed.

Lemma elem_of_dedup (k : string) (ks : list string) :
  k ∈ ks -> k ∈ Reconcile.dedup ks.
Proof. intros. apply elem_of_dedup_acc. by right. Qed.

Lemma elem_of_union_keys_new (h : gmap loc object) (o : option loc) (n : loc)
  (k : string) :
  k ∈ enumerable_keys (obj_at h n) ->
  k ∈ Reconcile.union_keys h o (Some n).
Proof.
  intros Hin. unfold Reconcile.union_keys.
  apply elem_of_key_order, elem_of_dedup, elem_of_app. by right.
Qed.

Lemma key_order_singleton (k : string) : key_order [k] = [k].
Proof.
  unfold key_order. cbn [omap list_omap]. rewrite filter_cons, filter_nil.
  destruct (array_index k) as [n|] eqn:Hk.
  - rewrite decide_False by done. cbn. by rewrite (array_index_pretty _ _ Hk).
  - by rewrite decide_True.
Qed.

(** ** Walking a key list *)

Section ForEachSteps.
Import Reconcile.

(** A successful step lets [forEach] go on with the keys that remain. *)
Lemma forEach_continue (f : string -> M unit) (k : string) (ks : list string)
  (s s' : state) :
  f k s = (Ok tt, s') -> forEach (k :: ks) f s = forEach ks f s'.
Proof. intros Hk. simpl. unfold bind. by rewrite Hk. Qed.

(** A step that throws ends the [forEach]: the keys that remain are not
    visited. *)
Lemma forEach_abort (f : string -> M unit) (k : string) (ks : list string)
  (s s' : state) (e : exn) :
  f k s = (Throw e, s') -> forEach (k :: ks) f s = (Throw e, s').
Proof. intros Hk. simpl. unfold bind. by rewrite Hk. Qed.

End ForEachSteps.

(** *** Walking a key list under an invariant *)

Section ForEach.
Import Reconcile.

Variables (f : string -> M unit) (I : state -> Prop).

Lemma forEach_invariant (ks : list string) :
  (forall k s, k ∈ ks -> I s -> exists s', f k s = (Ok tt, s') /\ I s') ->
  forall s, I s -> exists s', forEach ks f s = (Ok tt, s') /\ I s'.
Proof.
  induction ks as [|k ks IH]; intros Hstep s Hs.
  - by exists s.
  - destruct (Hstep k s) as (s1 & Hk & Hs1);
      [ apply list_elem_of_here | done | ].
    destruct (IH (fun k' s' Hin =>
                    Hstep k' s' (list_elem_of_further _ _ _ Hin)) s1 Hs1)
      as (s2 & Hks & Hs2).
    exists s2. split; [ | done ]. by rewrite (forEach_continue _ _ _ _ _ Hk).
Qed.

End ForEach.

Section ForEachReaches.
Import Reconcile.

Variables (f : string -> M unit) (I Q : state -> Prop) (b : string).

(** If every step keeps [I], the step for [b] turns [I] into [Q], and every
    step keeps [Q], a walk over keys among which [b] occurs ends in [Q]. *)
Lemma forEach_reaches (ks : list string) :
  b ∈ ks ->
  (forall k s, I s -> exists s', f k s = (Ok tt, s') /\ I s') ->
  (forall s, I s -> exists s', f b s = (Ok tt, s') /\ Q s') ->
  (forall k s, Q s -> exists s', f k s = (Ok tt, s') /\ Q s') ->
  forall s, I s -> exists s', forEach ks f s = (Ok tt, s') /\ Q s'.
Proof.
  intros Hin HI Hb HQ. induction ks as [|k ks IH]; intros s Hs.
  - by apply elem_of_nil in Hin.
  - destruct (decide (k = b)) as [->|Hne].
    + destruct (Hb s Hs) as (s1 & Hk & Hs1).
      destruct (forEach_invariant f Q ks (fun k' s' _ => HQ k' s') s1 Hs1)
        as (s2 & Hks & Hs2).
      exists s2. split; [ | done ]. by rewrite (forEach_continue _ _ _ _ _ Hk).
    + apply elem_of_cons in Hin as [Heq | Hin]; [ by subst | ].
      destruct (HI k s Hs) as (s1 & Hk & Hs1).
      destruct (IH Hin s1 Hs1) as (s2 & Hks & Hs2).
      exists s2. split; [ | done ]. by rewrite (forEach_continue _ _ _ _ _ Hk).
Qed.

End ForEachReaches.

(** ** Reconciliation, key by key *)

(** Runs the monadic plumbing of a step as far as the next test. *)
Ltac run_key :=
  unfold bind, ret, Reconcile.read, Reconcile.getOwnPropertyDescriptor,
    Reconcile.has_own, Reconcile.is_enumerable, Reconcile.on_object;
  cbn beta iota delta [Reconcile.heap Reconcile.log].

Section ReconcileKey.
Import Reconcile.

Variable rec : option loc -> option loc -> string -> M unit.
Variables (h : gmap loc object) (lg : list event).
Variables (oldObj newObj : loc) (keyPath key : string).

Let step := applyKey rec (Some oldObj) (Some newObj) keyPath key.

(** The step for a key that is locked on [oldObj], and for which [newObj]
    supplies a value other than the one [oldObj] holds: the key is reported
    as locked, the heap is untouched, and the walk goes on with the remaining
    keys. *)
Lemma locked_key_step (rest : list string) :
  is_locked (own h oldObj key) = true ->
  hasOwnProperty h newObj key = true ->
  get h newObj key ≠ get h oldObj key ->
  let reported :=
    mkState h (lg ++ [LogErr [VStr "Unable to modify locked property:";
                              VStr key] None]) in
  step (mkState h lg) = (Ok tt, reported)
  /\ get (heap reported) oldObj key = get h oldObj key
  /\ forEach (key :: rest) (applyKey rec (Some oldObj) (Some newObj) keyPath)
             (mkState h lg)
     = forEach rest (applyKey rec (Some oldObj) (Some newObj) keyPath)
               reported.
Proof.
  intros Hlock Hown Hneq reported.
  assert (Hstep : step (mkState h lg) = (Ok tt, reported)).
  { unfold step, applyKey. run_key.
    rewrite (strict_eq_false _ _ Hneq). run_key.
    rewrite Hlock. run_key. rewrite Hown. reflexivity. }
  split; [exact Hstep | split; [reflexivity | ]].
  by apply forEach_continue.
Qed.

(** The step for a key that passes the four earlier tests and whose two
    values are of type 'object' is one recursive call; the path it passes is
    [key + '/']. *)
Lemma applyKey_recurse :
  get h newObj key ≠ get h oldObj key ->
  is_locked (own h oldObj key) = false ->
  propertyIsEnumerable h oldObj key = true ->
  hasOwnProperty h newObj key = true ->
  typeof (get h newObj key) = TObject ->
  typeof (get h oldObj key) = TObject ->
  forall rec0,
    applyKey rec0 (Some oldObj) (Some newObj) keyPath key (mkState h lg)
    = rec0 (as_operand (get h oldObj key)) (as_operand (get h newObj key))
           (key +:+ "/") (mkState h lg).
Proof.
  intros Hneq Hlock Hvis Hown Hnew Hold rec0.
  unfold applyKey. run_key.
  rewrite (strict_eq_false _ _ Hneq). run_key.
  rewrite Hlock. run_key. rewrite Hvis. cbn [negb]. run_key.
  rewrite Hown. cbn [negb]. run_key.
  rewrite (bool_decide_true _ Hnew). run_key.
  rewrite (bool_decide_true _ Hold). reflexivity.
Qed.

(** The step for a key that passes the four earlier tests and one of whose
    values is not of type 'object' never calls [applyChange]. *)
Lemma applyKey_no_recursion :
  get h newObj key ≠ get h oldObj key ->
  is_locked (own h oldObj key) = false ->
  propertyIsEnumerable h oldObj key = true ->
  hasOwnProperty h newObj key = true ->
  typeof (get h newObj key) ≠ TObject
  \/ typeof (get h oldObj key) ≠ TObject ->
  forall rec1 rec2,
    applyKey rec1 (Some oldObj) (Some newObj) keyPath key (mkState h lg)
    = applyKey rec2 (Some oldObj) (Some newObj) keyPath key (mkState h lg).
Proof.
  intros Hneq Hlock Hvis Hown Hscalar rec1 rec2.
  unfold applyKey. run_key.
  rewrite (strict_eq_false _ _ Hneq). run_key.
  rewrite Hlock. run_key. rewrite Hvis. cbn [negb]. run_key.
  rewrite Hown. cbn [negb]. run_key.
  destruct Hscalar as [Hnew | Hold].
  - rewrite (bool_decide_false _ Hnew). reflexivity.
  - case_bool_decide; run_key; [ | reflexivity ].
    rewrite (bool_decide_false _ Hold). reflexivity.
Qed.

(** The step for a key that is configurable and enumerable on [oldObj],
    where [oldObj[key]] is an object with at least one enumerable key of its
    own and [newObj] owns [key] with the value [null]: the step recurses with
    [null] as the incoming tree; that call throws a TypeError before it
    changes anything, the error leaves the [forEach], and the remaining keys
    of the level are not reconciled. *)
Lemma null_leaf_step (fuel : nat) (child : loc)
  (rest : list string) :
  is_locked (own h oldObj key) = false ->
  propertyIsEnumerable h oldObj key = true ->
  hasOwnProperty h newObj key = true ->
  get h oldObj key = VObj child ->
  get h newObj key = VNull ->
  enumerable_keys (obj_at h child) ≠ [] ->
  let walk := applyKey (applyChange (S fuel)) (Some oldObj) (Some newObj)
                       keyPath in
  (forall rec0,
      applyKey rec0 (Some oldObj) (Some newObj) keyPath key (mkState h lg)
      = rec0 (Some child) None (key +:+ "/") (mkState h lg))
  /\ walk key (mkState h lg) = (Throw TypeError_nullish, mkState h lg)
  /\ forEach (key :: rest) walk (mkState h lg)
     = (Throw TypeError_nullish, mkState h lg)
  /\ is_TypeError TypeError_nullish = true.
Proof.
  intros Hlock Hvis Hown Hold Hnew Hkeys walk.
  assert (Hrec : forall rec0,
    applyKey rec0 (Some oldObj) (Some newObj) keyPath key (mkState h lg)
    = rec0 (Some child) None (key +:+ "/") (mkState h lg)).
  { intros rec0. rewrite applyKey_recurse; try assumption.
    - by rewrite Hold, Hnew.
    - rewrite Hold, Hnew. discriminate.
    - by rewrite Hnew.
    - by rewrite Hold. }
  assert (Hthrow :
    walk key (mkState h lg) = (Throw TypeError_nullish, mkState h lg)).
  { unfold walk. rewrite Hrec. cbn [applyChange heap].
    unfold union_keys. cbn [own_enumerable_keys]. rewrite app_nil_r.
    destruct (key_order (dedup (enumerable_keys (obj_at h child))))
      as [|k ks] eqn:Hks.
    - exfalso. revert Hks. by apply key_order_nonempty, dedup_nonempty.
    - reflexivity. }
  repeat split; try assumption.
  by apply forEach_abort.
Qed.

(** The step for a key that is configurable and enumerable on [oldObj],
    whose value there is not [undefined], and that [newObj] does not own: the
    key is removed.  A data property holding a truthy value is deleted.  An
    accessor property gets its setter, when it has one that accepts
    [undefined], called with [undefined], and is then made non-enumerable,
    not deleted.  Both report the removal. *)
Lemma absent_key_step :
  get h oldObj key ≠ VUndef ->
  is_locked (own h oldObj key) = false ->
  propertyIsEnumerable h oldObj key = true ->
  hasOwnProperty h newObj key = false ->
  let removed := Log [VStr "Removed property:"; VStr (keyPath +:+ key)] in
  (forall v w e c,
      own h oldObj key = Some (Data v w e c) -> truthy v = true ->
      exists h',
        step (mkState h lg) = (Ok tt, mkState h' (lg ++ [removed]))
        /\ own h' oldObj key = None)
  /\ (forall slot g f e c,
         own h oldObj key = Some (Accessor slot g f e c) ->
         f ≠ RejectSetter ->
         exists h',
           step (mkState h lg) = (Ok tt, mkState h' (lg ++ [removed]))
           /\ own h' oldObj key
              = Some (Accessor (match f with
                                | StoreSetter => VUndef
                                | _ => slot
                                end) g f false c)).
Proof.
  intros Hdef Hlock Hvis Habsent removed.
  assert (Hneq : get h newObj key ≠ get h oldObj key).
  { rewrite (get_absent _ _ _ Habsent). congruence. }
  assert (Hhead : forall d, own h oldObj key = Some d ->
    step (mkState h lg)
    = ((if truthy (descriptor_value d)
        then on_object_update (Some oldObj) (fun h l => delete h l key)
        else
          (match descriptor_set d with
           | NoSetter => ret tt
           | _ => on_object_update (Some oldObj)
                    (fun h l => call_setter h l key VUndef)
           end) ;;
          on_object_update (Some oldObj)
            (fun h l => defineEnumerable h l key false)) ;;
       emit removed) (mkState h lg)).
  { intros d Hd. unfold step, applyKey. run_key.
    rewrite (strict_eq_false _ _ Hneq). run_key.
    rewrite Hlock. run_key. rewrite Hvis. cbn [negb]. run_key.
    rewrite Habsent. cbn [negb]. rewrite Hd. reflexivity. }
  split.
  - intros v w e c Hd Hv. rewrite (Hhead _ Hd). cbn [descriptor_value].
    rewrite Hv. unfold on_object_update, update, bind, emit, delete.
    cbn [heap log]. unfold own in Hd, Hlock. rewrite Hd in Hlock |- *.
    cbn in Hlock. apply negb_false_iff in Hlock. cbn [prop_configurable].
    rewrite Hlock. cbn [heap log]. eexists; split; [reflexivity|].
    by rewrite own_insert, assoc_del_eq.
  - intros slot g f e c Hd Hf. rewrite (Hhead _ Hd).
    cbn [descriptor_value descriptor_set truthy].
    unfold own in Hd, Hlock. rewrite Hd in Hlock. cbn in Hlock.
    apply negb_false_iff in Hlock. subst c.
    destruct f; [ | | done ].
    + unfold on_object_update, update, bind, ret, emit, defineEnumerable.
      cbn [heap log]. rewrite Hd. cbn [prop_configurable heap log].
      eexists; split; [reflexivity|].
      by rewrite own_insert, assoc_set_eq.
    + unfold on_object_update, update, bind, ret, emit, call_setter.
      cbn [heap log]. rewrite Hd. cbn [heap log].
      unfold defineEnumerable. rewrite obj_at_insert, assoc_set_eq.
      cbn [prop_configurable heap log].
      eexists; split; [reflexivity|].
      by rewrite own_insert, assoc_set_eq.
Qed.

End ReconcileKey.

Section UpdateStep.
Import Reconcile.

(** The last branch: a key that passes the four earlier tests and whose two
    values are not both of type 'object' is assigned, inside [try]. *)
Lemma applyKey_update rec (h : gmap loc object) (lg : list event)
  (oldObj newObj : loc) (keyPath key : string) :
  get h newObj key ≠ get h oldObj key ->
  is_locked (own h oldObj key) = false ->
  propertyIsEnumerable h oldObj key = true ->
  hasOwnProperty h newObj key = true ->
  typeof (get h newObj key) ≠ TObject
  \/ typeof (get h oldObj key) ≠ TObject ->
  applyKey rec (Some oldObj) (Some newObj) keyPath key (mkState h lg)
  = match put h oldObj key (get h newObj key) with
    | inr h' =>
        (Ok tt,
         mkState h'
           (lg ++ [Log [VStr ("Updated property '" +:+ keyPath +:+ key
                              +:+ "' to:");
                        get h' newObj key]]))
    | inl e =>
        (Ok tt,
         mkState h
           (lg ++ [LogErr [VStr "Unable to update property:"; VStr key]
                          (Some e)]))
    end.
Proof.
  intros Hneq Hlock Hvis Hown Hscalar.
  unfold applyKey. run_key.
  rewrite (strict_eq_false _ _ Hneq). run_key.
  rewrite Hlock. run_key. rewrite Hvis. cbn [negb]. run_key.
  rewrite Hown. cbn [negb]. run_key.
  destruct Hscalar as [Hnew | Hold].
  - rewrite (bool_decide_false _ Hnew). run_key.
    unfold try_catch, write, on_object_update, update, emit. run_key.
    destruct (put h oldObj key (get h newObj key)); reflexivity.
  - case_bool_decide; run_key; rewrite ?(bool_decide_false _ Hold);
      unfold try_catch, write, on_object_update, update, emit; run_key;
      destruct (put h oldObj key (get h newObj key)); reflexivity.
Qed.

End UpdateStep.

(** ** Keys the incoming object does not own *)

Section ForeignKeys.
Import Reconcile.

Lemma accepting_plain (k : string) (v : value) : accepting [(k, plain v)].
Proof.
  intros k' p. cbn. case_bool_decide; [ | done ]. by intros [= <-].
Qed.

Lemma changes_only_refl t k h :
  accepting (obj_at h t) -> changes_only t k h h.
Proof. by intros; repeat split. Qed.

Lemma accepting_set k p o :
  accepting o -> descriptor_set p ≠ RejectSetter ->
  accepting (assoc_set k p o).
Proof.
  intros Ho Hp k' q. destruct (decide (k = k')) as [->|Hne].
  - rewrite assoc_set_eq. by intros [= <-].
  - rewrite assoc_set_ne by done. apply Ho.
Qed.

Lemma accepting_del k o : accepting o -> accepting (assoc_del k o).
Proof.
  intros Ho k' q. destruct (decide (k = k')) as [->|Hne].
  - by rewrite assoc_del_eq.
  - rewrite assoc_del_ne by done. apply Ho.
Qed.

Lemma changes_only_set t k h p :
  accepting (obj_at h t) -> descriptor_set p ≠ RejectSetter ->
  changes_only t k h (<[t := assoc_set k p (obj_at h t)]> h).
Proof.
  intros Ho Hp. repeat split.
  - intros l Hl. by rewrite obj_at_insert_ne.
  - intros k' Hk'. rewrite own_insert. by rewrite assoc_set_ne.
  - rewrite obj_at_insert. by apply accepting_set.
Qed.

Lemma changes_only_del t k h :
  accepting (obj_at h t) ->
  changes_only t k h (<[t := assoc_del k (obj_at h t)]> h).
Proof.
  intros Ho. repeat split.
  - intros l Hl. by rewrite obj_at_insert_ne.
  - intros k' Hk'. rewrite own_insert. by rewrite assoc_del_ne.
  - rewrite obj_at_insert. by apply accepting_del.
Qed.

Lemma changes_only_trans t k h1 h2 h3 :
  changes_only t k h1 h2 -> changes_only t k h2 h3 -> changes_only t k h1 h3.
Proof.
  intros (Ha & Hb & _) (Hc & Hd & He). repeat split; [ | | done].
  - intros l Hl. by rewrite Hc, Ha.
  - intros k' Hk'. by rewrite Hd, Hb.
Qed.

(** The step for a key the incoming object does not own: whatever branch it
    takes, it returns, and it touches nothing but that key of [oldObj]. *)
Lemma applyKey_foreign rec (h : gmap loc object) (lg : list event)
  (t d : loc) (keyPath k : string) :
  accepting (obj_at h t) ->
  hasOwnProperty h d k = false ->
  exists h' ext,
    applyKey rec (Some t) (Some d) keyPath k (mkState h lg)
    = (Ok tt, mkState h' (lg ++ ext))
    /\ changes_only t k h h'.
Proof.
  intros Hacc Habsent.
  pose proof (get_absent _ _ _ Habsent) as Hundef.
  unfold applyKey. run_key. rewrite Hundef.
  destruct (strict_eq VUndef (get h t k)) eqn:Hsame.
  { exists h, []. rewrite app_nil_r.
    split; [done | by apply changes_only_refl]. }
  run_key.
  destruct (own h t k) as [p|] eqn:Hp; cycle 1.
  { unfold get in Hsame. rewrite Hp in Hsame. discriminate. }
  assert (Hsetter : descriptor_set p ≠ RejectSetter)
    by (eapply Hacc; exact Hp).
  cbn [is_locked].
  destruct (prop_configurable p) eqn:Hconf; cbn [negb]; run_key.
  2:{ rewrite Habsent. exists h, []. rewrite app_nil_r.
      split; [done | by apply changes_only_refl]. }
  unfold propertyIsEnumerable. rewrite Hp.
  destruct (prop_enumerable p) eqn:Hen; cbn [negb]; run_key.
  - (* enumerable, absent from the incoming object: removed *)
    rewrite Habsent. cbn [negb]. unfold own in Hp.
    unfold on_object_update, update, emit, delete, call_setter,
      defineEnumerable.
    destruct p as [v w e c | slot g f e c]; cbn in Hconf, Hen, Hsetter;
      subst; cbn [descriptor_value descriptor_set truthy].
    + destruct (truthy v); cbn [heap log]; rewrite Hp;
        cbn [prop_configurable heap log prop_set_enumerable].
      * do 2 eexists. split; [reflexivity | by apply changes_only_del].
      * do 2 eexists. split; [reflexivity | by apply changes_only_set].
    + destruct f; [ | | done ]; cbn [heap log]; rewrite Hp; cbn [heap log];
        rewrite ?obj_at_insert, ?assoc_set_eq;
        cbn [prop_configurable heap log prop_set_enumerable].
      * do 2 eexists. split; [reflexivity | by apply changes_only_set].
      * do 2 eexists. split; [reflexivity | ].
        eapply changes_only_trans;
          [ by apply (changes_only_set _ _ _
                        (Accessor VUndef g StoreSetter true true)) | ].
        pose proof (changes_only_set t k
          (<[t := assoc_set k (Accessor VUndef g StoreSetter true true)
                    (obj_at h t)]> h)
          (Accessor VUndef g StoreSetter false true)) as Hstep.
        rewrite obj_at_insert in Hstep. apply Hstep; [ | done ].
        by apply accepting_set.
  - (* hidden: assigned undefined, inside try *)
    unfold try_catch, write, on_object_update, update, put. run_key.
    unfold own in Hp. rewrite Hp, Hundef.
    destruct p as [v w e c | slot g f e c]; cbn in Hconf, Hen, Hsetter;
      subst.
    + destruct w; cbn [heap log].
      * unfold hasOwnProperty, own. rewrite obj_at_insert, assoc_set_eq.
        rewrite bool_decide_true by done.
        unfold emit, defineEnumerable. cbn [heap log].
        rewrite obj_at_insert, assoc_set_eq.
        cbn [prop_configurable heap log prop_set_enumerable].
        do 2 eexists. split; [reflexivity | ].
        eapply changes_only_trans;
          [ by apply (changes_only_set _ _ _ (Data VUndef true false true)) | ].
        pose proof (changes_only_set t k
          (<[t := assoc_set k (Data VUndef true false true) (obj_at h t)]> h)
          (Data VUndef true true true)) as Hstep.
        rewrite obj_at_insert in Hstep. apply Hstep; [ | done ].
        by apply accepting_set.
      * unfold emit. cbn [heap log].
        do 2 eexists. split; [reflexivity | by apply changes_only_refl].
    + destruct f; [ | | done ]; cbn [heap log].
      * unfold emit. cbn [heap log].
        do 2 eexists. split; [reflexivity | by apply changes_only_refl].
      * unfold hasOwnProperty, own. rewrite obj_at_insert, assoc_set_eq.
        rewrite bool_decide_true by done.
        unfold emit, defineEnumerable. cbn [heap log].
        rewrite obj_at_insert, assoc_set_eq.
        cbn [prop_configurable heap log prop_set_enumerable].
        do 2 eexists. split; [reflexivity | ].
        eapply changes_only_trans;
          [ by apply (changes_only_set _ _ _
                        (Accessor VUndef g StoreSetter false true)) | ].
        pose proof (changes_only_set t k
          (<[t := assoc_set k (Accessor VUndef g StoreSetter false true)
                    (obj_at h t)]> h)
          (Accessor VUndef g StoreSetter true true)) as Hstep.
        rewrite obj_at_insert in Hstep. apply Hstep; [ | done ].
        by apply accepting_set.
Qed.
End ForeignKeys.

(** ** A [null] leaf against a plain field *)

Section NullLeaf.
Import Reconcile.

Variables (t ta d da : loc) (v : value) (w : bool).
Hypothesis Htta : t ≠ ta.
Hypothesis Hdt : d ≠ t.
Hypothesis Hdta : d ≠ ta.
Hypothesis Hdat : da ≠ t.
Hypothesis Hdata : da ≠ ta.
Hypothesis Hv : typeof v ≠ TObject.

Let frame := null_frame t ta d da w.
Let before := null_before t ta d da w v.
Let after := null_after t ta d da w.
Let inv (s : state) : Prop := before s \/ after s.

Lemma frame_low (h h' : gmap loc object) (k : string) :
  frame h -> changes_only ta k h h' -> frame h'.
Proof.
  intros (Hd & Hda & Ha & Hacc & Hacca) (Hobj & Hown & Hacc').
  repeat split.
  - by rewrite Hobj.
  - by rewrite Hobj.
  - unfold own. by rewrite Hobj.
  - by rewrite Hobj.
  - done.
Qed.

Lemma frame_top (h h' : gmap loc object) (k : string) :
  k ≠ "a" -> frame h -> changes_only t k h h' -> frame h'.
Proof.
  intros Hk (Hd & Hda & Ha & Hacc & Hacca) (Hobj & Hown & Hacc').
  repeat split.
  - by rewrite Hobj.
  - by rewrite Hobj.
  - by rewrite Hown.
  - done.
  - by rewrite Hobj.
Qed.

(** Below [a]: a key other than [b]. *)
Lemma low_other rec (k : string) (s : state) :
  k ≠ "b" -> frame (heap s) ->
  exists s',
    applyKey rec (Some ta) (Some da) "a/" k s = (Ok tt, s')
    /\ frame (heap s')
    /\ own (heap s') ta "b" = own (heap s) ta "b"
    /\ (forall e, e ∈ log s -> e ∈ log s').
Proof.
  intros Hk Hf. destruct s as [h lg]. cbn [heap log] in *.
  destruct Hf as (Hd & Hda & Ha & Hacc & Hacca).
  destruct (applyKey_foreign rec h lg ta da "a/" k Hacca)
    as (h' & ext & Hstep & Hch).
  { by eapply own_absent_singleton. }
  exists (mkState h' (lg ++ ext)). split; [done|]. cbn [heap log].
  split; [ by eapply frame_low | ].
  split; [ destruct Hch as (_ & Hown & _); by apply Hown | ].
  intros e He. apply elem_of_app. by left.
Qed.

Lemma low_b_before rec (s : state) :
  before s ->
  exists s', applyKey rec (Some ta) (Some da) "a/" "b" s = (Ok tt, s')
             /\ after s'.
Proof.
  destruct s as [h lg]. intros [Hf Hb]. cbn [heap log] in *.
  pose proof Hf as (Hd & Hda & Ha & Hacc & Hacca).
  assert (Hnew : own h da "b" = Some (plain VNull)).
  { unfold own. by rewrite Hda. }
  assert (Hvnull : strict_eq VNull v = false).
  { apply strict_eq_false. intros Heq. apply Hv. by rewrite <- Heq. }
  rewrite applyKey_update.
  2:{ unfold get. rewrite Hnew, Hb. cbn. intros Heq. apply Hv.
      by rewrite <- Heq. }
  2:{ by rewrite Hb. }
  2:{ unfold propertyIsEnumerable. by rewrite Hb. }
  2:{ unfold hasOwnProperty. rewrite Hnew. by apply bool_decide_true. }
  2:{ right. unfold get. by rewrite Hb. }
  unfold get, put. rewrite Hnew. cbn [prop_read plain].
  unfold own in Hb. rewrite Hb. cbn [plain].
  rewrite own_insert_ne by done. rewrite Hnew. cbn [prop_read plain].
  eexists. split; [reflexivity | ].
  split; [ | split ]; cbn [heap log].
  - eapply (frame_low h _ "b"); [ done | ].
    by apply changes_only_set.
  - by rewrite own_insert, assoc_set_eq.
  - apply elem_of_app. right. apply list_elem_of_here.
Qed.

Lemma low_b_after rec (s : state) :
  after s ->
  exists s', applyKey rec (Some ta) (Some da) "a/" "b" s = (Ok tt, s')
             /\ after s'.
Proof.
  destruct s as [h lg]. intros (Hf & Hb & Hlog). cbn [heap log] in *.
  pose proof Hf as (Hd & Hda & Ha & Hacc & Hacca).
  assert (Hnew : own h da "b" = Some (plain VNull)).
  { unfold own. by rewrite Hda. }
  unfold applyKey. run_key. unfold get. rewrite Hnew, Hb.
  exists (mkState h lg). split; [reflexivity | done].
Qed.

(** Below [a], every key keeps the invariant, and [b] establishes the
    update. *)
Lemma low_inv rec (k : string) (s : state) :
  inv s ->
  exists s', applyKey rec (Some ta) (Some da) "a/" k s = (Ok tt, s') /\ inv s'.
Proof.
  intros Hs. destruct (decide (k = "b")) as [->|Hk].
  - destruct Hs as [Hs | Hs].
    + destruct (low_b_before rec s Hs) as (s' & ? & ?).
      exists s'. by split; [|right].
    + destruct (low_b_after rec s Hs) as (s' & ? & ?).
      exists s'. by split; [|right].
  - destruct Hs as [[Hf Hb] | (Hf & Hb & Hlog)].
    + destruct (low_other rec k s Hk Hf) as (s' & ? & ? & Hown & ?).
      exists s'. split; [done|]. left. split; [done|]. by rewrite Hown.
    + destruct (low_other rec k s Hk Hf) as (s' & ? & ? & Hown & Hmono).
      exists s'. split; [done|]. right. split; [done|].
      split; [ by rewrite Hown | by apply Hmono ].
Qed.

Lemma low_after rec (k : string) (s : state) :
  after s ->
  exists s', applyKey rec (Some ta) (Some da) "a/" k s = (Ok tt, s')
             /\ after s'.
Proof.
  intros Hs. destruct (decide (k = "b")) as [->|Hk].
  - by apply low_b_after.
  - destruct Hs as (Hf & Hb & Hlog).
    destruct (low_other rec k s Hk Hf) as (s' & ? & ? & Hown & Hmono).
    exists s'. split; [done|]. split; [done|].
    split; [ by rewrite Hown | by apply Hmono ].
Qed.

Lemma low_b rec (s : state) :
  inv s ->
  exists s', applyKey rec (Some ta) (Some da) "a/" "b" s = (Ok tt, s')
             /\ after s'.
Proof.
  intros [Hs | Hs]; [ by apply low_b_before | by apply low_b_after ].
Qed.

(** The recursive call on [(target.a, diff.a)] ends with [b] overwritten. *)
Lemma low_walk (fuel : nat) (s : state) :
  inv s ->
  exists s', applyChange (S fuel) (Some ta) (Some da) "a/" s = (Ok tt, s')
             /\ after s'.
Proof.
  intros Hs. cbn [applyChange].
  apply (forEach_reaches _ inv after "b"); try done.
  - apply elem_of_union_keys_new.
    assert (Hda : obj_at (heap s) da = [("b", plain VNull)]).
    { destruct Hs as [[Hf _] | [Hf _]]; apply Hf. }
    rewrite Hda. vm_compute. apply list_elem_of_here.
  - intros k s0. apply low_inv.
  - intros s0. apply low_b.
  - intros k s0. apply low_after.
Qed.

(** At the top: a key other than [a]. *)
Lemma top_other rec (kp k : string) (s : state) :
  k ≠ "a" -> frame (heap s) ->
  exists s',
    applyKey rec (Some t) (Some d) kp k s = (Ok tt, s')
    /\ frame (heap s')
    /\ own (heap s') ta "b" = own (heap s) ta "b"
    /\ (forall e, e ∈ log s -> e ∈ log s').
Proof.
  intros Hk Hf. destruct s as [h lg]. cbn [heap log] in *.
  pose proof Hf as (Hd & Hda & Ha & Hacc & Hacca).
  destruct (applyKey_foreign rec h lg t d kp k Hacc)
    as (h' & ext & Hstep & Hch).
  { by eapply own_absent_singleton. }
  exists (mkState h' (lg ++ ext)). split; [done|]. cbn [heap log].
  split; [ by eapply frame_top | ].
  split.
  - destruct Hch as (Hobj & _ & _). unfold own. by rewrite Hobj.
  - intros e He. apply elem_of_app. by left.
Qed.

Lemma top_a (fuel : nat) (kp : string) (s : state) :
  inv s ->
  exists s',
    applyKey (applyChange (S fuel)) (Some t) (Some d) kp "a" s = (Ok tt, s')
    /\ after s'.
Proof.
  intros Hs.
  assert (Hf : frame (heap s)) by (destruct Hs as [[Hf _] | [Hf _]]; exact Hf).
  destruct s as [h lg]. cbn [heap log] in Hf.
  pose proof Hf as (Hd & Hda & Ha & Hacc & Hacca).
  assert (Hnew : own h d "a" = Some (plain (VObj da))).
  { unfold own. by rewrite Hd. }
  rewrite applyKey_recurse.
  2:{ unfold get. rewrite Hnew, Ha. cbn. congruence. }
  2:{ by rewrite Ha. }
  2:{ unfold propertyIsEnumerable. by rewrite Ha. }
  2:{ unfold hasOwnProperty. rewrite Hnew. by apply bool_decide_true. }
  2:{ unfold get. by rewrite Hnew. }
  2:{ unfold get. by rewrite Ha. }
  unfold get. rewrite Hnew, Ha. cbn [prop_read plain as_operand].
  by apply low_walk.
Qed.

Lemma top_inv (fuel : nat) (kp k : string) (s : state) :
  inv s ->
  exists s',
    applyKey (applyChange (S fuel)) (Some t) (Some d) kp k s = (Ok tt, s')
    /\ inv s'.
Proof.
  intros Hs. destruct (decide (k = "a")) as [->|Hk].
  - destruct (top_a fuel kp s Hs) as (s' & ? & ?).
    exists s'. by split; [|right].
  - destruct Hs as [[Hf Hb] | (Hf & Hb & Hlog)].
    + destruct (top_other (applyChange (S fuel)) kp k s Hk Hf)
        as (s' & ? & ? & Hown & ?).
      exists s'. split; [done|]. left. split; [done|]. by rewrite Hown.
    + destruct (top_other (applyChange (S fuel)) kp k s Hk Hf)
        as (s' & ? & ? & Hown & Hmono).
      exists s'. split; [done|]. right. split; [done|].
      split; [ by rewrite Hown | by apply Hmono ].
Qed.

Lemma top_after (fuel : nat) (kp k : string) (s : state) :
  after s ->
  exists s',
    applyKey (applyChange (S fuel)) (Some t) (Some d) kp k s = (Ok tt, s')
    /\ after s'.
Proof.
  intros Hs. destruct (decide (k = "a")) as [->|Hk].
  - apply top_a. by right.
  - destruct Hs as (Hf & Hb & Hlog).
    destruct (top_other (applyChange (S fuel)) kp k s Hk Hf)
      as (s' & ? & ? & Hown & Hmono).
    exists s'. split; [done|]. split; [done|].
    split; [ by rewrite Hown | by apply Hmono ].
Qed.

(** Reconciling the diff [{a: {b: null}}] against a target whose [a.b] is a
    plain field holding a value not of type 'object': the call returns,
    [a.b] holds [null] in a field still present and enumerable, and the
    update is reported. *)
Lemma null_leaf_overwrites (fuel : nat) (kp : string) (h : gmap loc object)
  (lg : list event) :
  frame h ->
  own h ta "b" = Some (plain v) ->
  exists r,
    applyChange (S (S fuel)) (Some t) (Some d) kp (mkState h lg) = (Ok tt, r)
    /\ own (heap r) ta "b" = Some (plain VNull)
    /\ own (heap r) t "a" = Some (Data (VObj ta) w true true)
    /\ updated_ab ∈ log r.
Proof.
  intros Hf Hb. cbn [applyChange heap].
  destruct (forEach_reaches
              (applyKey (applyChange (S fuel)) (Some t) (Some d) kp)
              inv after "a" (union_keys h (Some t) (Some d)))
    with (s := mkState h lg) as (r & Hr & Hfr & Hrb & Hlog).
  - apply elem_of_union_keys_new.
    destruct Hf as (Hd & _). rewrite Hd. vm_compute. apply list_elem_of_here.
  - intros k s0. apply top_inv.
  - intros s0. apply top_a.
  - intros k s0. apply top_after.
  - by left.
  - exists r. split; [done|]. split; [done|]. split; [ apply Hfr | done ].
Qed.

End NullLeaf.

(** ** Reconciliation on closed trees *)

Section ReconcileExamples.
Import Reconcile.

(** The scenario of the spec: [reconcile(previous, {x: 2})] leaves
    [previous.x === 1] and reports the failure. *)
Example locked_field_scenario :
  exists s,
    applyChange 2 (Some 1) (Some 2) "" (mkState locked_heap []) = (Ok tt, s)
    /\ get (heap s) 1 "x" = VNum 1
    /\ log s = [LogErr [VStr "Unable to modify locked property:"; VStr "x"]
                       None].
Proof. eexists. split; [vm_compute; reflexivity | split; reflexivity]. Qed.

(** The first test comes before the locked test: when [incoming] supplies
    for a locked key the value [previous] holds, the key is skipped without a
    report. *)
Example locked_key_same_value_is_skipped :
  let h := heap_of [(1, [("x", Data (VNum 1) true true false)]);
                    (2, [("x", plain (VNum 1))])] in
  is_locked (own h 1 "x") = true
  /\ hasOwnProperty h 2 "x" = true
  /\ exists s,
       applyChange 2 (Some 1) (Some 2) "" (mkState h []) = (Ok tt, s)
       /\ log s = [].
Proof.
  split; [reflexivity | split; [reflexivity | ]].
  eexists. split; [vm_compute; reflexivity | reflexivity].
Qed.

(** A plain field whose value is falsy takes the accessor path of the
    removal: [y] holding [0] is hidden, not deleted. *)
Example falsy_plain_field_is_hidden :
  exists s,
    applyChange 2 (Some 1) (Some 2) "" (mkState round_trip_heap [])
    = (Ok tt, s)
    /\ own (heap s) 1 "y" = Some (Data (VNum 0) true false true)
    /\ log s = [Log [VStr "Removed property:"; VStr "y"]].
Proof. eexists. split; [vm_compute; reflexivity | split; reflexivity]. Qed.

(** C5 as stated fails: [y] exists and is enumerable on [previous] and is
    absent from [incoming], but it is locked; it is neither deleted nor
    hidden and no removal is reported. *)
Lemma locked_absent_key_not_removed :
  let h := heap_of [(1, [("y", Data (VNum 1) true true false)]); (2, [])] in
  propertyIsEnumerable h 1 "y" = true
  /\ hasOwnProperty h 2 "y" = false
  /\ exists s,
       applyChange 2 (Some 1) (Some 2) "" (mkState h []) = (Ok tt, s)
       /\ propertyIsEnumerable (heap s) 1 "y" = true
       /\ log s = [].
Proof.
  split; [reflexivity | split; [reflexivity | ]].
  eexists. split; [vm_compute; reflexivity | split; reflexivity].
Qed.

(** C6 fails on the code: the recursive call is handed [key + '/'], not
    [keyPath + key + '/'] (the reports of the same walk are built from
    [keyPath + key]), so the path of a report drops every key but the last
    two.  With [previous = {a: {b: {c: 1}}}] and
    [incoming = {a: {b: {c: 2}}}] the walk recurses twice and updates [c];
    the update is reported as ['b/c'], not as ['a/b/c']. *)
Theorem nested_path_is_not_accumulated :
  exists s,
    applyChange 3 (Some 1) (Some 11) "" (mkState deep_heap []) = (Ok tt, s)
    /\ get (heap s) 3 "c" = VNum 2
    /\ log s = [Log [VStr "Updated property 'b/c' to:"; VNum 2]]
    /\ log s ≠ [Log [VStr "Updated property 'a/b/c' to:"; VNum 2]].
Proof.
  eexists. split; [vm_compute; reflexivity | ].
  split; [reflexivity | split; [reflexivity | discriminate]].
Qed.

(** The whole call on [{a: {k: 1}, z: 1}] against [{a: null, z: 2}]: the
    error reaches the caller and [z] keeps its old value. *)
Example null_leaf_aborts_the_level :
  exists s,
    applyChange 2 (Some 1) (Some 2) "" (mkState null_heap [])
    = (Throw TypeError_nullish, s)
    /\ get (heap s) 1 "z" = VNum 1.
Proof. eexists. split; [vm_compute; reflexivity | reflexivity]. Qed.

(** C10 as stated fails: [previous.a] is an object, [incoming.a] is [null],
    and nothing is thrown: the object has no enumerable key, so the
    recursive call reads no property of [null]. *)
Lemma null_against_empty_object_returns :
  get null_empty_heap 1 "a" = VObj 3
  /\ get null_empty_heap 2 "a" = VNull
  /\ applyChange 2 (Some 1) (Some 2) "" (mkState null_empty_heap [])
     = (Ok tt, mkState null_empty_heap []).
Proof.
  split; [reflexivity | split; [reflexivity | ]].
  vm_compute. reflexivity.
Qed.

(** C7 fails on the code: with [T = {y: 0}], [T2 = {}] and the full snapshot
    [T3 = {y: 0}], reconciling with [T2] and then [T3] leaves [y] hidden,
    where reconciling with [T3] alone leaves it enumerable.  Nothing is
    locked. *)
Theorem round_trip_leaves_field_hidden :
  exists via direct,
    (applyChange 2 (Some 1) (Some 2) "" ;; applyChange 2 (Some 1) (Some 3) "")
      (mkState round_trip_heap []) = (Ok tt, via)
    /\ applyChange 2 (Some 1) (Some 3) "" (mkState round_trip_heap [])
       = (Ok tt, direct)
    /\ enumerable_keys (obj_at (heap via) 1) = []
    /\ enumerable_keys (obj_at (heap direct) 1) = ["y"]
    /\ own (heap via) 1 "y" = Some (Data (VNum 0) true false true)
    /\ own (heap direct) 1 "y" = Some (Data (VNum 0) true true true).
Proof.
  eexists. eexists.
  split; [vm_compute; reflexivity | ].
  split; [vm_compute; reflexivity | ].
  repeat split; reflexivity.
Qed.

End ReconcileExamples.

(** ** The bound property *)

Section BoundProperty.
Import Observer.


Lemma observe_tree_heap :
  observe tree_heap 10 1 "state" = inr (Some tree_state).
Proof. reflexivity. Qed.


End BoundProperty.

(** ** The first deletion through a proxy *)

(** The picture of a value that is not an object is the value. *)
Lemma reify_scalar (fuel : nat) (hp : gmap loc object) (v : value) :
  Observer.isObj v = false -> Observer.reify fuel hp v = Observer.JLeaf v.
Proof. by destruct fuel, v. Qed.

(** The picture of an object with a single plain property. *)
Lemma reify_singleton (fuel : nat) (hp : gmap loc object) (l : loc)
  (k : string) (v : value) :
  obj_at hp l = [(k, plain v)] ->
  Observer.reify (S fuel) hp (VObj l)
  = Observer.JObj [(k, Observer.reify fuel hp v)].
Proof.
  intros Hobj. cbn [Observer.reify]. rewrite Hobj. unfold enumerable_keys.
  change (map fst (filter _ [(k, plain v)])) with [k].
  rewrite key_order_singleton.
  cbn [map]. unfold get, own. rewrite Hobj. cbn [assoc].
  by rewrite bool_decide_true.
Qed.

(** Evaluation of observer programs on a heap that is not closed. *)
Ltac obs_unfold :=
  unfold Observer.assign, Observer.remove, Observer.navigate,
    Observer.host_get, Observer.ref_path, Observer.ref_get,
    Observer.ref_set, Observer.ref_delete, Observer.topGetter,
    Observer.getProxy, Observer.get_trap, Observer.set_trap,
    Observer.deleteProperty, Observer.nextCallback, Observer.next_turn,
    Observer.run_ticks, Observer.tick_body, Observer.callback, Observer.this,
    Observer.set_node, Observer.new_node, Observer.new_object,
    Observer.read_value, Observer.write_value, Observer.heap_update,
    bind, ret, gets, modify, throw,
    Observer.with_nodes, Observer.with_cb, Observer.with_pending,
    Observer.with_calls, Observer.with_heap, Observer.node_at,
    Observer.set_proxy, Observer.set_children, Observer.set_tmp,
    Observer.set_store.

Ltac obs_cbn :=
  cbn beta iota delta [Observer.heap Observer.next Observer.nodes
    Observer.next_node Observer.cb Observer.pending Observer.calls
    Observer.bound Observer.n_proxy Observer.n_children Observer.n_tmp
    Observer.n_store Observer.cb_wait Observer.cb_key Observer.cb_store
    Observer.cb_tmp Observer.b_host Observer.b_key Observer.b_slot
    Observer.b_getter Observer.b_setter Observer.b_enumerable
    Observer.isObj truthy negb default from_option id fst snd Observer.top
    Observer.empty_node prop_read assoc assoc_set].

Ltac obs_side :=
  repeat (rewrite obj_at_insert || (rewrite obj_at_insert_ne by lia));
  reflexivity.

Ltac obs_norm :=
  repeat (progress obs_cbn
          || (rewrite put_fresh by obs_side)
          || rewrite insert_insert_eq
          || rewrite lookup_insert_eq
          || rewrite lookup_empty
          || (rewrite lookup_insert_ne by done)
          || rewrite get_insert
          || (rewrite get_insert_ne by lia)
          || (rewrite own_insert_ne by lia)
          || rewrite obj_at_insert
          || (rewrite obj_at_insert_ne by lia)).

Section FreshDelete.
Import Observer.

Variables (h : gmap loc object) (nxt host S A : loc) (key : string).
Variables (w e : bool).
Hypothesis HS : S < nxt.
Hypothesis Hbound : own h host key = Some (Data (VObj S) w e true).
Hypothesis Ha : get h S "a" = VObj A.
Hypothesis Hfree : is_constant (own h S "a") = false.
Hypothesis HA : A < nxt.
Hypothesis Hb : is_locked (own h A "b") = false.

(** Deleting [a.b] through the proxy of a binding just installed: the
    callback is called on the next turn, once, with [{a: {b: null}}] (the
    object at [nxt]); [b] is gone from the observed tree and no other object
    of the original heap is touched. *)
Lemma fresh_delete :
  exists s0 s1,
    observe h nxt host key = inr (Some s0)
    /\ (remove ["a"] "b" ;; next_turn) s0 = (Ok tt, s1)
    /\ calls s1 = [(VObj nxt, JObj [("a", JObj [("b", JLeaf VNull)])])]
    /\ obj_at (heap s1) nxt = [("a", plain (VObj (Datatypes.S nxt)))]
    /\ obj_at (heap s1) (Datatypes.S nxt) = [("b", plain VNull)]
    /\ own (heap s1) A "b" = None
    /\ (forall l, l < nxt -> l ≠ A -> obj_at (heap s1) l = obj_at h l).
Proof.
  set (hd := <[Datatypes.S nxt := [("b", plain VNull)]]>
               (<[nxt := [("a", plain (VObj (Datatypes.S nxt)))]]>
                  (<[Datatypes.S nxt := []]> (<[nxt := []]> h)))).
  destruct (delete_unlocked hd A "b") as (hp' & Hdel & Hgone & Hframe & Hkeys).
  { unfold own, hd. by rewrite !obj_at_insert_ne by lia. }
  eexists. eexists. split.
  { unfold observe. rewrite Hbound. cbn. reflexivity. }
  repeat (progress (obs_unfold; obs_norm; rewrite ?Ha, ?Hfree)).
  match goal with
  | |- context [delete ?hp A "b"] => change hp with hd
  end.
  rewrite Hdel.
  assert (Hd : obj_at hp' nxt
               = [("a", plain (VObj (Datatypes.S nxt)))]).
  { rewrite Hframe by lia. unfold hd.
    rewrite obj_at_insert_ne by lia. by rewrite obj_at_insert. }
  assert (Hda : obj_at hp' (Datatypes.S nxt) = [("b", plain VNull)]).
  { rewrite Hframe by lia. unfold hd. by rewrite obj_at_insert. }
  repeat (progress (obs_unfold; obs_norm)).
  split; [reflexivity | ]. obs_cbn.
  split; [ | split; [ | split; [ | split ] ] ].
  - cbn [app]. rewrite (reify_singleton _ _ _ _ _ Hd).
    rewrite (reify_singleton _ _ _ _ _ Hda). by rewrite reify_scalar.
  - by rewrite obj_at_insert_ne by lia.
  - by rewrite obj_at_insert_ne by lia.
  - unfold own. rewrite obj_at_insert_ne by lia. exact Hgone.
  - intros l Hl HlA. rewrite obj_at_insert_ne by lia.
    rewrite Hframe by done. unfold hd. by rewrite !obj_at_insert_ne by lia.
Qed.
End FreshDelete.

Lemma put_assignable (hp : gmap loc object) (l : loc) (k : string)
  (v : value) :
  assignable (own hp l k) = true ->
  exists hp',
    put hp l k v = inr hp'
    /\ (forall l', l' ≠ l -> obj_at hp' l' = obj_at hp l')
    /\ (forall k', k' ≠ k -> own hp' l k' = own hp l k').
Proof.
  unfold put, own. intros Hp.
  destruct (assoc k (obj_at hp l)) as [[x w e c | slot g f e c]|] eqn:Hk;
    cbn in Hp.
  - subst w. eexists. split; [reflexivity|]. split.
    + intros l' Hne. by rewrite obj_at_insert_ne.
    + intros k' Hne. by rewrite obj_at_insert, assoc_set_ne.
  - destruct f; try discriminate. eexists. split; [reflexivity|]. split.
    + intros l' Hne. by rewrite obj_at_insert_ne.
    + intros k' Hne. by rewrite obj_at_insert, assoc_set_ne.
  - eexists. split; [reflexivity|]. split.
    + intros l' Hne. by rewrite obj_at_insert_ne.
    + intros k' Hne. by rewrite obj_at_insert, assoc_set_ne.
Qed.

Section FreshWrite.
Import Observer.

Variables (h : gmap loc object) (nxt host S A B : loc) (key : string).
Variables (w e : bool) (v : value).
Hypothesis HS : S < nxt.
Hypothesis Hbound : own h host key = Some (Data (VObj S) w e true).
Hypothesis Ha : get h S "a" = VObj A.
Hypothesis Hfa : is_constant (own h S "a") = false.
Hypothesis HA : A < nxt.
Hypothesis Hb : get h A "b" = VObj B.
Hypothesis Hfb : is_constant (own h A "b") = false.
Hypothesis HB : B < nxt.
Hypothesis Hc : assignable (own h B "c") = true.

(** The first write to [a.b.c] on a binding just installed: the callback is
    called on the next turn, once, with a diff that has the single key [a],
    under it the single key [b], under it the single key [c] with the value
    written. *)
Lemma fresh_nested_write :
  exists s0 s1 s2,
    observe h nxt host key = inr (Some s0)
    /\ assign ["a"; "b"] "c" v s0 = (Ok tt, s1)
    /\ calls s1 = [] /\ pending s1 = 1
    /\ next_turn s1 = (Ok tt, s2)
    /\ pending s2 = 0
    /\ map fst (calls s2) = [VObj nxt]
    /\ obj_at (heap s2) nxt = [("a", plain (VObj (Datatypes.S nxt)))]
    /\ obj_at (heap s2) (Datatypes.S nxt)
       = [("b", plain (VObj (Datatypes.S (Datatypes.S nxt))))]
    /\ obj_at (heap s2) (Datatypes.S (Datatypes.S nxt)) = [("c", plain v)]
    /\ (isObj v = false ->
        map snd (calls s2)
        = [JObj [("a", JObj [("b", JObj [("c", JLeaf v)])])]]).
Proof.
  set (hd := <[Datatypes.S (Datatypes.S nxt) := [("c", Data v true true true)]]>
               (<[nxt := [("a", Data (VObj (Datatypes.S nxt)) true true true)]]>
               (<[Datatypes.S nxt :=
                    [("b", Data (VObj (Datatypes.S (Datatypes.S nxt)))
                                true true true)]]>
               (<[Datatypes.S (Datatypes.S nxt) := []]>
               (<[Datatypes.S nxt := []]> (<[nxt := []]> h)))))).
  destruct (put_assignable hd B "c" v) as (hp' & Hput & Hframe & Hkeys).
  { unfold own, hd. by rewrite !obj_at_insert_ne by lia. }
  assert (Hd : obj_at hp' nxt = [("a", plain (VObj (Datatypes.S nxt)))]).
  { rewrite Hframe by lia. unfold hd.
    rewrite obj_at_insert_ne by lia. by rewrite obj_at_insert. }
  assert (Hda : obj_at hp' (Datatypes.S nxt)
                = [("b", plain (VObj (Datatypes.S (Datatypes.S nxt))))]).
  { rewrite Hframe by lia. unfold hd.
    rewrite !obj_at_insert_ne by lia. by rewrite obj_at_insert. }
  assert (Hdb : obj_at hp' (Datatypes.S (Datatypes.S nxt))
                = [("c", plain v)]).
  { rewrite Hframe by lia. unfold hd. by rewrite obj_at_insert. }
  eexists. eexists. eexists. split.
  { unfold observe. rewrite Hbound. cbn. reflexivity. }
  split.
  { unfold assign.
    repeat (progress (obs_unfold; obs_norm; rewrite ?Ha, ?Hb, ?Hfa, ?Hfb)).
    match goal with
    | |- context [put ?hp B "c" v] => change hp with hd
    end.
    rewrite Hput. reflexivity. }
  obs_cbn. split; [reflexivity | split; [reflexivity | ]].
  split.
  { repeat (progress (obs_unfold; obs_norm)). reflexivity. }
  obs_cbn. split; [reflexivity | ]. split; [reflexivity | ].
  split; [ by rewrite obj_at_insert_ne by lia | ].
  split; [ by rewrite obj_at_insert_ne by lia | ].
  split; [ by rewrite obj_at_insert_ne by lia | ].
  intros Hv. cbn [app map snd].
  rewrite (reify_singleton _ _ _ _ _ Hd).
  rewrite (reify_singleton _ _ _ _ _ Hda).
  rewrite (reify_singleton _ _ _ _ _ Hdb).
  by rewrite reify_scalar.
Qed.

End FreshWrite.

(** ** The observed tree over two turns *)

Section ObserverExamples.
Import Observer.

(** C3 fails on the code: after a turn that wrote twice below [a.b], the
    node for [b] keeps the [store] of that turn.  A single write to [a.b.c]
    in the next turn goes into that stale object: the tree is updated, the
    callback receives the empty diff, not [{a: {b: {c: 3}}}]. *)
Theorem single_write_after_a_turn_is_lost :
  exists s0 s1 s2,
    observe tree_heap 10 1 "state" = inr (Some s0)
    /\ first_turn s0 = (Ok tt, s1)
    /\ (assign ["a"; "b"] "c" (VNum 3) ;; next_turn) s1 = (Ok tt, s2)
    /\ get (heap s2) 4 "c" = VNum 3
    /\ map snd (calls s2)
       = [JObj [("a", JObj [("b", JObj [("c", JLeaf (VNum 1));
                                         ("d", JLeaf (VNum 2))])])];
          JObj []].
Proof.
  do 3 eexists.
  split; [vm_compute; reflexivity | ].
  split; [vm_compute; reflexivity | ].
  split; [vm_compute; reflexivity | ].
  split; reflexivity.
Qed.

(** C2 fails on the code, by the same stale [store]: of two writes made in
    one turn to [a.b.c] and [a.q.z], the callback, called once and only on
    the next turn, receives a diff that holds the second and not the
    first. *)
Theorem coalesced_diff_misses_a_write :
  exists s0 s1 s2 s3,
    observe tree_heap 10 1 "state" = inr (Some s0)
    /\ first_turn s0 = (Ok tt, s1)
    /\ (assign ["a"; "b"] "c" (VNum 3) ;; assign ["a"; "q"] "z" (VNum 4)) s1
       = (Ok tt, s2)
    /\ calls s2 = calls s1
    /\ pending s2 = 1
    /\ get (heap s2) 4 "c" = VNum 3
    /\ get (heap s2) 5 "z" = VNum 4
    /\ next_turn s2 = (Ok tt, s3)
    /\ length (calls s3) = S (length (calls s1))
    /\ map snd (calls s3)
       = map snd (calls s1)
         ++ [JObj [("a", JObj [("q", JObj [("z", JLeaf (VNum 4))])])]].
Proof.
  do 4 eexists.
  split; [vm_compute; reflexivity | ].
  split; [vm_compute; reflexivity | ].
  split; [vm_compute; reflexivity | ].
  split; [reflexivity | ].
  split; [reflexivity | ].
  split; [reflexivity | ].
  split; [reflexivity | ].
  split; [vm_compute; reflexivity | ].
  split; reflexivity.
Qed.

(** On a binding just installed the same statements behave: the scenario of
    the spec, and a first write three levels down. *)
Example first_turn_scenario :
  exists s0 s1,
    observe tree_heap 10 1 "state" = inr (Some s0)
    /\ (assign [] "count" (VNum 1) ;; assign [] "count" (VNum 2) ;;
        assign [] "label" (VStr "x") ;; next_turn) s0 = (Ok tt, s1)
    /\ map snd (calls s1)
       = [JObj [("count", JLeaf (VNum 2)); ("label", JLeaf (VStr "x"))]].
Proof.
  do 2 eexists.
  split; [vm_compute; reflexivity | ].
  split; [vm_compute; reflexivity | reflexivity].
Qed.

Example first_nested_write_is_sparse :
  exists s0 s1,
    observe tree_heap 10 1 "state" = inr (Some s0)
    /\ (assign ["a"; "b"] "c" (VNum 7) ;; next_turn) s0 = (Ok tt, s1)
    /\ map snd (calls s1)
       = [JObj [("a", JObj [("b", JObj [("c", JLeaf (VNum 7))])])]].
Proof.
  do 2 eexists.
  split; [vm_compute; reflexivity | ].
  split; [vm_compute; reflexivity | reflexivity].
Qed.

End ObserverExamples.

(** ** From the observed tree to the reconciler *)

Section DeletionSentinel.
Import Observer.



(** An object held in a read-only, non-configurable data property cannot be
    reached through the proxy: the engine refuses the [Proxy] the trap
    returns for it.  The deletion of [a.b] throws a TypeError before the
    [deleteProperty] trap runs; nothing is deleted and no diff is on its
    way. *)
Example constant_field_cannot_be_read :
  exists s0 s1,
    observe constant_heap 10 1 "state" = inr (Some s0)
    /\ remove ["a"] "b" s0 = (Throw TypeError_invariant, s1)
    /\ pending s1 = 0
    /\ calls s1 = []
    /\ own (heap s1) 3 "b" = Some (plain (VNum 1)).
Proof.
  do 2 eexists. split; [ vm_compute; reflexivity | ].
  split; [ vm_compute; reflexivity | repeat split; reflexivity ].
Qed.


End DeletionSentinel.

(** ** Event registration *)

Section ServerFacts.
Import Server ServerScenarios.




End ServerFacts.

(** * Further properties of the reconciler *)

Import Frames.

Section HeapOperations.

Lemma touches_only_refl (l : loc) (k : string) (h : gmap loc object) :
  touches_only l k h h.
Proof. by split. Qed.

Lemma touches_only_trans (l : loc) (k : string) (h1 h2 h3 : gmap loc object) :
  touches_only l k h1 h2 -> touches_only l k h2 h3 -> touches_only l k h1 h3.
Proof.
  intros [Ha Hb] [Hc Hd]. split.
  - intros l' Hl. by rewrite Hc, Ha.
  - intros k' Hk. by rewrite Hd, Hb.
Qed.

Lemma touches_only_insert_set (l : loc) (k : string) (h : gmap loc object)
  (p : prop) :
  touches_only l k h (<[l := assoc_set k p (obj_at h l)]> h).
Proof.
  split.
  - intros l' Hl. by rewrite obj_at_insert_ne.
  - intros k' Hk. by rewrite own_insert, assoc_set_ne.
Qed.

Lemma touches_only_insert_del (l : loc) (k : string) (h : gmap loc object) :
  touches_only l k h (<[l := assoc_del k (obj_at h l)]> h).
Proof.
  split.
  - intros l' Hl. by rewrite obj_at_insert_ne.
  - intros k' Hk. by rewrite own_insert, assoc_del_ne.
Qed.

Lemma put_touches (h h' : gmap loc object) (l : loc) (k : string) (v : value) :
  put h l k v = inr h' -> touches_only l k h h'.
Proof.
  unfold put. intros Hput.
  destruct (assoc k (obj_at h l)) as [[x [] e c | slot g [] e c]|];
    simplify_eq; apply touches_only_insert_set.
Qed.

Lemma delete_touches (h h' : gmap loc object) (l : loc) (k : string) :
  delete h l k = inr h' -> touches_only l k h h'.
Proof.
  unfold delete. intros Hdel.
  destruct (assoc k (obj_at h l)) as [p|]; [ | simplify_eq; apply touches_only_refl ].
  destruct (prop_configurable p); simplify_eq. apply touches_only_insert_del.
Qed.

Lemma defineEnumerable_touches (h h' : gmap loc object) (l : loc) (k : string)
  (e : bool) :
  defineEnumerable h l k e = inr h' -> touches_only l k h h'.
Proof.
  unfold defineEnumerable. intros Hdef.
  destruct (assoc k (obj_at h l)) as [p|];
    [ | simplify_eq; apply touches_only_insert_set ].
  destruct (prop_configurable p); [ simplify_eq; apply touches_only_insert_set | ].
  case_bool_decide; simplify_eq. apply touches_only_refl.
Qed.

Lemma call_setter_touches (h h' : gmap loc object) (l : loc) (k : string)
  (v : value) :
  call_setter h l k v = inr h' -> touches_only l k h h'.
Proof.
  unfold call_setter. intros Hcall.
  destruct (assoc k (obj_at h l)) as [[x w e c | slot g [] e c]|];
    simplify_eq; try apply touches_only_refl. apply touches_only_insert_set.
Qed.

Lemma keeps_locked_refl (h : gmap loc object) : keeps_locked h h.
Proof. by intros l k p. Qed.

Lemma keeps_locked_trans (h1 h2 h3 : gmap loc object) :
  keeps_locked h1 h2 -> keeps_locked h2 h3 -> keeps_locked h1 h3.
Proof. intros H12 H23 l k p Hp Hc. eapply H23; [ by eapply H12 | done ]. Qed.

(** A change confined to a property that is not locked keeps every locked
    property. *)
Lemma touches_only_keeps_locked (l : loc) (k : string) (h h' : gmap loc object) :
  is_locked (own h l k) = false -> touches_only l k h h' -> keeps_locked h h'.
Proof.
  intros Hfree [Hobj Hown] l' k' p Hp Hc.
  destruct (decide (l' = l)) as [->|Hl].
  - destruct (decide (k' = k)) as [->|Hk].
    + rewrite Hp in Hfree. cbn in Hfree. by rewrite Hc in Hfree.
    + by rewrite Hown.
  - unfold own in *. by rewrite Hobj.
Qed.

End HeapOperations.

Ltac walk :=
  unfold bind, ret, throw, try_catch, Reconcile.read,
    Reconcile.getOwnPropertyDescriptor, Reconcile.has_own,
    Reconcile.is_enumerable, Reconcile.on_object, Reconcile.on_object_update,
    Reconcile.write, Reconcile.update, Reconcile.emit;
  cbn beta iota delta [Reconcile.heap Reconcile.log fst snd negb].

(** Closes [keeps_locked h h'] when [h'] comes from [h] by operations on one
    property that is not locked. *)
Ltac confined :=
  match goal with
  | Hkeep : forall h', touches_only _ _ ?h h' -> keeps_locked ?h h'
    |- keeps_locked ?h _ =>
      apply Hkeep;
      repeat match goal with
        | H : put _ _ _ _ = inr _ |- _ => apply put_touches in H
        | H : delete _ _ _ = inr _ |- _ => apply delete_touches in H
        | H : defineEnumerable _ _ _ _ = inr _ |- _ =>
            apply defineEnumerable_touches in H
        | H : call_setter _ _ _ _ = inr _ |- _ =>
            apply call_setter_touches in H
        end;
      eauto using touches_only_refl, touches_only_trans
  end.

Section NeverTouchesLocked.
Import Reconcile.

Lemma grows_refl (s : state) : grows s s.
Proof. split; [ apply keeps_locked_refl | done ]. Qed.

Lemma grows_trans (s1 s2 s3 : state) : grows s1 s2 -> grows s2 s3 -> grows s1 s3.
Proof.
  intros [Ha Hb] [Hc Hd]. split; [ by eapply keeps_locked_trans | by etrans ].
Qed.

Lemma grows_emit (s : state) (h : gmap loc object) (e : event) :
  keeps_locked (heap s) h -> grows s (mkState h (log s ++ [e])).
Proof. intros Hh. split; [ done | by apply prefix_app_r ]. Qed.

Lemma grows_heap (s : state) (h : gmap loc object) :
  keeps_locked (heap s) h -> grows s (mkState h (log s)).
Proof. by split. Qed.

Variable rec : option loc -> option loc -> string -> M unit.
Hypothesis rec_grows : forall o n kp s, grows s (rec o n kp s).2.

Lemma applyKey_grows (o n : option loc) (kp k : string) (s : state) :
  grows s (applyKey rec o n kp k s).2.
Proof.
  destruct s as [h lg].
  destruct n as [n|]; [ | apply grows_refl ].
  destruct o as [l|]; [ | apply grows_refl ].
  unfold applyKey. walk.
  destruct (strict_eq (get h n k) (get h l k)); walk; [ apply grows_refl | ].
  destruct (is_locked (own h l k)) eqn:Hfree; walk.
  { destruct (hasOwnProperty h n k); walk; [ | apply grows_refl ].
    apply (grows_emit (mkState h lg)), keeps_locked_refl. }
  pose proof (fun h' => touches_only_keeps_locked l k h h' Hfree) as Hkeep.
  destruct (propertyIsEnumerable h l k); walk.
  - destruct (hasOwnProperty h n k); walk.
    + destruct (bool_decide (typeof (get h n k) = TObject)); walk;
        [ destruct (bool_decide (typeof (get h l k) = TObject)); walk;
          [ apply rec_grows | ] | ];
        (destruct (put h l k (get h n k)) as [e|h1] eqn:Hput; walk;
         apply (grows_emit (mkState h lg));
         [ apply keeps_locked_refl | by confined ]).
    + destruct (own h l k) as [d|]; walk; [ | apply grows_refl ].
      destruct (truthy (descriptor_value d)); walk.
      * destruct (delete h l k) as [e|h1] eqn:Hdel; walk;
          [ apply grows_refl | ].
        apply (grows_emit (mkState h lg)). by confined.
      * destruct (descriptor_set d); walk;
          try (destruct (call_setter h l k VUndef) as [e|h1] eqn:Hcall; walk;
               [ apply grows_refl | ]);
          match goal with
          | |- context [defineEnumerable ?h0 l k false] =>
              destruct (defineEnumerable h0 l k false) as [e'|h2] eqn:Hdef;
                walk
          end;
          first [ apply (grows_emit (mkState h lg))
                | apply (grows_heap (mkState h lg)) ];
          by confined.
  - destruct (put h l k (get h n k)) as [e|h1] eqn:Hput; walk.
    + apply (grows_emit (mkState h lg)), keeps_locked_refl.
    + destruct (hasOwnProperty h1 l k); walk.
      * destruct (defineEnumerable h1 l k true) as [e|h2] eqn:Hdef; walk;
          first [ apply (grows_emit (mkState h lg))
                | apply (grows_heap (mkState h lg)) ];
          by confined.
      * apply (grows_emit (mkState h lg)). by confined.
Qed.

End NeverTouchesLocked.

Section NeverTouchesLockedWalk.
Import Reconcile.

Lemma forEach_grows (f : string -> M unit) (ks : list string) :
  (forall k s, grows s (f k s).2) -> forall s, grows s (forEach ks f s).2.
Proof.
  intros Hf. induction ks as [|k ks IH]; intros s; [ apply grows_refl | ].
  cbn [forEach]. unfold bind. pose proof (Hf k s) as Hk.
  destruct (f k s) as [[[]|e|] s1]; cbn [snd] in *; [ | done | done ].
  eapply grows_trans; [ exact Hk | apply IH ].
Qed.

Lemma applyChange_grows (fuel : nat) (oldObj newObj : option loc)
  (keyPath : string) (s : state) :
  grows s (applyChange fuel oldObj newObj keyPath s).2.
Proof.
  revert oldObj newObj keyPath s.
  induction fuel as [|fuel IH]; intros o n kp s; [ apply grows_refl | ].
  cbn [applyChange]. apply forEach_grows. intros k s'.
  by apply applyKey_grows.
Qed.

(** X1: on a heap of ordinary objects (no array, and no own key that is the
    name of a member of [Object.prototype]), whatever the operands, the key
    path and the outcome (normal return, exception or recursion cut short),
    [applyChange] leaves every non-configurable property of every object
    exactly as it was, and only appends to the log. *)
Theorem applyChange_never_alters_locked (fuel : nat) (oldObj newObj : option loc)
  (keyPath : string) (s : state) :
  Ordinary.ordinary (heap s) ->
  keeps_locked (heap s) (heap (applyChange fuel oldObj newObj keyPath s).2)
  /\ log s `prefix_of` log (applyChange fuel oldObj newObj keyPath s).2.
Proof.
  intros _. change (grows s (applyChange fuel oldObj newObj keyPath s).2).
  revert oldObj newObj keyPath s.
  induction fuel as [|fuel IH]; intros o n kp s; [ apply grows_refl | ].
  cbn [applyChange]. apply forEach_grows. intros k s'.
  by apply applyKey_grows.
Qed.

End NeverTouchesLockedWalk.

(** ** Reconciliation, call by call *)

Section ReconcileCall.
Import Reconcile.

Lemma forEach_app (f : string -> M unit) (pre ks : list string)
  (s s1 : state) :
  forEach pre f s = (Ok tt, s1) -> forEach (pre ++ ks) f s = forEach ks f s1.
Proof.
  revert s. induction pre as [|k pre IH]; intros s; cbn [forEach app].
  - unfold ret. by intros [= ->].
  - unfold bind. destruct (f k s) as [[[]|e|] s2]; try done. apply IH.
Qed.

(** A call of [applyChange] whose walk has come through the keys [pre] goes
    on with the key that follows them. *)
Lemma applyChange_reaches (fuel : nat) (oldObj newObj : option loc)
  (keyPath : string) (s s1 : state) (pre : list string) (key : string)
  (rest : list string) :
  union_keys (heap s) oldObj newObj = pre ++ key :: rest ->
  forEach pre (applyKey (applyChange fuel) oldObj newObj keyPath) s
  = (Ok tt, s1) ->
  applyChange (S fuel) oldObj newObj keyPath s
  = forEach (key :: rest) (applyKey (applyChange fuel) oldObj newObj keyPath)
            s1.
Proof.
  intros Hkeys Hpre. cbn [applyChange]. rewrite Hkeys. by apply forEach_app.
Qed.

Variables (fuel : nat) (oldObj newObj : loc) (keyPath key : string).
Variables (s : state) (pre rest : list string).
Variables (h : gmap loc object) (lg : list event).

(** C4, amended: in a call of [applyChange] on trees of ordinary objects,
    whose walk over the keys of the level comes through the keys before
    [key] without an exception, and finds [key] locked on [oldObj] while
    [newObj] supplies a value for it other than the one [oldObj] holds: the
    key is reported as locked, the step writes nothing, and the call goes on
    with the remaining keys.  However the call ends, the report is in the
    log and the field is as it was. *)
Theorem locked_key_kept_and_reported :
  Ordinary.ordinary (heap s) ->
  union_keys (heap s) (Some oldObj) (Some newObj) = pre ++ key :: rest ->
  forEach pre (applyKey (applyChange fuel) (Some oldObj) (Some newObj) keyPath)
          s
  = (Ok tt, mkState h lg) ->
  is_locked (own h oldObj key) = true ->
  hasOwnProperty h newObj key = true ->
  get h newObj key ≠ get h oldObj key ->
  let report :=
    LogErr [VStr "Unable to modify locked property:"; VStr key] None in
  applyChange (S fuel) (Some oldObj) (Some newObj) keyPath s
  = forEach rest (applyKey (applyChange fuel) (Some oldObj) (Some newObj)
                           keyPath)
            (mkState h (lg ++ [report]))
  /\ forall r s',
       applyChange (S fuel) (Some oldObj) (Some newObj) keyPath s = (r, s') ->
       report ∈ log s' /\ own (heap s') oldObj key = own h oldObj key.
Proof.
  intros _ Hkeys Hreach Hlock Hown Hneq report.
  assert (applyChange (S fuel) (Some oldObj) (Some newObj) keyPath s
          = forEach rest (applyKey (applyChange fuel) (Some oldObj)
                                   (Some newObj) keyPath)
                    (mkState h (lg ++ [report]))) as Hcall.
  { rewrite (applyChange_reaches _ _ _ _ _ _ _ _ _ Hkeys Hreach).
    by apply locked_key_step. }
  split; [ exact Hcall | ].
  intros r s' Hend. rewrite Hcall in Hend.
  pose proof (forEach_grows
                (applyKey (applyChange fuel) (Some oldObj) (Some newObj)
                          keyPath) rest
                (fun k s0 => applyKey_grows (applyChange fuel)
                               (applyChange_grows fuel) _ _ _ k s0)
                (mkState h (lg ++ [report]))) as [Hkeep Hlog].
  rewrite Hend in Hkeep, Hlog. cbn [snd heap log] in Hkeep, Hlog. split.
  - destruct Hlog as [more ->]. apply elem_of_app. left.
    apply elem_of_app. right. apply list_elem_of_here.
  - destruct (own h oldObj key) as [p|] eqn:Hp; [ | done ].
    apply Hkeep; [ done | ]. cbn in Hlock. by apply negb_true_iff in Hlock.
Qed.

(** C5, amended: in a call of [applyChange] on trees of ordinary objects,
    whose walk comes through the keys before [key] without an exception, and
    finds [key] configurable and enumerable on [oldObj] with a value that is
    not [undefined], and not an own key of [newObj]: the key is removed and
    the call goes on with the remaining keys.  A data property holding a
    truthy value is deleted.  An accessor property gets its setter, when it
    has one that accepts [undefined], called with [undefined], and is then
    made non-enumerable, not deleted.  Both report the removal. *)
Theorem absent_key_removed :
  Ordinary.ordinary (heap s) ->
  union_keys (heap s) (Some oldObj) (Some newObj) = pre ++ key :: rest ->
  forEach pre (applyKey (applyChange fuel) (Some oldObj) (Some newObj) keyPath)
          s
  = (Ok tt, mkState h lg) ->
  get h oldObj key ≠ VUndef ->
  is_locked (own h oldObj key) = false ->
  propertyIsEnumerable h oldObj key = true ->
  hasOwnProperty h newObj key = false ->
  let removed := Log [VStr "Removed property:"; VStr (keyPath +:+ key)] in
  (forall v w e c,
      own h oldObj key = Some (Data v w e c) -> truthy v = true ->
      exists h',
        applyChange (S fuel) (Some oldObj) (Some newObj) keyPath s
        = forEach rest (applyKey (applyChange fuel) (Some oldObj)
                                 (Some newObj) keyPath)
                  (mkState h' (lg ++ [removed]))
        /\ own h' oldObj key = None)
  /\ (forall slot g f e c,
         own h oldObj key = Some (Accessor slot g f e c) ->
         f ≠ RejectSetter ->
         exists h',
           applyChange (S fuel) (Some oldObj) (Some newObj) keyPath s
           = forEach rest (applyKey (applyChange fuel) (Some oldObj)
                                    (Some newObj) keyPath)
                     (mkState h' (lg ++ [removed]))
           /\ own h' oldObj key
              = Some (Accessor (match f with
                                | StoreSetter => VUndef
                                | _ => slot
                                end) g f false c)).
Proof.
  intros _ Hkeys Hreach Hdef Hlock Hvis Habsent removed.
  rewrite (applyChange_reaches _ _ _ _ _ _ _ _ _ Hkeys Hreach).
  destruct (absent_key_step (applyChange fuel) h lg oldObj newObj keyPath key
              Hdef Hlock Hvis Habsent) as [Hdata Hacc].
  split.
  - intros v w e c Hd Hv. destruct (Hdata v w e c Hd Hv) as (h' & Hstep & Hgone).
    exists h'. split; [ | done ]. by apply forEach_continue.
  - intros slot g f e c Hd Hf.
    destruct (Hacc slot g f e c Hd Hf) as (h' & Hstep & Hhid).
    exists h'. split; [ | done ]. by apply forEach_continue.
Qed.

(** C10, amended: in a call of [applyChange] on trees of ordinary objects,
    whose walk comes through the keys before [key] without an exception, and
    finds [key] configurable and
    enumerable on [oldObj], [oldObj[key]] an object with at least one
    enumerable key of its own, and [newObj] owning [key] with the value
    [null]: the step recurses with [null] as the incoming tree; that call
    throws a TypeError before it changes anything and the error ends the
    call, which leaves the state as it was when [key] was reached: the
    remaining keys of the level are not reconciled. *)
Theorem null_against_object_throws (child : loc) :
  Ordinary.ordinary (heap s) ->
  union_keys (heap s) (Some oldObj) (Some newObj) = pre ++ key :: rest ->
  forEach pre (applyKey (applyChange (S fuel)) (Some oldObj) (Some newObj)
                        keyPath) s
  = (Ok tt, mkState h lg) ->
  is_locked (own h oldObj key) = false ->
  propertyIsEnumerable h oldObj key = true ->
  hasOwnProperty h newObj key = true ->
  get h oldObj key = VObj child ->
  get h newObj key = VNull ->
  enumerable_keys (obj_at h child) ≠ [] ->
  (forall rec0,
      applyKey rec0 (Some oldObj) (Some newObj) keyPath key (mkState h lg)
      = rec0 (Some child) None (key +:+ "/") (mkState h lg))
  /\ applyChange (S (S fuel)) (Some oldObj) (Some newObj) keyPath s
     = (Throw TypeError_nullish, mkState h lg)
  /\ is_TypeError TypeError_nullish = true.
Proof.
  intros _ Hkeys Hreach Hlock Hvis Hown Hold Hnew Hchild.
  destruct (null_leaf_step h lg oldObj newObj keyPath key fuel child rest
              Hlock Hvis Hown Hold Hnew Hchild) as (Hrec & _ & Hwalk & Herr).
  split; [ exact Hrec | split; [ | exact Herr ] ].
  by rewrite (applyChange_reaches _ _ _ _ _ _ _ _ _ Hkeys Hreach).
Qed.

End ReconcileCall.

Section ReconcileCallScenarios.
Import Reconcile.

Lemma locked_key_kept_and_reported_witness :
  let report :=
    LogErr [VStr "Unable to modify locked property:"; VStr "x"] None in
  applyChange 2 (Some 1) (Some 2) "" (mkState (mixed_heap 1) [])
  = forEach ["y"] (applyKey (applyChange 1) (Some 1) (Some 2) "")
            (mkState (mixed_heap 2)
               ([Log [VStr "Updated property 'w' to:"; VNum 2]] ++ [report]))
  /\ forall r s',
       applyChange 2 (Some 1) (Some 2) "" (mkState (mixed_heap 1) [])
       = (r, s') ->
       report ∈ log s' /\ own (heap s') 1 "x" = own (mixed_heap 2) 1 "x".
Proof.
  apply (locked_key_kept_and_reported 1 1 2 "" "x" (mkState (mixed_heap 1) [])
           ["w"] ["y"] (mixed_heap 2)
           [Log [VStr "Updated property 'w' to:"; VNum 2]]).
  - apply ordinary_heap_of. repeat constructor.
  - vm_compute. reflexivity.
  - vm_compute. reflexivity.
  - reflexivity.
  - reflexivity.
  - vm_compute. discriminate.
Defined.

(** C4 as stated fails: [x] is locked on [previous] and [incoming] supplies
    another value for it, but the key [a] comes first, with an object on one
    side and [null] on the other: the call ends there with a TypeError, no
    failure is reported for [x] and no further key is reconciled. *)
Lemma locked_key_not_reached_not_reported :
  is_locked (own null_first_heap 1 "x") = true
  /\ hasOwnProperty null_first_heap 2 "x" = true
  /\ get null_first_heap 2 "x" ≠ get null_first_heap 1 "x"
  /\ applyChange 2 (Some 1) (Some 2) "" (mkState null_first_heap [])
     = (Throw TypeError_nullish, mkState null_first_heap []).
Proof.
  split; [reflexivity | split; [reflexivity | split] ].
  - vm_compute. discriminate.
  - vm_compute. reflexivity.
Qed.

Lemma absent_key_removed_witness :
  (exists h',
      applyChange 2 (Some 1) (Some 2) "" (mkState (mixed_heap 1) [])
      = forEach [] (applyKey (applyChange 1) (Some 1) (Some 2) "")
          (mkState h'
             ([Log [VStr "Updated property 'w' to:"; VNum 2];
               LogErr [VStr "Unable to modify locked property:"; VStr "x"]
                      None]
              ++ [Log [VStr "Removed property:"; VStr ("" +:+ "y")]]))
      /\ own h' 1 "y" = None)
  /\ (exists h',
         applyChange 2 (Some 1) (Some 2) "" (mkState (accessor_heap 1) [])
         = forEach [] (applyKey (applyChange 1) (Some 1) (Some 2) "")
             (mkState h'
                ([Log [VStr "Updated property 'w' to:"; VNum 2]]
                 ++ [Log [VStr "Removed property:"; VStr ("" +:+ "y")]]))
         /\ own h' 1 "y"
            = Some (Accessor (match StoreSetter with
                              | StoreSetter => VUndef
                              | _ => VNum 1
                              end) true StoreSetter false true)).
Proof.
  split.
  - refine (proj1 (absent_key_removed 1 1 2 "" "y" (mkState (mixed_heap 1) [])
                     ["w"; "x"] [] (mixed_heap 2)
                     [Log [VStr "Updated property 'w' to:"; VNum 2];
                      LogErr [VStr "Unable to modify locked property:";
                              VStr "x"] None] _ _ _ _ _ _ _)
                  (VNum 1) true true true _ _).
    + apply ordinary_heap_of. repeat constructor.
    + vm_compute. reflexivity.
    + vm_compute. reflexivity.
    + vm_compute. discriminate.
    + reflexivity.
    + reflexivity.
    + reflexivity.
    + reflexivity.
    + reflexivity.
  - refine (proj2 (absent_key_removed 1 1 2 "" "y"
                     (mkState (accessor_heap 1) []) ["w"] [] (accessor_heap 2)
                     [Log [VStr "Updated property 'w' to:"; VNum 2]]
                     _ _ _ _ _ _ _)
                  (VNum 1) true StoreSetter true true _ _).
    + apply ordinary_heap_of. repeat constructor.
    + vm_compute. reflexivity.
    + vm_compute. reflexivity.
    + vm_compute. discriminate.
    + reflexivity.
    + reflexivity.
    + reflexivity.
    + reflexivity.
    + discriminate.
Defined.

Lemma null_against_object_throws_witness :
  (forall rec0,
      applyKey rec0 (Some 1) (Some 2) "" "a"
        (mkState (null_later_heap 2)
                 [Log [VStr "Updated property 'w' to:"; VNum 2]])
      = rec0 (Some 3) None ("a" +:+ "/")
          (mkState (null_later_heap 2)
                   [Log [VStr "Updated property 'w' to:"; VNum 2]]))
  /\ applyChange 2 (Some 1) (Some 2) "" (mkState (null_later_heap 1) [])
     = (Throw TypeError_nullish,
        mkState (null_later_heap 2)
                [Log [VStr "Updated property 'w' to:"; VNum 2]])
  /\ is_TypeError TypeError_nullish = true.
Proof.
  apply (null_against_object_throws 0 1 2 "" "a"
           (mkState (null_later_heap 1) []) ["w"] ["z"] (null_later_heap 2)
           [Log [VStr "Updated property 'w' to:"; VNum 2]] 3).
  - apply ordinary_heap_of. repeat constructor.
  - vm_compute. reflexivity.
  - vm_compute. reflexivity.
  - reflexivity.
  - reflexivity.
  - reflexivity.
  - reflexivity.
  - reflexivity.
  - vm_compute. discriminate.
Defined.

(** An exception at an earlier key ends the call before the later keys are
    looked at.  With [previous = {q, r: 1, a: {k: 1}}], [q] an accessor
    whose setter throws, and [incoming = {a: null}], the removal of [q]
    calls the setter outside any [try]: what it throws, not a TypeError,
    reaches the caller; [r] is not removed and [a] is not recursed into. *)
Example rejecting_setter_ends_the_call :
  applyChange 2 (Some 1) (Some 2) "" (mkState rejecting_heap [])
  = (Throw SetterRejected, mkState rejecting_heap [])
  /\ is_TypeError SetterRejected = false.
Proof. split; [ vm_compute; reflexivity | reflexivity ]. Qed.

Lemma applyChange_never_alters_locked_witness :
  keeps_locked (heap (mkState (mixed_heap 1) []))
    (heap (applyChange 2 (Some 1) (Some 2) "" (mkState (mixed_heap 1) [])).2)
  /\ log (mkState (mixed_heap 1) [])
     `prefix_of`
     log (applyChange 2 (Some 1) (Some 2) "" (mkState (mixed_heap 1) [])).2.
Proof.
  apply (applyChange_never_alters_locked 2 (Some 1) (Some 2) ""
           (mkState (mixed_heap 1) [])).
  apply ordinary_heap_of. repeat constructor.
Defined.

End ReconcileCallScenarios.

(** ** One level of plain fields is brought in line with the diff *)

Section FlatSync.
Import Reconcile.

Variable rec : option loc -> option loc -> string -> M unit.
Variables (h0 : gmap loc object) (l n : loc) (kp : string).
Hypothesis apart : l ≠ n.
Hypothesis flat_new : flat (obj_at h0 n).

Local Ltac look :=
  repeat (progress
    (walk; unfold get, own, hasOwnProperty, propertyIsEnumerable;
     repeat match goal with
       | H : obj_at _ _ = obj_at _ _ |- _ => rewrite H
       | H : assoc _ _ = _ |- _ => rewrite H
       end;
     cbn [prop_read plain is_locked prop_configurable prop_enumerable negb])).

Lemma applyKey_flat (k : string) (s : state) :
  sync_inv h0 l n s ->
  exists s',
    applyKey rec (Some l) (Some n) kp k s = (Ok tt, s')
    /\ sync_inv h0 l n s'
    /\ get (heap s') l k = get h0 n k
    /\ (forall k', k' ≠ k -> own (heap s') l k' = own (heap s) l k').
Proof.
  destruct s as [h lg]. intros [Hframe Hplain]. cbn [heap] in *.
  assert (obj_at h n = obj_at h0 n) as Hn by (apply Hframe; congruence).
  unfold applyKey.
  destruct (assoc k (obj_at h l)) as [p|] eqn:Hl;
    [ destruct (Hplain _ _ Hl) as (ov & -> & Hov) | ];
    (destruct (assoc k (obj_at h0 n)) as [q|] eqn:Hq;
     [ destruct (flat_new _ _ Hq) as (nv & -> & Hnv) | ]);
    look; unfold strict_eq.
  - case_bool_decide as Hsame; look.
    + eexists. split; [ reflexivity | ]. unfold sync_inv. cbn [heap].
      repeat split; try done. look. by rewrite Hsame.
    + rewrite (bool_decide_true (is_Some (Some (plain nv)))) by (by eexists).
      look.
      rewrite (bool_decide_false (typeof nv = TObject)) by done. look.
      unfold put. look.
      eexists. split; [ reflexivity | ]. unfold sync_inv. cbn [heap]. split; [ split | split ].
      * intros l' Hl'. by rewrite obj_at_insert_ne, Hframe.
      * rewrite obj_at_insert. intros k' p'.
        destruct (decide (k' = k)) as [->|Hk'].
        -- rewrite assoc_set_eq. intros [= <-]. exists nv. split; [done|].
           left. by rewrite Hq.
        -- rewrite assoc_set_ne by done. apply Hplain.
      * rewrite ?obj_at_insert, ?assoc_set_eq. by look.
      * intros k' Hk'. unfold own. by rewrite obj_at_insert, assoc_set_ne.
  - case_bool_decide as Hsame; look.
    + eexists. split; [ reflexivity | ]. unfold sync_inv. cbn [heap].
      repeat split; try done. look. by rewrite Hsame.
    + rewrite (bool_decide_false (is_Some None)) by (by intros [? ?]). look.
      destruct Hov as [[? Hsome] | Hov]; [ done | ].
      cbn [descriptor_value plain]. rewrite Hov. look.
      unfold delete. look.
      eexists. split; [ reflexivity | ]. unfold sync_inv. cbn [heap]. split; [ split | split ].
      * intros l' Hl'. by rewrite obj_at_insert_ne, Hframe.
      * rewrite obj_at_insert. intros k' p'.
        destruct (decide (k' = k)) as [->|Hk'].
        -- by rewrite assoc_del_eq.
        -- rewrite assoc_del_ne by done. apply Hplain.
      * rewrite ?obj_at_insert, ?assoc_del_eq. by look.
      * intros k' Hk'. unfold own. by rewrite obj_at_insert, assoc_del_ne.
  - case_bool_decide as Hsame; look.
    + eexists. split; [ reflexivity | ]. unfold sync_inv. cbn [heap].
      repeat split; try done. look. by rewrite Hsame.
    + unfold put. look. rewrite obj_at_insert, assoc_set_eq.
      rewrite (bool_decide_true (is_Some _)) by (by eexists). look.
      unfold defineEnumerable. rewrite obj_at_insert, assoc_set_eq.
      cbn [prop_configurable prop_set_enumerable]. look.
      eexists. split; [ reflexivity | ]. unfold sync_inv. cbn [heap]. split; [ split | split ].
      * intros l' Hl'. by rewrite !obj_at_insert_ne, Hframe.
      * rewrite obj_at_insert. intros k' p'.
        destruct (decide (k' = k)) as [->|Hk'].
        -- rewrite assoc_set_eq. intros [= <-]. exists nv. split; [done|].
           left. by rewrite Hq.
        -- rewrite !assoc_set_ne by done. apply Hplain.
      * rewrite ?obj_at_insert, ?assoc_set_eq. by look.
      * intros k' Hk'. unfold own. by rewrite obj_at_insert, !assoc_set_ne.
  - rewrite bool_decide_true by done.
    eexists. split; [ reflexivity | ]. unfold sync_inv. cbn [heap].
    repeat split; try done. by look.
Qed.

End FlatSync.

Section ForEachEstablishes.
Import Reconcile.

Variables (f : string -> M unit) (I : state -> Prop).
Variable Q : string -> state -> Prop.

(** If the step for a key keeps [I], makes [Q] true of that key and keeps
    [Q] of the other keys, the walk ends with [Q] true of every key it was
    true of before and of every key walked. *)
Lemma forEach_establishes (ks : list string) :
  (forall k s, I s ->
     exists s', f k s = (Ok tt, s') /\ I s' /\ Q k s'
                /\ (forall k', k' ≠ k -> Q k' s -> Q k' s')) ->
  forall s, I s ->
    exists s', forEach ks f s = (Ok tt, s') /\ I s'
               /\ (forall k, k ∈ ks \/ Q k s -> Q k s').
Proof.
  intros Hstep. induction ks as [|k ks IH]; intros s Hs.
  - exists s. repeat split; [ done | ]. intros k [Hin | Hq]; [ | done ].
    by apply elem_of_nil in Hin.
  - destruct (Hstep k s Hs) as (s1 & Hk & Hs1 & Hqk & Hkeep).
    destruct (IH s1 Hs1) as (s2 & Hks & Hs2 & Hq2).
    exists s2. split; [ by rewrite (forEach_continue _ _ _ _ _ Hk) | ].
    split; [ done | ]. intros k' Hk'. apply Hq2.
    destruct (decide (k' = k)) as [->|Hne]; [ by right | ].
    destruct Hk' as [Hin | Hq].
    + apply elem_of_cons in Hin as [? | Hin]; [ done | by left ].
    + right. by apply Hkeep.
Qed.

End ForEachEstablishes.

Lemma elem_of_enumerable_keys (o : object) (k : string) (p : prop) :
  assoc k o = Some p -> prop_enumerable p = true -> k ∈ enumerable_keys o.
Proof.
  intros Hk He. unfold enumerable_keys. apply elem_of_key_order.
  unfold object in *.
  induction o as [|[k' p'] o IH]; [ done | ]. cbn in Hk.
  rewrite filter_cons. case_bool_decide as Hsame.
  - simplify_eq. cbn [snd]. rewrite decide_True by done. apply list_elem_of_here.
  - destruct (decide _); [ apply list_elem_of_further | ]; by apply IH.
Qed.

Lemma elem_of_union_keys_old (h : gmap loc object) (l : loc) (o : option loc)
  (k : string) :
  k ∈ enumerable_keys (obj_at h l) ->
  k ∈ Reconcile.union_keys h (Some l) o.
Proof.
  intros Hin. unfold Reconcile.union_keys.
  apply elem_of_key_order, elem_of_dedup, elem_of_app. by left.
Qed.

Section FlatSyncWalk.
Import Reconcile.


End FlatSyncWalk.

(** ** The assigning branches of a step *)

Lemma put_readable (h : gmap loc object) (l : loc) (k : string) (v : value) :
  assignable (own h l k) = true ->
  exists h',
    put h l k v = inr h'
    /\ touches_only l k h h'
    /\ is_locked (own h' l k) = is_locked (own h l k)
    /\ is_Some (own h' l k)
    /\ (propertyIsEnumerable h l k = true -> propertyIsEnumerable h' l k = true)
    /\ (readable (own h l k) = true ->
        get h' l k = v /\ readable (own h' l k) = true).
Proof.
  unfold put, get, propertyIsEnumerable, own. intros Hput.
  destruct (assoc k (obj_at h l)) as [[x [] e c | slot g [] e c]|] eqn:Hk;
    try done;
    (eexists; split; [ reflexivity | ]; split;
     [ apply touches_only_insert_set | ]);
    rewrite obj_at_insert, assoc_set_eq; cbn;
    (split_and!; [ done | by eexists | done | by intros -> || done ]).
Qed.

Lemma put_refused (h : gmap loc object) (l : loc) (k : string) (v : value) :
  assignable (own h l k) = false -> put h l k v = inl (put_error (own h l k)).
Proof.
  unfold put, own. intros Hput.
  by destruct (assoc k (obj_at h l)) as [[x [] e c | slot g [] e c]|].
Qed.

Lemma make_visible (h : gmap loc object) (l : loc) (k : string) :
  is_locked (own h l k) = false ->
  is_Some (own h l k) ->
  exists h',
    defineEnumerable h l k true = inr h'
    /\ touches_only l k h h'
    /\ propertyIsEnumerable h' l k = true
    /\ get h' l k = get h l k.
Proof.
  unfold defineEnumerable, get, propertyIsEnumerable, own.
  intros Hfree [p Hp]. rewrite Hp in *. cbn in Hfree.
  apply negb_false_iff in Hfree. rewrite Hfree.
  eexists. split; [ reflexivity | ]. split; [ apply touches_only_insert_set | ].
  rewrite obj_at_insert, assoc_set_eq. by destruct p as [? ? ? ?|? [] ? ? ?].
Qed.

Section AssigningBranches.
Import Reconcile.

Variable rec : option loc -> option loc -> string -> M unit.
Variables (h : gmap loc object) (lg : list event).
Variables (oldObj newObj : loc) (keyPath key : string).

Let step := applyKey rec (Some oldObj) (Some newObj) keyPath key.

Lemma differ_apart :
  get h newObj key ≠ get h oldObj key -> newObj ≠ oldObj.
Proof. intros Hne Heq. by rewrite Heq in Hne. Qed.

(** X3: a key that [oldObj] lacks or holds hidden, that is not locked and can
    be assigned, and whose value in [newObj] differs, is assigned the value
    of [newObj], made enumerable, and reported as added under its full key
    path; nothing else in the heap changes.  [oldObj] is not an array (where
    a new index changes [length] too), and neither the key nor an own key of
    [oldObj] is the name of a member of [Object.prototype] (an assignment to
    [__proto__] adds no property). *)
Theorem hidden_or_absent_key_added :
  Ordinary.array_like (obj_at h oldObj) = false ->
  Ordinary.own_names (obj_at h oldObj) = true ->
  Inherited.inherited key = false ->
  get h newObj key ≠ get h oldObj key ->
  is_locked (own h oldObj key) = false ->
  propertyIsEnumerable h oldObj key = false ->
  assignable (own h oldObj key) = true ->
  exists h',
    step (mkState h lg)
    = (Ok tt,
       mkState h'
         (lg ++ [Log [VStr ("Added property '" +:+ keyPath +:+ key
                            +:+ "' with value:");
                      get h newObj key]]))
    /\ propertyIsEnumerable h' oldObj key = true
    /\ (readable (own h oldObj key) = true ->
        get h' oldObj key = get h newObj key)
    /\ touches_only oldObj key h h'.
Proof.
  intros _ _ _ Hne Hfree Hhidden Hput.
  pose proof (differ_apart Hne) as Hapart.
  destruct (put_readable h oldObj key (get h newObj key) Hput)
    as (h1 & Hh1 & Ht1 & Hl1 & Hs1 & _ & Hr1).
  rewrite Hfree in Hl1.
  destruct (make_visible h1 oldObj key Hl1 Hs1) as (h2 & Hh2 & Ht2 & Hv2 & Hg2).
  assert (get h2 newObj key = get h newObj key) as Hnew.
  { unfold get, own. destruct Ht2 as [-> _]; [ | done ].
    by destruct Ht1 as [-> _]. }
  exists h2. split; [ | split; [ done | split ] ].
  - unfold step, applyKey. walk. rewrite (strict_eq_false _ _ Hne). walk.
    rewrite Hfree. walk. rewrite Hhidden. walk. rewrite Hh1. walk.
    unfold hasOwnProperty. rewrite (bool_decide_true _ Hs1). walk.
    rewrite Hh2. walk. by rewrite Hnew.
  - intros Hr. rewrite Hg2. by apply Hr1.
  - by eapply touches_only_trans.
Qed.



End AssigningBranches.

(** ** A [null] target *)

Section NullTarget.
Import Reconcile.

Lemma applyChange_null_target (fuel : nat) (n : loc) (kp : string) (s : state) :
  applyChange (S fuel) None (Some n) kp s
  = (if bool_decide (enumerable_keys (obj_at (heap s) n) = [])
     then Ok tt else Throw TypeError_nullish, s).
Proof.
  cbn [applyChange]. unfold union_keys. cbn [own_enumerable_keys app].
  case_bool_decide as Hkeys.
  - by rewrite Hkeys.
  - destruct (key_order (dedup (enumerable_keys (obj_at (heap s) n))))
      as [|k ks] eqn:Hks.
    { by destruct (key_order_nonempty _ (dedup_nonempty _ Hkeys)). }
    by apply forEach_abort.
Qed.


End NullTarget.

(** ** The reconciler on concrete trees *)

Section ReconcileScenarios.
Import Reconcile Scenarios.


Lemma hidden_or_absent_key_added_witness :
  exists h',
    applyKey (applyChange 1) (Some 2) (Some 1) "" "y" (mkState plain_y_heap [])
    = (Ok tt,
       mkState h' ([] ++ [Log [VStr ("Added property '" +:+ "" +:+ "y"
                                     +:+ "' with value:");
                               get plain_y_heap 1 "y"]]))
    /\ propertyIsEnumerable h' 2 "y" = true
    /\ (readable (own plain_y_heap 2 "y") = true ->
        get h' 2 "y" = get plain_y_heap 1 "y")
    /\ touches_only 2 "y" plain_y_heap h'.
Proof.
  apply (hidden_or_absent_key_added (applyChange 1) plain_y_heap [] 2 1 "" "y").
  - reflexivity.
  - reflexivity.
  - reflexivity.
  - vm_compute. discriminate.
  - reflexivity.
  - reflexivity.
  - reflexivity.
Defined.




End ReconcileScenarios.

(** * Further properties of the observed tree *)

(** ** Plain objects *)

Section PlainObjects.
Import Turn.

Lemma plain_object_set (o : object) (k : string) (v : value) :
  plain_object o -> plain_object (assoc_set k (plain v) o).
Proof.
  intros Ho k' p. destruct (decide (k = k')) as [->|Hk].
  - rewrite assoc_set_eq. intros [= <-]. by eexists.
  - rewrite assoc_set_ne by done. apply Ho.
Qed.

Lemma plain_object_del (o : object) (k : string) :
  plain_object o -> plain_object (assoc_del k o).
Proof.
  intros Ho k' p. destruct (decide (k = k')) as [->|Hk].
  - by rewrite assoc_del_eq.
  - rewrite assoc_del_ne by done. apply Ho.
Qed.

Lemma put_plain (h : gmap loc object) (l : loc) (k : string) (v : value) :
  plain_object (obj_at h l) ->
  put h l k v = inr (<[l := assoc_set k (plain v) (obj_at h l)]> h).
Proof.
  intros Ho. unfold put.
  destruct (assoc k (obj_at h l)) as [p|] eqn:Hk; [ | done ].
  by destruct (Ho _ _ Hk) as (x & ->).
Qed.

Lemma delete_plain (h : gmap loc object) (l : loc) (k : string) :
  plain_object (obj_at h l) ->
  exists h',
    delete h l k = inr h'
    /\ own h' l k = None
    /\ plain_object (obj_at h' l)
    /\ (forall l', l' ≠ l -> obj_at h' l' = obj_at h l')
    /\ (forall k', k' ≠ k -> own h' l k' = own h l k').
Proof.
  intros Ho. destruct (delete_unlocked h l k) as (h' & Hdel & Hgone & Hl & Hk).
  { unfold own. destruct (assoc k (obj_at h l)) as [p|] eqn:Hp; [ | done ].
    by destruct (Ho _ _ Hp) as (x & ->). }
  exists h'. repeat split; try done.
  intros k' p. destruct (decide (k' = k)) as [->|Hne].
  - unfold own in Hgone. by rewrite Hgone.
  - specialize (Hk k' Hne). unfold own in Hk. rewrite Hk. apply Ho.
Qed.

End PlainObjects.

(** ** One statement on the observed value *)

Section TopLevelStatement.
Import Observer Turn.

Variables (S agg : loc).

Lemma run_stmt_top (k : string) (c : change) (s : state) :
  ready S agg s ->
  exists s', run_stmt (k, c) s = (Ok tt, s') /\ stmt_post S agg k c s s'.
Proof.
  destruct s as [h nx nd nn [w ck cs ct] pe cl [bh bk bs bg bset be]].
  intros [Hg Hs Hst Hpx Hne HS Hagg]. cbn in Hg, Hs, HS, Hagg. subst bg bs.
  unfold node_at in Hst, Hpx. cbn [nodes] in Hst, Hpx.
  destruct (nd !! top) as [[tp tc tm ts]|] eqn:Hnd; [ | done ].
  cbn in Hst, Hpx. subst ts.
  pose proof (put_plain h agg k (diff_value c) Hagg) as Hput1.
  set (h1 := <[agg := assoc_set k (plain (diff_value c)) (obj_at h agg)]> h)
    in *.
  assert (plain_object (obj_at h1 S)) as HS1.
  { unfold h1. by rewrite obj_at_insert_ne. }
  assert (exists h2,
            match c with
            | Put v => put h1 S k v
            | Del => delete h1 S k
            end = inr h2
            /\ get h2 S k = kept_value c
            /\ plain_object (obj_at h2 S)
            /\ (forall l', l' ≠ S -> obj_at h2 l' = obj_at h1 l')
            /\ (forall k', k' ≠ k -> own h2 S k' = own h1 S k'))
    as (h2 & Hput2 & Hnow & HS2 & Hframe & Hkeys).
  { destruct c as [v|].
    - rewrite put_plain by done. eexists. split; [ reflexivity | ].
      split; [ by rewrite get_insert, assoc_set_eq | ].
      split; [ rewrite obj_at_insert; by apply plain_object_set | ].
      split.
      + intros l' Hl'. by rewrite obj_at_insert_ne.
      + intros k' Hk'. by rewrite own_insert, assoc_set_ne.
    - destruct (delete_plain h1 S k HS1) as (h2 & Hdel & Hgone & Hp & Hl & Hk).
      exists h2. repeat split; try done. unfold get. by rewrite Hgone. }
  assert (run_stmt (k, c)
            (mkState h nx nd nn (mkCb w ck cs ct) pe cl
                     (mkBinding bh bk (VObj S) true bset be))
          = (Ok tt,
             mkState h2 nx
               (<[top := mkNode None
                           (match tp with None => Some ∅ | Some _ => tc end)
                           tm (VObj agg)]> nd)
               nn (mkCb true ck cs ct)
               (if w then pe else Datatypes.S pe) cl
               (mkBinding bh bk (VObj S) true bset be))) as Hrun.
  { unfold run_stmt. cbn [fst snd].
    destruct c as [v|]; cbn [diff_value] in *;
      destruct Hpx as [-> | ->], w;
      repeat (progress (obs_unfold; obs_norm; rewrite ?Hnd, ?Hput1, ?Hput2));
      reflexivity. }
  eexists. split; [ exact Hrun | ].
  unfold stmt_post. cbn [heap calls cb cb_wait pending next].
  split; [ | repeat split; try done ].
  - split; cbn [bound b_getter b_slot heap]; try done.
    + unfold node_at. cbn [nodes]. by rewrite lookup_insert_eq.
    + left. unfold node_at. cbn [nodes]. by rewrite lookup_insert_eq.
    + rewrite Hframe by done. unfold h1. rewrite obj_at_insert.
      by apply plain_object_set.
  - unfold own. rewrite Hframe by done. unfold h1.
    by rewrite obj_at_insert, assoc_set_eq.
  - intros k' Hk'. unfold own. rewrite Hframe by done. unfold h1.
    by rewrite obj_at_insert, assoc_set_ne.
  - intros k' Hk'. rewrite Hkeys by done. unfold own, h1.
    by rewrite obj_at_insert_ne.
  - intros l Hl Hl'. rewrite Hframe by done. unfold h1.
    by rewrite obj_at_insert_ne.
Qed.

End TopLevelStatement.

(** ** A turn of statements on the observed value *)

Section TopLevelTurn.
Import Observer Turn.

Variables (S agg : loc).

Lemma run_stmts_top (cs : list (string * change)) (s : state) :
  ready S agg s ->
  exists s',
    run_stmts cs s = (Ok tt, s')
    /\ ready S agg s'
    /\ calls s' = calls s
    /\ next s' = next s
    /\ cb_wait (cb s') = (cb_wait (cb s) || negb (bool_decide (cs = [])))
    /\ pending s' = (if cb_wait (cb s) || bool_decide (cs = [])
                     then pending s else Datatypes.S (pending s))
    /\ (forall k,
          own (heap s') agg k
          = match last_change cs k with
            | Some c => Some (plain (diff_value c))
            | None => own (heap s) agg k
            end)
    /\ (forall k,
          get (heap s') S k
          = match last_change cs k with
            | Some c => kept_value c
            | None => get (heap s) S k
            end)
    /\ (forall l, l ≠ S -> l ≠ agg -> obj_at (heap s') l = obj_at (heap s) l).
Proof.
  revert s. induction cs as [|[k c] cs IH]; intros s Hs.
  - exists s. rewrite (bool_decide_true ([] = [])) by done. cbn [negb].
    rewrite orb_false_r, orb_true_r. by split_and!.
  - destruct (run_stmt_top S agg k c s Hs)
      as (s1 & Hrun1 & Hs1 & Hc1 & Hw1 & Hp1 & Hn1 & Ha1 & Ha1' & Ht1 & Ht1'
          & Hf1).
    destruct (IH s1 Hs1)
      as (s2 & Hrun2 & Hs2 & Hc2 & Hn2 & Hw2 & Hp2 & Ha2 & Ht2 & Hf2).
    clear IH. exists s2. cbn [run_stmts]. unfold bind at 1. rewrite Hrun1.
    split; [ done | ]. split; [ done | ]. split; [ congruence | ].
    split; [ congruence | ].
    rewrite (bool_decide_false (_ :: _ = [])) by done.
    rewrite Hw1 in Hw2, Hp2. cbn in Hw2, Hp2.
    rewrite orb_true_r, orb_false_r.
    split; [ done | ]. split; [ congruence | ].
    split; [ | split ].
    + intros k0. rewrite Ha2. cbn [last_change].
      destruct (last_change cs k0); [ done | ].
      case_bool_decide as Hk; [ subst; exact Ha1 | by apply Ha1' ].
    + intros k0. rewrite Ht2. cbn [last_change].
      destruct (last_change cs k0); [ done | ].
      case_bool_decide as Hk; [ subst; exact Ht1 | ].
      unfold get. by rewrite Ht1'.
    + intros l Hl Hl'. by rewrite Hf2, Hf1.
Qed.


End TopLevelTurn.

Section TopLevelTurnScenario.
Import Observer Turn TurnScenarios.

Lemma tree_state_ready : ready 2 10 tree_state.
Proof.
  split; try reflexivity.
  - by left.
  - done.
  - intros k p.
    change (obj_at (heap tree_state) 2)
      with [("a", plain (VObj 3)); ("count", plain (VNum 0))].
    cbn [assoc]. repeat case_bool_decide; intros [= <-]; by eexists.
  - intros k p. by change (obj_at (heap tree_state) 10) with ([] : object).
Qed.


End TopLevelTurnScenario.

(** ** Reads are silent, changes are deferred *)

Section Silence.
Import Observer Sched.

Lemma quiet_refl (s : state) : quiet s s.
Proof. by repeat split. Qed.

Lemma quiet_trans (s1 s2 s3 : state) : quiet s1 s2 -> quiet s2 s3 -> quiet s1 s3.
Proof. intros (? & ? & ?) (? & ? & ?). repeat split; congruence. Qed.

Lemma quiet_noted (s1 s2 s3 : state) : quiet s1 s2 -> noted s2 s3 -> noted s1 s3.
Proof.
  intros (Hc & Hp & Hw) (? & ? & Hp'). rewrite Hw, Hp in Hp'.
  repeat split; congruence.
Qed.

Lemma noted_quiet (s1 s2 s3 : state) : noted s1 s2 -> quiet s2 s3 -> noted s1 s3.
Proof. intros (? & ? & ?) (? & ? & ?). repeat split; congruence. Qed.

Lemma silent_bind {A B} (m : M A) (k : A -> M B) :
  silent m -> (forall a, silent (k a)) -> silent (bind m k).
Proof.
  intros Hm Hk s. unfold bind. pose proof (Hm s) as Hs.
  destruct (m s) as [[a|e|] s1]; cbn [snd] in *; try done.
  eapply quiet_trans; [ exact Hs | apply Hk ].
Qed.

Lemma silent_ret {A} (a : A) : silent (ret a : M A).
Proof. intros s. apply quiet_refl. Qed.

Lemma silent_throw {A} (e : exn) : silent (throw e : M A).
Proof. intros s. apply quiet_refl. Qed.

Lemma silent_gets {A} (f : state -> A) : silent (gets f).
Proof. intros s. apply quiet_refl. Qed.

Lemma silent_this (n : nat) : silent (this n).
Proof. intros s. apply quiet_refl. Qed.

Lemma silent_set_node (n : nat) (f : node -> node) : silent (set_node n f).
Proof. by intros s. Qed.

Lemma silent_new_node : silent new_node.
Proof. by intros s. Qed.

Lemma silent_new_object : silent new_object.
Proof. by intros s. Qed.

Lemma silent_heap_update f : silent (heap_update f).
Proof. intros s. unfold heap_update. by destruct (f (heap s)). Qed.

Lemma silent_read_value (b : value) (k : string) : silent (read_value b k).
Proof.
  destruct b; cbn [read_value]; try apply silent_ret; try apply silent_throw;
    try apply silent_gets.
  destruct (array_index k); apply silent_ret.
Qed.

Lemma silent_write_value (b : value) (k : string) (v : value) :
  silent (write_value b k v).
Proof.
  destruct b; cbn [write_value]; try apply silent_throw.
  apply silent_heap_update.
Qed.

Lemma silent_set_key (key : string) (st tmp : value) :
  silent (modify (with_cb (fun c => mkCb (cb_wait c) key st tmp))).
Proof. by intros s. Qed.

End Silence.

Section SilentReads.
Import Observer Sched.

Ltac silence :=
  repeat first
    [ apply silent_ret | apply silent_throw | apply silent_gets
    | apply silent_this | apply silent_set_node | apply silent_new_node
    | apply silent_new_object | apply silent_heap_update
    | apply silent_read_value | apply silent_write_value
    | apply silent_set_key
    | apply silent_bind; [ | intros ? ]
    | match goal with
      | |- silent (match ?x with _ => _ end) => destruct x
      | |- silent (if ?x then _ else _) => destruct x
      end ].

Lemma silent_getProxy (self : nat) (obj : loc) : silent (getProxy self obj).
Proof. unfold getProxy. silence. Qed.

Lemma silent_topGetter (self : nat) (v : value) : silent (topGetter self v).
Proof. unfold topGetter. silence; try apply silent_getProxy. Qed.

Lemma silent_host_get : silent host_get.
Proof. unfold host_get. silence; try apply silent_topGetter. Qed.

Lemma silent_get_trap (self : nat) (target : loc) (key : string) :
  silent (get_trap self target key).
Proof. unfold get_trap. silence; try apply silent_getProxy. Qed.

Lemma silent_ref_get (r : ref) (key : string) : silent (ref_get r key).
Proof. destruct r; cbn [ref_get]; silence; try apply silent_get_trap. Qed.

Lemma silent_ref_path (path : list string) (r : ref) : silent (ref_path r path).
Proof.
  revert r. induction path as [|k path IH]; intros r; cbn [ref_path].
  - apply silent_ret.
  - apply silent_bind; [ apply silent_ref_get | intros r'; apply IH ].
Qed.

Lemma silent_navigate (path : list string) : silent (navigate path).
Proof.
  unfold navigate.
  apply silent_bind; [ apply silent_host_get | intros r; apply silent_ref_path ].
Qed.

(** X8: reading the bound property, and any path of keys below it, never
    calls the callback, never queues a tick and never touches the wait
    flag, whether the read returns or throws. *)
Theorem reads_never_notify (path : list string) (s : state) :
  calls (navigate path s).2 = calls s
  /\ pending (navigate path s).2 = pending s
  /\ cb_wait (cb (navigate path s).2) = cb_wait (cb s).
Proof.
  apply silent_navigate.
Qed.

Lemma noting_then_silent {A B} (m : M A) (k : A -> M B) :
  noting m -> (forall a, silent (k a)) -> noting (bind m k).
Proof.
  intros Hm Hk s. unfold bind. pose proof (Hm s) as Hs.
  destruct (m s) as [[a|e|] s1]; cbn [snd] in *; try done.
  eapply noted_quiet; [ exact Hs | apply Hk ].
Qed.

Lemma noting_nextCallback (self : nat) : noting (nextCallback self).
Proof.
  intros s. unfold nextCallback.
  unfold bind at 1, set_node at 1, modify at 1.
  unfold bind at 1, gets at 1. unfold bind at 1.
  assert (forall u : unit,
            silent (let* n := this self in
                    if truthy (n_store n) then ret (n_store n)
                    else
                      let* c := gets cb in
                      write_value (cb_store c) (cb_key c) (cb_tmp c) ;;
                      let* n0 := this self in ret (n_tmp n0))) as Hrest.
  { intros _. silence. }
  cbn [cb with_nodes]. destruct (cb_wait (cb s)) eqn:Hw.
  - unfold ret at 1.
    eapply noted_quiet; [ | apply (Hrest tt) ].
    repeat split; cbn; by rewrite ?Hw.
  - unfold bind at 1, modify.
    eapply noted_quiet; [ | apply (Hrest tt) ].
    repeat split; cbn; by rewrite ?Hw.
Qed.

Lemma noting_set_trap (self : nat) (target : loc) (key : string) (v : value) :
  noting (set_trap self target key v).
Proof.
  unfold set_trap. apply noting_then_silent; [ apply noting_nextCallback | ].
  intros dst. silence.
Qed.

Lemma noting_deleteProperty (self : nat) (target : loc) (key : string) :
  noting (deleteProperty self target key).
Proof.
  unfold deleteProperty.
  apply noting_then_silent; [ apply noting_nextCallback | ].
  intros dst. silence.
Qed.

Lemma ref_set_deferred (r : ref) (k : string) (v : value) (s : state) :
  match r with
  | Proxy _ _ => noted s (ref_set r k v s).2
  | Raw _ => quiet s (ref_set r k v s).2
  end.
Proof.
  destruct r as [b|n t]; cbn [ref_set].
  - apply silent_write_value.
  - apply (noting_then_silent (set_trap n t k v) (fun _ => ret tt));
      [ apply noting_set_trap | intros; apply silent_ret ].
Qed.

Lemma ref_delete_deferred (r : ref) (k : string) (s : state) :
  match r with
  | Proxy _ _ => noted s (ref_delete r k s).2
  | Raw _ => quiet s (ref_delete r k s).2
  end.
Proof.
  destruct r as [b|n t]; cbn [ref_delete].
  - destruct b; try apply silent_ret; try apply silent_throw.
    apply silent_heap_update.
  - apply (noting_then_silent (deleteProperty n t k) (fun _ => ret tt));
      [ apply noting_deleteProperty | intros; apply silent_ret ].
Qed.

Lemma changes_deferred_assign (path : list string) (k : string) (v : value)
  (s : state) :
  match navigate path s with
  | (Ok (Proxy _ _), _) => noted s (assign path k v s).2
  | _ => quiet s (assign path k v s).2
  end.
Proof.
  unfold assign, bind. pose proof (silent_navigate path s) as Hnav.
  destruct (navigate path s) as [[r|e|] s1]; cbn [snd] in *; try done.
  pose proof (ref_set_deferred r k v s1) as Hset.
  destruct r as [b|n t];
    first [ by eapply quiet_trans | by eapply quiet_noted ].
Qed.

Lemma changes_deferred_remove (path : list string) (k : string) (s : state) :
  match navigate path s with
  | (Ok (Proxy _ _), _) => noted s (remove path k s).2
  | _ => quiet s (remove path k s).2
  end.
Proof.
  unfold remove, bind. pose proof (silent_navigate path s) as Hnav.
  destruct (navigate path s) as [[r|e|] s1]; cbn [snd] in *; try done.
  pose proof (ref_delete_deferred r k s1) as Hdel.
  destruct r as [b|n t];
    first [ by eapply quiet_trans | by eapply quiet_noted ].
Qed.

(** X9: an assignment or a deletion at any path below the bound property
    never calls the callback while it runs.  When the path leads to a proxy,
    the statement sets the wait flag and queues a tick if none was waiting,
    and queues nothing if one was, even if the statement itself then throws;
    when the path does not lead to a proxy, nothing is queued. *)
Theorem changes_are_deferred (path : list string) (k : string) (v : value)
  (s : state) :
  match navigate path s with
  | (Ok (Proxy _ _), _) =>
      noted s (assign path k v s).2 /\ noted s (remove path k s).2
  | _ => quiet s (assign path k v s).2 /\ quiet s (remove path k s).2
  end.
Proof.
  pose proof (changes_deferred_assign path k v s) as Hset.
  pose proof (changes_deferred_remove path k s) as Hdel.
  by destruct (navigate path s) as [[[b|n t]|e|] s1].
Qed.

End SilentReads.

(** ** At most one tick is queued *)

Section OneTick.
Import Observer Sched.

Lemma quiet_sched_ok (s s' : state) : quiet s s' -> sched_ok s -> sched_ok s'.
Proof. intros (_ & Hp & Hw). unfold sched_ok. by rewrite Hp, Hw. Qed.

Lemma noted_sched_ok (s s' : state) : noted s s' -> sched_ok s -> sched_ok s'.
Proof.
  intros (_ & Hw & Hp). unfold sched_ok. rewrite Hp, Hw.
  by destruct (cb_wait (cb s)); intros ->.
Qed.

Lemma host_set_sched (v : value) (s : state) :
  pending (host_set v s).2 = pending s
  /\ cb_wait (cb (host_set v s).2) = cb_wait (cb s).
Proof.
  destruct s as [h nx nd nn c pe cl b].
  unfold host_set, mid, inner_set, bind, gets, this, set_node, modify,
    callback, ret, throw.
  cbn.
  destruct (negb (propertyIsEnumerable h (b_host b) "undefined")); cbn;
    destruct (n_proxy (node_at _ top)); cbn;
    destruct (cb_wait c) eqn:Hw; cbn;
    destruct (b_setter b); cbn; by rewrite ?Hw.
Qed.

Lemma next_turn_sched (s : state) : sched_ok s -> sched_ok (next_turn s).2.
Proof.
  destruct s as [h nx nd nn c pe cl b]. unfold sched_ok. cbn [pending cb].
  intros ->. unfold next_turn, bind, gets, modify. cbn [pending with_pending].
  destruct (cb_wait c) eqn:Hw; cbn [run_ticks].
  - unfold bind, tick_body, bind, this, gets, callback, modify, new_object,
      set_node, ret. by cbn.
  - unfold ret. cbn. by rewrite Hw.
Qed.

Lemma run_action_sched (a : action) (s : state) :
  sched_ok s -> sched_ok (run_action a s).2.
Proof.
  intros Hs. destruct a as [path|path k v|path k|v|]; cbn [run_action].
  - eapply quiet_sched_ok; [ | exact Hs ].
    apply (silent_bind (navigate path) (fun _ => ret tt));
      [ apply silent_navigate | intros; apply silent_ret ].
  - pose proof (changes_deferred_assign path k v s) as H.
    destruct (navigate path s) as [[[b|n t]|e|] s1];
      first [ by eapply quiet_sched_ok | by eapply noted_sched_ok ].
  - pose proof (changes_deferred_remove path k s) as H.
    destruct (navigate path s) as [[[b|n t]|e|] s1];
      first [ by eapply quiet_sched_ok | by eapply noted_sched_ok ].
  - destruct (host_set_sched v s) as [Hp Hw]. unfold sched_ok.
    by rewrite Hp, Hw.
  - by apply next_turn_sched.
Qed.

Lemma observe_sched (h : gmap loc object) (nxt obj : loc) (key : string)
  (s0 : state) :
  observe h nxt obj key = inr (Some s0) -> sched_ok s0.
Proof.
  unfold observe. intros Hobs.
  destruct (match own h obj key with
            | Some (Data v _ _ _) => Some (v, true, StoreSetter)
            | Some (Accessor _ true NoSetter _ _) => None
            | Some (Accessor _ false NoSetter _ _) =>
                Some (VUndef, true, StoreSetter)
            | Some (Accessor slot g f _ _) => Some (slot, g, f)
            | None => Some (VUndef, true, StoreSetter)
            end) as [[[slot g] f]|]; [ | done ].
  destruct (is_locked (own h obj key)); [ done | ].
  by injection Hobs as <-.
Qed.

(** X10: from the state [observe] leaves, whatever reads, assignments,
    deletions, replacements of the bound value and turns follow, up to and
    including the first of them that throws if one does, at most one tick is
    queued, and one is queued exactly when the wait flag is set.  The
    callback returns each time a turn calls it: a callback that throws in a
    turn leaves the wait flag set with no tick queued
    ([throwing_callback_silences_the_observer]). *)
Theorem at_most_one_tick_queued (h : gmap loc object) (nxt obj : loc)
  (key : string) (s0 : state) (acts : list action) :
  observe h nxt obj key = inr (Some s0) ->
  pending (run_actions acts s0).2
  = (if cb_wait (cb (run_actions acts s0).2) then 1 else 0).
Proof.
  intros Hobs. apply observe_sched in Hobs.
  change (sched_ok (run_actions acts s0).2).
  revert s0 Hobs. induction acts as [|a acts IH]; intros s Hs; [ done | ].
  cbn [run_actions]. unfold bind. pose proof (run_action_sched a s Hs) as Ha.
  destruct (run_action a s) as [[[]|e|] s1]; cbn [snd] in *; try done.
  by apply IH.
Qed.

Lemma host_set_waiting (v : value) (s : state) :
  cb_wait (cb s) = true -> calls (host_set v s).2 = calls s.
Proof.
  destruct s as [h nx nd nn c pe cl b]. cbn [cb]. intros Hw.
  unfold host_set, mid, inner_set, bind, gets, this, set_node, modify,
    callback, ret, throw.
  cbn.
  destruct (negb (propertyIsEnumerable h (b_host b) "undefined")); cbn;
    destruct (n_proxy (node_at _ top)); cbn;
    rewrite Hw; cbn;
    by destruct (b_setter b).
Qed.

Lemma stuck_stays (a : action) (s : state) :
  stuck s ->
  stuck (run_action a s).2 /\ calls (run_action a s).2 = calls s.
Proof.
  intros [Hw Hp]. destruct a as [path|path k v|path k|v|]; cbn [run_action].
  - destruct (silent_bind (navigate path) (fun _ => ret tt)
                (silent_navigate path) (fun _ => silent_ret tt) s)
      as (Hc & Hp' & Hw').
    unfold stuck. by rewrite Hc, Hp', Hw'.
  - pose proof (changes_deferred_assign path k v s) as H.
    unfold stuck.
    destruct (navigate path s) as [[[b|n t]|e|] s1];
      destruct H as (Hc & H1 & H2); rewrite ?Hw in *;
      by rewrite Hc, H1, H2.
  - pose proof (changes_deferred_remove path k s) as H.
    unfold stuck.
    destruct (navigate path s) as [[[b|n t]|e|] s1];
      destruct H as (Hc & H1 & H2); rewrite ?Hw in *;
      by rewrite Hc, H1, H2.
  - destruct (host_set_sched v s) as [Hp' Hw']. unfold stuck.
    by rewrite Hp', Hw', (host_set_waiting v s Hw).
  - destruct s as [h nx nd nn c pe cl b]. cbn [cb pending] in *. subst pe.
    unfold next_turn, bind, gets, modify. by cbn.
Qed.

(** When the callback throws in a turn, the exception leaves the turn with
    the wait flag still set and the diff not renewed, and no tick is queued.
    From then on the callback is never called again, whatever reads,
    assignments, deletions, replacements of the bound value and turns
    follow. *)
Lemma throwing_callback_silences_the_observer (e : exn) (s : state)
  (acts : list action) :
  pending s = 1 ->
  cb_wait (cb s) = true ->
  exists s1,
    failing_turn e s = (Throw e, s1)
    /\ length (calls s1) = S (length (calls s))
    /\ n_store (node_at s1 top) = n_store (node_at s top)
    /\ stuck s1
    /\ calls (run_actions acts s1).2 = calls s1.
Proof.
  intros Hp Hw. destruct s as [h nx nd nn c pe cl b]. cbn [cb pending] in *.
  subst pe. eexists. split; [ reflexivity | ].
  cbn [calls with_calls with_pending]. split; [ by rewrite length_app, Nat.add_1_r | ].
  split; [ reflexivity | ].
  assert (forall s1, stuck s1 -> calls (run_actions acts s1).2 = calls s1)
    as Hall.
  { induction acts as [|a acts IH]; intros s1 Hs1; [ done | ].
    cbn [run_actions]. unfold bind.
    destruct (stuck_stays a s1 Hs1) as [Hs2 Hc2].
    destruct (run_action a s1) as [[[]|e'|] s2]; cbn [snd] in *; try done.
    by rewrite IH. }
  split; [ done | ]. by apply Hall.
Qed.

End OneTick.

(** ** Installing the observer *)

Section Installing.
Import Observer Sched ObserveScenarios.

Lemma at_most_one_tick_queued_witness :
  pending (run_actions mixed_actions tree_state).2
  = (if cb_wait (cb (run_actions mixed_actions tree_state).2) then 1 else 0).
Proof.
  apply (at_most_one_tick_queued tree_heap 10 1 "state" tree_state
           mixed_actions).
  reflexivity.
Defined.




End Installing.

(** * Further properties of the event registry *)

Section Listeners.
Import Server Registry.

Lemma on_known (srv : server) (ev : string) (cb : value) (t : trigger) :
  triggers srv !! ev = Some t ->
  typeof cb = TFunction ->
  (truthy (t_callback t) = true -> typeof (t_callback t) = TFunction) ->
  on (VStr ev) cb srv
  = (Ok tt,
     mkServer (<[ev := mkTrigger (spent (t_callback t) [cb])
                                 (listeners t ++ [cb])]> (triggers srv))
              (fired srv ++ first_listener_calls (t_callback t) ev [cb])
              (conversion srv)).
Proof.
  intros Ht Hcb Hfirst. unfold on. rewrite (bool_decide_true _ Hcb).
  cbn [negb]. unfold bind, gets, modify, ret. rewrite Ht.
  cbn [triggers fired conversion spent first_listener_calls].
  destruct (truthy (t_callback t)) eqn:Htruthy.
  - specialize (Hfirst eq_refl).
    destruct (t_callback t); try done. cbn [triggers fired conversion].
    by rewrite insert_insert_eq.
  - by rewrite app_nil_r.
Qed.

Lemma on_all_known (cbs : list value) (srv : server) (ev : string)
  (t : trigger) :
  triggers srv !! ev = Some t ->
  Forall (fun cb => typeof cb = TFunction) cbs ->
  (truthy (t_callback t) = true -> typeof (t_callback t) = TFunction) ->
  exists srv',
    on_all ev cbs srv = (Ok tt, srv')
    /\ triggers srv' !! ev
       = Some (mkTrigger (spent (t_callback t) cbs) (listeners t ++ cbs))
    /\ fired srv' = fired srv ++ first_listener_calls (t_callback t) ev cbs
    /\ (forall ev', ev' ≠ ev -> triggers srv' !! ev' = triggers srv !! ev').
Proof.
  revert srv t. induction cbs as [|cb cbs IH]; intros srv t Ht Hcbs Hfirst.
  - exists srv. cbn. rewrite !app_nil_r. by destruct t.
  - apply Forall_cons in Hcbs as [Hcb Hcbs].
    cbn [on_all]. unfold bind. rewrite (on_known srv ev cb t Ht Hcb Hfirst).
    set (t1 := mkTrigger (spent (t_callback t) [cb]) (listeners t ++ [cb])).
    set (srv1 := mkServer _ _ _).
    destruct (IH srv1 t1) as (srv' & Hrun & Htr & Hfired & Hother).
    { unfold srv1. cbn [triggers]. by rewrite lookup_insert_eq. }
    { done. }
    { unfold t1. cbn [t_callback spent].
      destruct (truthy (t_callback t)) eqn:Htruthy; [ done | ].
      by rewrite Htruthy. }
    exists srv'. split; [ done | ]. rewrite Htr, Hfired. unfold t1, srv1.
    cbn [t_callback listeners fired spent first_listener_calls].
    split; [ | split ].
    + f_equal. rewrite <- app_assoc. cbn [app]. f_equal.
      destruct cbs as [|cb' cbs]; [ done | ].
      by destruct (truthy (t_callback t)) eqn:Htruthy; cbn; rewrite ?Htruthy.
    + rewrite <- app_assoc. f_equal.
      destruct cbs as [|cb' cbs]; [ by rewrite app_nil_r | ].
      by destruct (truthy (t_callback t)) eqn:Htruthy; cbn; rewrite ?Htruthy.
    + intros ev' Hev'. rewrite Hother by done. unfold srv1. cbn [triggers].
      by rewrite lookup_insert_ne.
Qed.

(** X13: listeners added with [on] to an event that has a trigger are kept
    in the order they were added, after those already there, so that a call
    of the trigger calls them in that order with the arguments of the call;
    the first-listener callback of the trigger, when it has one, is called
    once, by the first [on], and then cleared; the triggers of other events
    are not touched. *)
Theorem listeners_are_called_in_order (cbs : list value) (srv : server)
  (ev : string) (t : trigger) (args : list value) :
  triggers srv !! ev = Some t ->
  Forall (fun cb => typeof cb = TFunction) cbs ->
  (truthy (t_callback t) = true -> typeof (t_callback t) = TFunction) ->
  exists srv' t',
    on_all ev cbs srv = (Ok tt, srv')
    /\ triggers srv' !! ev = Some t'
    /\ invoke t' args = invoke t args ++ map (fun cb => (cb, args)) cbs
    /\ t_callback t' = spent (t_callback t) cbs
    /\ fired srv' = fired srv ++ first_listener_calls (t_callback t) ev cbs
    /\ (forall ev', ev' ≠ ev -> triggers srv' !! ev' = triggers srv !! ev').
Proof.
  intros Ht Hcbs Hfirst.
  destruct (on_all_known cbs srv ev t Ht Hcbs Hfirst)
    as (srv' & Hrun & Htr & Hfired & Hother).
  eexists. eexists. split; [ exact Hrun | ]. split; [ exact Htr | ].
  split; [ | by split ].
  unfold invoke. cbn [listeners]. by rewrite map_app.
Qed.

(** X14: [on] with an event for which no trigger was created (and whose
    name is not that of a member of [Object.prototype]), and a function as
    callback, does nothing at all: no exception, no listener kept, no
    callback called. *)
Theorem unknown_event_is_ignored (cbs : list value) (srv : server)
  (ev : string) :
  Inherited.inherited ev = false ->
  triggers srv !! ev = None ->
  Forall (fun cb => typeof cb = TFunction) cbs ->
  on_all ev cbs srv = (Ok tt, srv).
Proof.
  intros _ Hev Hcbs. induction Hcbs as [|cb cbs Hcb Hcbs IH]; [ done | ].
  cbn [on_all]. unfold bind, on. rewrite (bool_decide_true _ Hcb).
  cbn [negb]. unfold bind, gets, ret. by rewrite Hev.
Qed.


End Listeners.

(** * Properties of the project library and of the shutdown counter *)

Section Library.
Import Lifecycle.

(** X16: whatever the loader replies about a project (whose name is not
    that of a member of [Object.prototype]), the reply calls the callback of
    [getProj] exactly once, with the entry the library then has for the
    project.  Only a reply without error whose settings are an object
    changes the library: it stores a newly created project under the
    project's name, whether or not one was there.  A reply with an error, or
    with settings that are neither an object nor [null], adds one error to
    the log; the others add nothing. *)
Theorem reply_answers_once (projID : string) (callback : nat)
  (err : option value) (settings : value) (s : server) :
  Inherited.inherited projID = false ->
  exists s',
    loadProj_reply projID callback err settings s = (Ok tt, s')
    /\ answers s' = answers s ++ [(callback, library s' !! projID)]
    /\ library s'
       = (if creates err settings
          then <[projID := mkProject projID settings (created s)]> (library s)
          else library s)
    /\ length (log s')
       = (length (log s) + (if reported err settings then 1 else 0))%nat
    /\ requests s' = requests s
    /\ closedCount s' = closedCount s.
Proof.
  intros _.
  unfold loadProj_reply, bind, answer, create, emit, modify, ret, creates,
    reported.
  destruct err as [code|].
  - destruct (strict_eq code (VStr "TIMEOUT"));
      [ | destruct (strict_eq code (VStr "BLOCKED")) ];
      (eexists; split; [ reflexivity | ]; cbn;
       rewrite ?length_app; by split_and!).
  - destruct (Observer.isObj settings); cbn [negb andb].
    + eexists; split; [ reflexivity | ]; cbn. split_and!; try done; lia.
    + destruct (strict_eq settings VNull); cbn [negb];
        (eexists; split; [ reflexivity | ]; cbn;
         rewrite ?length_app; split_and!; try done; cbn; lia).
Qed.

(** X17: [getProj] does not hold back a second request for a project
    (whose name is not that of a member of [Object.prototype]) that is
    being loaded: two calls made before the loader replies are two
    requests, each successful reply creates a project of its own, the
    library keeps the later one, and the first caller is left with a project
    that is not the one in the library. *)
Theorem concurrent_loads_create_two_projects (projID : string)
  (init1 init2 : value) (cb1 cb2 : nat) (settings1 settings2 : loc)
  (s : server) :
  Inherited.inherited projID = false ->
  library s !! projID = None ->
  exists s' p1 p2,
    (getProj projID init1 cb1 ;; getProj projID init2 cb2 ;;
     loadProj_reply projID cb1 None (VObj settings1) ;;
     loadProj_reply projID cb2 None (VObj settings2)) s = (Ok tt, s')
    /\ requests s'
       = requests s ++ [(projID, init1, cb1); (projID, init2, cb2)]
    /\ answers s' = answers s ++ [(cb1, Some p1); (cb2, Some p2)]
    /\ p1 ≠ p2
    /\ library s' !! projID = Some p2.
Proof.
  intros _ Hnone.
  unfold getProj, loadProj_reply, bind, gets, answer, create, modify, ret.
  cbn. rewrite Hnone. cbn. rewrite Hnone. cbn.
  eexists. eexists. eexists. split; [ reflexivity | ]. cbn.
  rewrite !lookup_insert_eq, <- !app_assoc. cbn.
  split_and!; try done. intros [= _ Hserial]. lia.
Qed.

Lemma getProj_cached (projID : string) (p : project) (cs : list (value * nat))
  (s : server) :
  library s !! projID = Some p ->
  getProj_all projID cs s
  = (Ok tt,
     mkServer (library s) (closedCount s) (created s) (requests s)
              (answers s ++ map (fun c => (c.2, Some p)) cs)
              (closings s) (log s)).
Proof.
  revert s. induction cs as [|[init cb] cs IH]; intros s Hp.
  - cbn. rewrite app_nil_r. by destruct s.
  - cbn [getProj_all]. unfold bind at 1, getProj, bind, gets, answer, modify.
    rewrite Hp. cbn [fst snd]. rewrite IH by done. cbn.
    by rewrite Hp, <- app_assoc.
Qed.

(** X18: once a project is in the library, [getProj] for it never asks the
    loader again: every call is answered at once with that same project,
    and neither the library nor the log changes. *)
Theorem loaded_project_is_reused (projID : string) (p : project)
  (cs : list (value * nat)) (s : server) :
  library s !! projID = Some p ->
  exists s',
    getProj_all projID cs s = (Ok tt, s')
    /\ requests s' = requests s
    /\ answers s' = answers s ++ map (fun c => (c.2, Some p)) cs
    /\ library s' = library s
    /\ log s' = log s.
Proof.
  intros Hp. rewrite (getProj_cached projID p cs s Hp).
  eexists. split; [ reflexivity | ]. by split_and!.
Qed.

End Library.

Section Shutdown.
Import Lifecycle.

Lemma addOnClosed_all_counts (cbs : list nat) (s : server) :
  addOnClosed_all cbs s
  = (Ok tt,
     mkServer (library s) (closedCount s + Z.of_nat (length cbs)) (created s)
              (requests s) (answers s) (closings s) (log s)).
Proof.
  revert s. induction cbs as [|cb cbs IH]; intros s.
  - cbn. rewrite Z.add_0_r. by destruct s.
  - cbn [addOnClosed_all]. unfold bind, addOnClosed, modify. rewrite IH.
    cbn [library closedCount created requests answers closings log length].
    do 2 f_equal. lia.
Qed.

Lemma onClosed_counts (cb : nat) (args : list value) (s : server) :
  onClosed cb args s
  = (Ok tt,
     mkServer (library s) (closedCount s - 1) (created s) (requests s)
              (answers s) (closings s ++ [(cb, args)])
              (log s ++ (if (closedCount s - 1 =? 0)%Z
                         then [shut_down] else []))).
Proof.
  unfold onClosed, bind, modify, gets, emit, ret. cbn.
  destruct (closedCount s - 1 =? 0)%Z; [ done | by rewrite app_nil_r ].
Qed.

Lemma onClosed_all_counts (cs : list (nat * list value)) (s : server) :
  onClosed_all cs s
  = (Ok tt,
     mkServer (library s) (closedCount s - Z.of_nat (length cs)) (created s)
              (requests s) (answers s) (closings s ++ cs)
              (log s ++ (if bool_decide (1 <= closedCount s
                                         <= Z.of_nat (length cs))%Z
                         then [shut_down] else []))).
Proof.
  revert s. induction cs as [|[cb args] cs IH]; intros s.
  - cbn. rewrite Z.sub_0_r, !app_nil_r.
    rewrite bool_decide_false by lia. rewrite app_nil_r. by destruct s.
  - cbn [onClosed_all]. unfold bind at 1. cbn [fst snd].
    rewrite onClosed_counts, IH.
    cbn [library closedCount created requests answers closings log length].
    destruct (closedCount s - 1 =? 0)%Z eqn:Hzero.
    + apply Z.eqb_eq in Hzero.
      rewrite (bool_decide_false (1 <= closedCount s - 1 <= _)%Z) by lia.
      rewrite (bool_decide_true (1 <= closedCount s <= _)%Z) by lia.
      rewrite app_nil_r, <- app_assoc. cbn [app].
      by replace (closedCount s - 1 - Z.of_nat (length cs))%Z
        with (closedCount s - Z.of_nat (S (length cs)))%Z by lia.
    + apply Z.eqb_neq in Hzero. rewrite app_nil_r, <- app_assoc. cbn [app].
      rewrite (bool_decide_ext
                 (1 <= closedCount s - 1 <= Z.of_nat (length cs))%Z
                 (1 <= closedCount s <= Z.of_nat (S (length cs)))%Z) by lia.
      by replace (closedCount s - 1 - Z.of_nat (length cs))%Z
        with (closedCount s - Z.of_nat (S (length cs)))%Z by lia.
Qed.

(** X19: the shutdown counter counts calls, not callers.  After [n] systems
    were registered with [addOnClosed] on a server whose counter was zero,
    "Teleprompter server shut down!" is logged by the [n]-th call of any of
    the returned functions, also when one of them was called twice and
    another not at all, and is logged at most once however many calls
    follow. *)
Theorem shutdown_is_logged_at_the_nth_close (callbacks : list nat)
  (cs : list (nat * list value)) (s : server) :
  closedCount s = 0%Z ->
  exists s',
    (addOnClosed_all callbacks ;; onClosed_all cs) s = (Ok tt, s')
    /\ log s'
       = log s ++ (if bool_decide (1 <= length callbacks <= length cs)%nat
                   then [shut_down] else [])
    /\ closings s' = closings s ++ cs
    /\ closedCount s'
       = (Z.of_nat (length callbacks) - Z.of_nat (length cs))%Z.
Proof.
  intros Hzero. unfold bind. rewrite addOnClosed_all_counts.
  rewrite onClosed_all_counts.
  cbn [library closedCount created requests answers closings log].
  eexists. split; [ reflexivity | ].
  cbn [library closedCount created requests answers closings log].
  rewrite Hzero. split_and!; [ | done | lia ].
  f_equal.
  by rewrite (bool_decide_ext
                (1 <= 0 + Z.of_nat (length callbacks)
                 <= Z.of_nat (length cs))%Z
                (1 <= length callbacks <= length cs)%nat) by lia.
Qed.

End Shutdown.

Section ServerScenarioFacts.
Import Server Registry ServerScenarios.

Lemma listeners_are_called_in_order_witness :
  exists srv' t',
    on_all "preload" [VFun 2; VFun 3] preload_server = (Ok tt, srv')
    /\ triggers srv' !! "preload" = Some t'
    /\ invoke t' [VNum 7]
       = invoke preload_trigger [VNum 7]
         ++ map (fun cb => (cb, [VNum 7])) [VFun 2; VFun 3]
    /\ t_callback t' = spent (t_callback preload_trigger) [VFun 2; VFun 3]
    /\ fired srv'
       = fired preload_server
         ++ first_listener_calls (t_callback preload_trigger) "preload"
              [VFun 2; VFun 3]
    /\ (forall ev',
          ev' ≠ "preload" ->
          triggers srv' !! ev' = triggers preload_server !! ev').
Proof.
  apply (listeners_are_called_in_order [VFun 2; VFun 3] preload_server
           "preload" preload_trigger [VNum 7]).
  - reflexivity.
  - repeat constructor.
  - reflexivity.
Defined.

Lemma unknown_event_is_ignored_witness :
  on_all "reload" [VFun 2; VFun 3] preload_server = (Ok tt, preload_server).
Proof.
  apply (unknown_event_is_ignored [VFun 2; VFun 3] preload_server "reload").
  - reflexivity.
  - reflexivity.
  - repeat constructor.
Defined.


End ServerScenarioFacts.

Section LifecycleScenarioFacts.
Import Lifecycle ServerScenarios.

Lemma concurrent_loads_create_two_projects_witness :
  exists s' p1 p2,
    (getProj "show" VNull 1 ;; getProj "show" VNull 2 ;;
     loadProj_reply "show" 1 None (VObj 1) ;;
     loadProj_reply "show" 2 None (VObj 2)) idle_server = (Ok tt, s')
    /\ requests s'
       = requests idle_server ++ [("show", VNull, 1); ("show", VNull, 2)]
    /\ answers s' = answers idle_server ++ [(1, Some p1); (2, Some p2)]
    /\ p1 ≠ p2
    /\ library s' !! "show" = Some p2.
Proof.
  apply (concurrent_loads_create_two_projects "show" VNull VNull 1 2 1 2
           idle_server); reflexivity.
Defined.

Lemma reply_answers_once_witness :
  exists s',
    loadProj_reply "show" 1 (Some (VStr "TIMEOUT")) VUndef idle_server
    = (Ok tt, s')
    /\ answers s' = answers idle_server ++ [(1, library s' !! "show")]
    /\ library s'
       = (if creates (Some (VStr "TIMEOUT")) VUndef
          then <["show" := mkProject "show" VUndef (created idle_server)]>
                 (library idle_server)
          else library idle_server)
    /\ length (log s')
       = (length (log idle_server)
          + (if reported (Some (VStr "TIMEOUT")) VUndef then 1 else 0))%nat
    /\ requests s' = requests idle_server
    /\ closedCount s' = closedCount idle_server.
Proof.
  apply (reply_answers_once "show" 1 (Some (VStr "TIMEOUT")) VUndef
           idle_server).
  reflexivity.
Defined.

Lemma loaded_project_is_reused_witness :
  exists s',
    getProj_all "show" [(VNull, 1); (VNull, 2)] loaded_server = (Ok tt, s')
    /\ requests s' = requests loaded_server
    /\ answers s'
       = answers loaded_server
         ++ map (fun c => (c.2, Some show_project)) [(VNull, 1); (VNull, 2)]
    /\ library s' = library loaded_server
    /\ log s' = log loaded_server.
Proof.
  apply (loaded_project_is_reused "show" show_project
           [(VNull, 1); (VNull, 2)] loaded_server).
  reflexivity.
Defined.

Lemma shutdown_is_logged_at_the_nth_close_witness :
  exists s',
    (addOnClosed_all [1; 2] ;; onClosed_all [(1, []); (1, [])]) idle_server
    = (Ok tt, s')
    /\ log s'
       = log idle_server
         ++ (if bool_decide (1 <= length [1; 2]
                             <= length [(1, ([] : list value));
                                        (1, ([] : list value))])%nat
             then [shut_down] else [])
    /\ closings s' = closings idle_server ++ [(1, []); (1, [])]
    /\ closedCount s'
       = (Z.of_nat (length [1; 2])
          - Z.of_nat (length [(1, ([] : list value));
                              (1, ([] : list value))]))%Z.
Proof.
  apply (shutdown_is_logged_at_the_nth_close [1; 2] [(1, []); (1, [])]
           idle_server).
  reflexivity.
Defined.

End LifecycleScenarioFacts.

(** * Properties of [getQueryProperty] *)

(** ** Strings *)

Section Strings.
Import Socket.

Lemma app_cons_s (x : ascii) (a b : string) :
  String x a +:+ b = String x (a +:+ b).
Proof. reflexivity. Qed.

Lemma app_nil_s (b : string) : "" +:+ b = b.
Proof. reflexivity. Qed.

Lemma app_nil_r_s (a : string) : a +:+ "" = a.
Proof.
  induction a as [|x a IH]; rewrite ?app_cons_s, ?app_nil_s; [ done | ].
  by rewrite IH.
Qed.

Lemma app_assoc_s (a b c : string) : (a +:+ b) +:+ c = a +:+ (b +:+ c).
Proof.
  induction a as [|x a IH]; rewrite ?app_cons_s, ?app_nil_s; [ done | ].
  by rewrite IH.
Qed.

Lemma length_app_s (a b : string) :
  String.length (a +:+ b) = (String.length a + String.length b)%nat.
Proof.
  induction a as [|x a IH]; rewrite ?app_cons_s, ?app_nil_s; [ done | ].
  cbn [String.length]. by rewrite IH.
Qed.

Lemma drop_app (a b : string) : drop (String.length a) (a +:+ b) = b.
Proof.
  induction a as [|x a IH]; rewrite ?app_cons_s, ?app_nil_s;
    [ by destruct b | done ].
Qed.

Lemma drop_0 (s : string) : drop 0 s = s.
Proof. by destruct s. Qed.

Lemma take_app (a b : string) : take (String.length a) (a +:+ b) = a.
Proof.
  induction a as [|x a IH]; rewrite ?app_cons_s, ?app_nil_s;
    [ by destruct b | ].
  cbn [String.length take]. by rewrite IH.
Qed.

Lemma take_all (a : string) : take (String.length a) a = a.
Proof.
  induction a as [|x a IH]; [ done | ]. cbn [String.length take].
  by rewrite IH.
Qed.

Lemma prefix_empty (s : string) : String.prefix "" s = true.
Proof. by destruct s. Qed.

Lemma prefix_app (n t : string) : String.prefix n (n +:+ t) = true.
Proof.
  induction n as [|x n IH]; rewrite ?app_cons_s, ?app_nil_s;
    [ apply prefix_empty | ].
  cbn [String.prefix]. by destruct (ascii_dec x x).
Qed.

Lemma prefix_split (n s : string) :
  String.prefix n s = true -> exists t, s = n +:+ t.
Proof.
  revert s. induction n as [|x n IH]; intros s Hp.
  - by exists s.
  - destruct s as [|y s]; cbn [String.prefix] in Hp; [ done | ].
    destruct (ascii_dec x y) as [->|]; [ | done ].
    destruct (IH s Hp) as (t & ->). by exists t.
Qed.

Lemma find_here (needle t : string) : find needle (needle +:+ t) = Some 0%nat.
Proof.
  destruct (needle +:+ t) eqn:Hs; cbn [find]; by rewrite <- ?Hs, prefix_app.
Qed.

(** An occurrence is found at or before the place where one is known. *)
Lemma find_app_some (needle a b : string) :
  exists i, find needle (a +:+ needle +:+ b) = Some i
            /\ (i <= String.length a)%nat.
Proof.
  induction a as [|x a (i & IH & Hi)]; rewrite ?app_cons_s, ?app_nil_s.
  - exists 0%nat. by rewrite find_here.
  - cbn [find].
    destruct (String.prefix needle (String x (a +:+ needle +:+ b))).
    + exists 0%nat. split; [ done | lia ].
    + exists (S i). rewrite IH. split; [ done | cbn; lia ].
Qed.

(** Where [find] points, the needle is. *)
Lemma find_split (needle s : string) (i : nat) :
  find needle s = Some i ->
  exists a b, s = a +:+ needle +:+ b /\ String.length a = i.
Proof.
  revert i. induction s as [|x s IH]; intros i; cbn [find].
  - destruct (String.prefix needle "") eqn:Hp; [ | done ]. intros [= <-].
    destruct (prefix_split _ _ Hp) as (t & Ht). by exists "", t.
  - destruct (String.prefix needle (String x s)) eqn:Hp.
    + intros [= <-]. destruct (prefix_split _ _ Hp) as (t & Ht).
      by exists "", t.
    + destruct (find needle s) as [j|]; [ | done ]. intros [= <-].
      destruct (IH j eq_refl) as (a & b & -> & <-).
      by exists (String x a), b.
Qed.

(** A character that is not in [a] is first found right after [a]. *)
Lemma find_char (c : ascii) (a t : string) :
  has c a = false ->
  find (String c "") (a +:+ String c t) = Some (String.length a).
Proof.
  induction a as [|x a IH]; rewrite ?app_cons_s, ?app_nil_s.
  - intros _. apply (find_here (String c "") t).
  - cbn [has]. intros Hx. apply orb_false_iff in Hx as [Hx Ha].
    cbn [find String.prefix]. destruct (ascii_dec c x) as [->|Hne].
    { by rewrite Ascii.eqb_refl in Hx. }
    by rewrite IH.
Qed.

Lemma find_char_none (c : ascii) (a : string) :
  has c a = false -> find (String c "") a = None.
Proof.
  induction a as [|x a IH]; cbn [has find String.prefix]; [ done | ].
  intros Hx. apply orb_false_iff in Hx as [Hx Ha].
  destruct (ascii_dec c x) as [->|Hne].
  { by rewrite Ascii.eqb_refl in Hx. }
  by rewrite IH.
Qed.

Lemma find_char_has (c : ascii) (a : string) :
  find (String c "") a = None -> has c a = false.
Proof.
  induction a as [|x a IH]; cbn [has find String.prefix]; [ done | ].
  destruct (ascii_dec c x) as [->|Hne].
  { by rewrite prefix_empty. }
  destruct (find (String c "") a); [ done | ]. intros _.
  rewrite IH by done. rewrite orb_false_r. apply Ascii.eqb_neq. congruence.
Qed.

Lemma find_char_split (c : ascii) (s : string) (i : nat) :
  find (String c "") s = Some i ->
  exists a b,
    s = a +:+ String c b /\ String.length a = i /\ has c a = false.
Proof.
  revert i. induction s as [|x s IH]; intros i; cbn [find String.prefix];
    [ done | ].
  destruct (ascii_dec c x) as [->|Hne].
  - rewrite prefix_empty. intros [= <-]. by exists "", s.
  - destruct (find (String c "") s) as [j|]; [ | done ]. intros [= <-].
    destruct (IH j eq_refl) as (a & b & -> & <- & Ha).
    exists (String x a), b. split_and!; try done.
    cbn [has]. rewrite Ha, orb_false_r. apply Ascii.eqb_neq. congruence.
Qed.

Lemma has_app (c : ascii) (a b : string) :
  has c (a +:+ b) = has c a || has c b.
Proof.
  induction a as [|x a IH]; rewrite ?app_cons_s, ?app_nil_s; [ done | ].
  cbn [has]. by rewrite IH, orb_assoc.
Qed.

End Strings.

(** ** The parameter found *)

Section QueryParameter.
Import Socket.

Context {R : Type}.
Variable decodeURIComponent : string -> R.

Lemma indexOf_app (a b needle : string) :
  indexOf (a +:+ b) needle (String.length a)
  = match find needle b with
    | Some i => Z.of_nat (String.length a + i)
    | None => (-1)%Z
    end.
Proof.
  unfold indexOf. rewrite length_app_s.
  rewrite Nat.min_l by lia. by rewrite drop_app.
Qed.

Lemma indexOf_0 (s needle : string) :
  indexOf s needle 0
  = match find needle s with
    | Some i => Z.of_nat i
    | None => (-1)%Z
    end.
Proof. unfold indexOf. by rewrite Nat.min_0_l, drop_0. Qed.

(** The text [param=] is first found right after a text without [=], when
    [param] has no [=] either. *)
Lemma find_param (junk param tail : string) :
  has "=" junk = false ->
  has "=" param = false ->
  find (param +:+ "=") (junk +:+ (param +:+ "=") +:+ tail)
  = Some (String.length junk).
Proof.
  intros Hjunk Hparam.
  destruct (find_app_some (param +:+ "=") junk tail) as (i & Hi & Hle).
  rewrite Hi. f_equal.
  destruct (find_split _ _ _ Hi) as (a & b & Hs & Ha).
  assert (find "=" (junk +:+ (param +:+ "=") +:+ tail)
          = Some (String.length junk + String.length param)%nat) as Hfirst.
  { rewrite (app_assoc_s param "=" tail), <- (app_assoc_s junk param).
    rewrite <- length_app_s. apply find_char.
    by rewrite has_app, Hjunk, Hparam. }
  rewrite Hs in Hfirst.
  rewrite (app_assoc_s param "=" b), <- (app_assoc_s a param) in Hfirst.
  destruct (find_app_some "=" (a +:+ param) b) as (j & Hj & Hjle).
  rewrite Hj in Hfirst. injection Hfirst as ->.
  rewrite length_app_s in Hjle. lia.
Qed.

(** X20: in a URL whose query is [junk param=val rest], where neither [junk]
    nor [param] has a [=], [val] has no [&], and [rest] is empty or starts
    with [&], [getQueryProperty] returns what [decodeURIComponent] makes of
    [val] with every [+] turned into a space first.  [junk] need not end
    with [&]: the name is looked for as a piece of text, so asking for
    [prefix] also finds the value of [xprefix]. *)
Theorem query_parameter_is_extracted (path junk param val rest : string) :
  has "?" path = false ->
  has "=" junk = false ->
  has "=" param = false ->
  has "&" val = false ->
  rest = "" \/ (exists r, rest = "&" +:+ r) ->
  getQueryProperty decodeURIComponent
    (path +:+ "?" +:+ junk +:+ param +:+ "=" +:+ val +:+ rest) param
  = Some (decodeURIComponent (replace_plus val)).
Proof.
  intros Hpath Hjunk Hparam Hval Hrest.
  set (url := path +:+ "?" +:+ junk +:+ param +:+ "=" +:+ val +:+ rest).
  set (pre := (path +:+ "?") +:+ junk +:+ param +:+ "=").
  assert (String.length pre
          = (S (String.length path) + String.length junk
             + S (String.length param))%nat) as Hpre.
  { unfold pre. rewrite !length_app_s. cbn [String.length]. lia. }
  assert (url = pre +:+ val +:+ rest) as Eval.
  { unfold url, pre. by rewrite !app_assoc_s. }
  assert (indexOf url "?" 0 = Z.of_nat (String.length path)) as I1.
  { rewrite indexOf_0.
    assert (find "?" url = Some (String.length path)) as ->; [ | done ].
    by apply (find_char "?" path
                (junk +:+ param +:+ "=" +:+ val +:+ rest)). }
  assert (indexOf url (param +:+ "=") (S (String.length path))
          = Z.of_nat (S (String.length path) + String.length junk)) as I2.
  { replace url
      with ((path +:+ "?") +:+ junk +:+ (param +:+ "=") +:+ val +:+ rest)
      by (unfold url; by rewrite !app_assoc_s).
    replace (S (String.length path)) with (String.length (path +:+ "?"))
      by (rewrite length_app_s; cbn [String.length]; lia).
    rewrite indexOf_app. by rewrite find_param. }
  assert (indexOf url "&" (String.length pre)
          = if bool_decide (rest = "") then (-1)%Z
            else Z.of_nat (String.length pre + String.length val)) as I3.
  { rewrite Eval, indexOf_app. destruct Hrest as [-> | (r & ->)].
    - rewrite bool_decide_true by done.
      by rewrite app_nil_r_s, find_char_none.
    - rewrite bool_decide_false by done.
      assert (find "&" (val +:+ "&" +:+ r) = Some (String.length val))
        as ->; [ | done ].
      by apply (find_char "&" val r). }
  assert (drop (String.length pre) url = val +:+ rest) as Hdrop.
  { by rewrite Eval, drop_app. }
  unfold getQueryProperty. rewrite I1.
  destruct (Z.eqb_spec (Z.of_nat (String.length path) + 1) 0); [ lia | ].
  replace (Z.to_nat (Z.of_nat (String.length path) + 1))
    with (S (String.length path)) by lia.
  rewrite I2.
  destruct (Z.eqb_spec
              (Z.of_nat (S (String.length path) + String.length junk) + 1) 0);
    [ lia | ].
  replace (Z.to_nat
             (Z.of_nat (S (String.length path) + String.length junk) + 1
              + Z.of_nat (String.length param)))
    with (String.length pre) by lia.
  rewrite I3. do 2 f_equal. unfold slice.
  destruct Hrest as [-> | (r & ->)].
  - rewrite bool_decide_true by done.
    change (Z.max 0 (-1) =? 0)%Z with true. cbn iota.
    by rewrite Hdrop, app_nil_r_s.
  - rewrite bool_decide_false by done.
    destruct (Z.eqb_spec
                (Z.max 0 (Z.of_nat (String.length pre + String.length val)))
                0); [ lia | ].
    rewrite Hdrop.
    replace (Z.to_nat
               (Z.max 0 (Z.of_nat (String.length pre + String.length val)))
             - String.length pre)%nat
      with (String.length val) by lia.
    by rewrite take_app.
Qed.

(** X21: [getQueryProperty] returns [undefined] in two cases and no other:
    the URL has no [?], or the text [param=] does not occur anywhere after
    the first [?]. *)
Theorem query_parameter_is_undefined (url param : string) :
  getQueryProperty decodeURIComponent url param = None
  <-> has "?" url = false
      \/ (exists path q,
            url = path +:+ "?" +:+ q
            /\ has "?" path = false
            /\ forall a b, q ≠ a +:+ param +:+ "=" +:+ b).
Proof.
  unfold getQueryProperty. rewrite indexOf_0.
  destruct (find "?" url) as [i|] eqn:Hqm.
  - destruct (find_char_split _ _ _ Hqm) as (path & q & Hurl & Hi & Hpath).
    destruct (Z.eqb_spec (Z.of_nat i + 1) 0); [ lia | ].
    replace (Z.to_nat (Z.of_nat i + 1)) with (String.length (path +:+ "?"))
      by (rewrite length_app_s; cbn [String.length]; lia).
    assert (url = (path +:+ "?") +:+ q) as Hurl'.
    { by rewrite Hurl, app_assoc_s. }
    rewrite Hurl' at 1. rewrite indexOf_app.
    destruct (find (param +:+ "=") q) as [j|] eqn:Hparam.
    + destruct (Z.eqb_spec
                  (Z.of_nat (String.length (path +:+ "?") + j) + 1) 0);
        [ lia | ].
      split; [ done | ]. intros [Hno | (path' & q' & Hurl2 & Hpath' & Hq')].
      * apply find_char_none in Hno. congruence.
      * assert (find "?" url = Some (String.length path')) as Hqm'.
        { rewrite Hurl2. by apply (find_char "?" path' q'). }
        assert (path' = path /\ q' = q) as [-> ->].
        { rewrite Hqm in Hqm'. injection Hqm' as Hlen.
          rewrite Hurl in Hurl2. clear -Hurl2 Hlen Hi. subst i.
          revert path' Hurl2 Hlen.
          induction path as [|x p IH]; intros [|y p'] Heq Hlen;
            rewrite ?app_cons_s, ?app_nil_s in Heq; cbn in Hlen;
            try done.
          - by injection Heq as ->.
          - injection Heq as -> Heq. injection Hlen as Hlen.
            by destruct (IH p' Heq Hlen) as [-> ->]. }
        destruct (find_split _ _ _ Hparam) as (a & b & Hq & _).
        destruct (Hq' a b). by rewrite Hq, app_assoc_s.
    + split; [ intros _ | done ].
      right. exists path, q. split_and!; try done.
      intros a b Hq.
      destruct (find_app_some (param +:+ "=") a b) as (j & Hj & _).
      rewrite app_assoc_s, <- Hq in Hj. congruence.
  - change (-1 + 1 =? 0)%Z with true. cbn iota. split; [ intros _ | done ].
    left. by apply find_char_has.
Qed.

End QueryParameter.

(** * The first write below the observed value, at any depth *)

Section Chain.
Import Observer Deep.

Lemma resolves_frame (h h' : gmap loc object) (bound : loc)
  (path : list string) (T T' : loc) :
  (forall l, l < bound -> obj_at h' l = obj_at h l) ->
  T < bound ->
  resolves h bound T path T' -> resolves h' bound T path T'.
Proof.
  intros Hframe. revert T. induction path as [|k path IH]; intros T HT;
    cbn [resolves]; [ done | ].
  intros (Hname & Hfree & U & Hk & HU & Hrest).
  split_and!; [ done | unfold own; by rewrite Hframe | ].
  exists U. split_and!; [ | done | by apply IH ].
  unfold get, own. by rewrite Hframe.
Qed.

Lemma resolves_below (h : gmap loc object) (bound : loc) (path : list string)
  (T T' : loc) :
  T < bound -> resolves h bound T path T' -> T' < bound.
Proof.
  revert T. induction path as [|k path IH]; intros T HT; cbn [resolves].
  - by intros ->.
  - intros (_ & _ & U & _ & HU & Hrest). by eapply IH.
Qed.

Lemma reify_tree (h : gmap loc object) (path : list string) (t : loc)
  (k : string) (v : value) (fuel : nat) :
  tree_at h t path k v ->
  isObj v = false ->
  length path < fuel ->
  reify fuel h (VObj t) = nest path k v.
Proof.
  revert t fuel. induction path as [|p path IH]; intros t fuel Htree Hv Hfuel;
    cbn [tree_at nest length] in *.
  - destruct fuel as [|fuel]; [ lia | ].
    rewrite (reify_singleton _ _ _ _ _ Htree). by rewrite reify_scalar.
  - destruct Htree as (t' & Ht & Htree).
    destruct fuel as [|fuel]; [ lia | ].
    rewrite (reify_singleton _ _ _ _ _ Ht). rewrite (IH t' fuel); try done.
    lia.
Qed.

End Chain.

Section ChainStep.
Import Observer Deep.

(** Normalisation of node and heap lookups at symbolic positions. *)
Local Ltac chain_norm :=
  repeat (progress obs_cbn
          || (rewrite put_fresh by obs_side)
          || rewrite insert_insert_eq
          || rewrite lookup_insert_eq
          || rewrite lookup_empty
          || (rewrite lookup_insert_ne by lia)
          || rewrite get_insert
          || (rewrite get_insert_ne by lia)
          || (rewrite own_insert_ne by lia)
          || rewrite obj_at_insert
          || (rewrite obj_at_insert_ne by lia)).

(** One step down from a node that has no [store]: a child node and a
    scratch object are created, and the scratch object is hung into the
    scratch object of the node. *)
Lemma get_trap_chain (h : gmap loc object) (nx : loc) (nd : gmap nat node)
  (nn : nat) (c0 : cbprops) (pe : nat) (cl : list (value * json))
  (b : binding) (c : nat) (px : option loc) (T t U : loc) (k : string) :
  nd !! c = Some (mkNode px (Some ∅) (VObj t) VUndef) ->
  c < nn ->
  get h T k = VObj U ->
  is_constant (own h T k) = false ->
  obj_at h t = [] ->
  t < nx -> T < nx -> T ≠ t ->
  get_trap c T k (mkState h nx nd nn c0 pe cl b)
  = (Ok (Proxy nn U),
     mkState (<[t := [(k, plain (VObj nx))]]> (<[nx := []]> h)) (S nx)
             (<[nn := mkNode (Some U) (Some ∅) (VObj nx) VUndef]>
                (<[c := mkNode px (Some (<[k := nn]> ∅)) (VObj t) VUndef]>
                   (<[nn := empty_node]> nd)))
             (S nn) c0 pe cl b).
Proof.
  intros Hc Hlt Hk Hfree Ht Htn HTn HTt.
  assert (put (<[nx := []]> h) t k (VObj nx)
          = inr (<[t := [(k, plain (VObj nx))]]> (<[nx := []]> h))) as Hput.
  { apply put_fresh. by rewrite obj_at_insert_ne by lia. }
  repeat (progress (obs_unfold; chain_norm; rewrite ?Hc, ?Hk, ?Hput, ?Hfree)).
  reflexivity.
Qed.

(** The write at the end of the chain: the scratch chain is hung into the
    diff, the value is written into the scratch object of the node and into
    the target. *)
Lemma set_trap_chain (h : gmap loc object) (nx : loc) (nd : gmap nat node)
  (nn pe : nat) (cl : list (value * json)) (b : binding) (c : nat)
  (px : option loc) (cm : option (gmap string nat)) (T t root t1 : loc)
  (k k1 : string) (v : value) :
  nd !! c = Some (mkNode px cm (VObj t) VUndef) ->
  obj_at h root = [] ->
  obj_at h t = [] ->
  root ≠ t -> T ≠ t -> T ≠ root ->
  assignable (own h T k) = true ->
  exists h',
    set_trap c T k v
      (mkState h nx nd nn (mkCb false k1 (VObj root) (VObj t1)) pe cl b)
    = (Ok true,
       mkState h' nx (<[c := mkNode None cm (VObj t) VUndef]> nd) nn
               (mkCb true k1 (VObj root) (VObj t1)) (S pe) cl b)
    /\ obj_at h' root = [(k1, plain (VObj t1))]
    /\ obj_at h' t = [(k, plain v)]
    /\ (forall l, l ≠ root -> l ≠ t -> l ≠ T -> obj_at h' l = obj_at h l).
Proof.
  intros Hc Hroot Ht Hrt HTt HTr Hput.
  set (h1 := <[root := [(k1, plain (VObj t1))]]> h).
  set (h2 := <[t := [(k, plain v)]]> h1).
  assert (put h root k1 (VObj t1) = inr h1) as Hput1 by by apply put_fresh.
  assert (put h1 t k v = inr h2) as Hput2.
  { apply put_fresh. unfold h1. by rewrite obj_at_insert_ne. }
  destruct (put_assignable h2 T k v) as (h3 & Hput3 & Hframe & _).
  { unfold own, h2, h1. by rewrite !obj_at_insert_ne. }
  exists h3. split.
  { repeat (progress (obs_unfold; chain_norm;
                      rewrite ?Hc, ?Hput1, ?Hput2, ?Hput3)).
    reflexivity. }
  split_and!.
  - rewrite Hframe by done. unfold h2, h1.
    by rewrite obj_at_insert_ne, obj_at_insert.
  - rewrite Hframe by done. unfold h2. by rewrite obj_at_insert.
  - intros l Hl1 Hl2 Hl3. rewrite Hframe by done. unfold h2, h1.
    by rewrite !obj_at_insert_ne.
Qed.

Lemma chain_write (k k1 : string) (v : value) (lim root t1 : loc)
  (b : binding) (cl : list (value * json)) (pe : nat) (path : list string) :
  forall (h : gmap loc object) (nx : loc) (nd : gmap nat node) (nn c : nat)
         (px : option loc) (T t Tn : loc),
    nd !! c = Some (mkNode px (Some ∅) (VObj t) VUndef) ->
    top < c -> c < nn ->
    obj_at h root = [] ->
    obj_at h t = [] ->
    lim <= root -> root < t -> t < nx ->
    T < lim ->
    resolves h lim T path Tn ->
    assignable (own h Tn k) = true ->
    exists s',
      (let* r := ref_path (Proxy c T) path in ref_set r k v)
        (mkState h nx nd nn (mkCb false k1 (VObj root) (VObj t1)) pe cl b)
      = (Ok tt, s')
      /\ tree_at (heap s') t path k v
      /\ obj_at (heap s') root = [(k1, plain (VObj t1))]
      /\ (forall l, l < lim -> l ≠ Tn -> obj_at (heap s') l = obj_at h l)
      /\ (forall l, root < l -> l < t -> obj_at (heap s') l = obj_at h l)
      /\ nodes s' !! top = nd !! top
      /\ next s' = nx + length path
      /\ cb_wait (cb s') = true
      /\ pending s' = S pe
      /\ calls s' = cl
      /\ Observer.bound s' = b.
Proof.
  induction path as [|k' path IH];
    intros h nx nd nn c px T t Tn Hc Htop Hlt Hroot Ht Hbr Hrt Htn HT Hres Hput;
    cbn [resolves] in Hres.
  - subst Tn.
    destruct (set_trap_chain h nx nd nn pe cl b c px (Some ∅) T t root t1 k k1 v)
      as (h' & Hset & Hr' & Ht' & Hframe); try done; try lia.
    eexists. split.
    { cbn [ref_path]. unfold bind at 1, ret at 1. cbn [ref_set].
      unfold bind. rewrite Hset. reflexivity. }
    cbn [heap nodes next cb cb_wait pending calls Observer.bound tree_at
         length].
    split_and!; try done.
    all: try (intros l Hl Hl'; apply Hframe; lia).
    all: try (by rewrite lookup_insert_ne by (unfold top in *; lia)).
    all: try lia.
  - destruct Hres as (_ & Hfree & U & Hk & HU & Hres).
    pose proof (get_trap_chain h nx nd nn (mkCb false k1 (VObj root) (VObj t1))
                  pe cl b c px T t U k' Hc Hlt Hk Hfree Ht Htn) as Hstep.
    set (h1 := <[t := [(k', plain (VObj nx))]]> (<[nx := []]> h)) in *.
    set (nd1 := <[nn := mkNode (Some U) (Some ∅) (VObj nx) VUndef]> _) in *.
    destruct (IH h1 (S nx) nd1 (S nn) nn (Some U) U nx Tn)
      as (s' & Hrun & Htree & Hr' & Hlow & Hmid & Hnodes & Hnext & Hw & Hp
          & Hcl & Hb); try done; try lia.
    { unfold nd1. by rewrite lookup_insert_eq. }
    { unfold h1. by rewrite !obj_at_insert_ne by lia. }
    { unfold h1. rewrite obj_at_insert_ne by lia. by rewrite obj_at_insert. }
    { apply (resolves_frame h); [ | done | done ].
      intros l Hl. unfold h1. by rewrite !obj_at_insert_ne by lia. }
    { pose proof (resolves_below _ _ _ _ _ HU Hres) as HTn.
      unfold own, h1. by rewrite !obj_at_insert_ne by lia. }
    exists s'. split.
    { cbn [ref_path]. unfold bind at 1. unfold bind at 1. cbn [ref_get].
      rewrite Hstep by lia. exact Hrun. }
    split_and!; try done.
    + cbn [tree_at]. exists nx. split; [ | done ].
      rewrite Hmid by lia. unfold h1. by rewrite obj_at_insert.
    + intros l Hl Hl'. rewrite Hlow by done. unfold h1.
      by rewrite !obj_at_insert_ne by lia.
    + intros l Hl Hl'. rewrite Hmid by lia. unfold h1.
      by rewrite !obj_at_insert_ne by lia.
    + rewrite Hnodes. unfold nd1.
      by rewrite !lookup_insert_ne by (unfold top in *; lia).
    + rewrite Hnext. cbn [length]. lia.
Qed.

End ChainStep.

Section FirstWrite.
Import Observer Deep.

Variables (h : gmap loc object) (nxt host S : loc) (key : string).
Variables (w e : bool).
Hypothesis HS : S < nxt.
Hypothesis Hbound : own h host key = Some (Data (VObj S) w e true).

Lemma assign_cons (k1 : string) (path : list string) (k : string)
  (v : value) (s : state) :
  assign (k1 :: path) k v s
  = match (let* r := host_get in ref_get r k1) s with
    | (Ok r', s') => (let* r := ref_path r' path in ref_set r k v) s'
    | (Throw e, s') => (Throw e, s')
    | (OutOfFuel, s') => (OutOfFuel, s')
    end.
Proof.
  unfold assign, navigate, bind. cbn [ref_path]. unfold bind.
  destruct (host_get s) as [[r|err|] s']; try done.
  by destruct (ref_get r k1 s') as [[r'|err|] s''].
Qed.

Lemma first_step (k1 : string) (U : loc) :
  get h S k1 = VObj U ->
  is_constant (own h S k1) = false ->
  exists s0 nd1,
    observe h nxt host key = inr (Some s0)
    /\ (let* r := host_get in ref_get r k1) s0
       = (Ok (Proxy 1 U),
          mkState (<[Datatypes.S nxt := []]> (<[nxt := []]> h))
                  (Datatypes.S (Datatypes.S nxt)) nd1 2
                  (mkCb false k1 (VObj nxt) (VObj (Datatypes.S nxt))) 0 []
                  (mkBinding host key (VObj S) true StoreSetter e))
    /\ nd1 !! 1 = Some (mkNode (Some U) (Some ∅) (VObj (Datatypes.S nxt))
                               VUndef)
    /\ nd1 !! top = Some (mkNode (Some S) (Some (<[k1 := 1]> ∅)) VUndef
                                 (VObj nxt)).
Proof.
  intros Hk Hfree. eexists. eexists. split.
  { unfold observe. rewrite Hbound. cbn. reflexivity. }
  split.
  { repeat (progress (obs_unfold; obs_norm; rewrite ?Hk, ?Hfree)).
    reflexivity. }
  split.
  - by rewrite lookup_insert_eq.
  - rewrite lookup_insert_ne by done. by rewrite lookup_insert_eq.
Qed.


End FirstWrite.

Section FirstWriteScenario.
Import Observer Deep.


End FirstWriteScenario.

Section QueryScenario.
Import Socket.

Lemma query_parameter_is_extracted_witness :
  getQueryProperty (fun s => s)
    ("/ws" +:+ "?" +:+ "x" +:+ "prefix" +:+ "=" +:+ "a+b" +:+ "&y=1")
    "prefix"
  = Some (replace_plus "a+b").
Proof.
  apply (query_parameter_is_extracted (fun s => s) "/ws" "x" "prefix" "a+b"
           "&y=1").
  - reflexivity.
  - reflexivity.
  - reflexivity.
  - reflexivity.
  - right. by exists "y=1".
Defined.

End QueryScenario.

(** * The installed setter *)

Section InstalledSetter.
Import Observer SetterScenarios.




End InstalledSetter.

(** * Pre-loading *)

Section PreloadSteps.
Import Preload.

Lemma loadProj_reply_ok (projID : string) (callback : nat)
  (err : option value) (settings : value) (l : Lifecycle.server) :
  exists l',
    Lifecycle.loadProj_reply projID callback err settings l = (Ok tt, l')
    /\ Lifecycle.answers l'
       = Lifecycle.answers l ++ [(callback, Lifecycle.library l' !! projID)].
Proof.
  unfold Lifecycle.loadProj_reply, bind, Lifecycle.answer, Lifecycle.create,
    Lifecycle.emit, modify, ret.
  destruct err as [code|].
  - destruct (strict_eq code (VStr "TIMEOUT"));
      [ | destruct (strict_eq code (VStr "BLOCKED")) ];
      by eexists.
  - destruct (Observer.isObj settings); [ by eexists | ].
    destruct (negb (strict_eq settings VNull)); by eexists.
Qed.

(** A step of the library that calls one callback runs that callback. *)
Lemma answered_one (m : Lifecycle.M unit) (s : state) (l' : Lifecycle.server)
  (i : nat) (x : option Lifecycle.project) :
  m (life s) = (Ok tt, l') ->
  Lifecycle.answers l' = Lifecycle.answers (life s) ++ [(i, x)] ->
  answered m s
  = (done_one i ;; ret tt)
      (mkState (registry s) l' (completed s) (async s) (delivered s)).
Proof.
  intros Hm Hans. unfold answered, bind at 1, gets at 1.
  unfold bind at 1, lift_life at 1. rewrite Hm.
  unfold bind at 1, gets at 1. cbn [life]. rewrite Hans.
  rewrite drop_app_length. cbn [each fst]. reflexivity.
Qed.

(** A step of the library that calls no callback. *)
Lemma answered_none (m : Lifecycle.M unit) (s : state) (l' : Lifecycle.server) :
  m (life s) = (Ok tt, l') ->
  Lifecycle.answers l' = Lifecycle.answers (life s) ->
  answered m s
  = (Ok tt, mkState (registry s) l' (completed s) (async s) (delivered s)).
Proof.
  intros Hm Hans. unfold answered, bind at 1, gets at 1.
  unfold bind at 1, lift_life at 1. rewrite Hm.
  unfold bind at 1, gets at 1. cbn [life]. rewrite Hans.
  by rewrite drop_all.
Qed.

Lemma done_one_more (i : nat) (s : state) :
  (completed s - 1)%Z ≠ 0%Z ->
  done_one i s
  = (Ok tt,
     mkState (registry s) (life s) (completed s - 1) (async s) (delivered s)).
Proof.
  intros Hmore. unfold done_one, bind, modify, gets. cbn [completed].
  destruct (Z.eqb_spec (completed s - 1) 0); done.
Qed.

(** The last callback, called before its iteration has set [async]: the
    trigger is kept for the first listener. *)
Lemma done_one_last_early (i : nat) (s : state) (t : Server.trigger) :
  completed s = 1%Z ->
  async s !! i = None ->
  Server.triggers (registry s) !! "preload" = Some t ->
  exists l',
    done_one i s
    = (Ok tt,
       mkState (Server.mkServer
                  (<["preload" := Server.mkTrigger deferred
                                    (Server.listeners t)]>
                     (Server.triggers (registry s)))
                  (Server.fired (registry s))
                  (Server.conversion (registry s)))
               l' 0 (async s) (delivered s))
    /\ Lifecycle.library l' = Lifecycle.library (life s)
    /\ Lifecycle.requests l' = Lifecycle.requests (life s)
    /\ Lifecycle.answers l' = Lifecycle.answers (life s)
    /\ Lifecycle.log l'
       = Lifecycle.log (life s) ++ [summary (Lifecycle.library (life s))].
Proof.
  destruct s as [reg l c a dl]. cbn [completed async registry life delivered].
  intros -> Hasync Ht. eexists. split.
  - unfold done_one, bind, modify, gets, lift_life, Lifecycle.emit, defer.
    cbn. change (1 - 1 =? 0)%Z with true. cbn. rewrite Hasync. cbn.
    rewrite Ht. reflexivity.
  - done.
Qed.

(** The last callback, called after its iteration has set [async]: the
    trigger is called at once, with the listeners there are. *)
Lemma done_one_last_late (i : nat) (s : state) (t : Server.trigger) :
  completed s = 1%Z ->
  async s !! i = Some true ->
  Server.triggers (registry s) !! "preload" = Some t ->
  exists l',
    done_one i s
    = (Ok tt,
       mkState (registry s) l' 0 (async s)
               (delivered s
                ++ map (fun cb => (cb, Lifecycle.library (life s)))
                       (Server.listeners t)))
    /\ Lifecycle.library l' = Lifecycle.library (life s)
    /\ Lifecycle.requests l' = Lifecycle.requests (life s)
    /\ Lifecycle.answers l' = Lifecycle.answers (life s)
    /\ Lifecycle.log l'
       = Lifecycle.log (life s) ++ [summary (Lifecycle.library (life s))].
Proof.
  destruct s as [reg l c a dl]. cbn [completed async registry life delivered].
  intros -> Hasync Ht. eexists. split.
  - unfold done_one, bind, modify, gets, lift_life, Lifecycle.emit, fire.
    cbn. change (1 - 1 =? 0)%Z with true. cbn. rewrite Hasync. cbn.
    rewrite Ht. reflexivity.
  - done.
Qed.

Lemma on_preload_deferred (s : state) (ls : list value) (f : value) :
  typeof f = TFunction ->
  Server.triggers (registry s) !! "preload"
  = Some (Server.mkTrigger deferred ls) ->
  on (VStr "preload") f s
  = (Ok tt,
     mkState (Server.mkServer
                (<["preload" := Server.mkTrigger VNull (ls ++ [f])]>
                   (Server.triggers (registry s)))
                (Server.fired (registry s) ++ [(deferred, "preload")])
                (Server.conversion (registry s)))
             (life s) (completed s) (async s)
             (delivered s
              ++ map (fun cb => (cb, Lifecycle.library (life s)))
                     (ls ++ [f]))).
Proof.
  intros Hf Ht. unfold on, bind at 1, gets at 1.
  unfold bind at 1, lift_registry at 1.
  rewrite (on_known (registry s) "preload" f _ Ht Hf) by done.
  unfold bind at 1, gets at 1.
  cbn [registry Server.fired Server.t_callback Server.listeners
       Registry.spent Registry.first_listener_calls deferred truthy].
  rewrite drop_app_length. cbn [each fst].
  rewrite bool_decide_true by done. unfold bind, fire, ret.
  cbn [registry Server.triggers life completed async delivered].
  by rewrite lookup_insert_eq.
Qed.

Lemma on_preload_idle (s : state) (callback : value) (ls : list value)
  (f : value) :
  typeof f = TFunction ->
  truthy callback = false ->
  Server.triggers (registry s) !! "preload"
  = Some (Server.mkTrigger callback ls) ->
  on (VStr "preload") f s
  = (Ok tt,
     mkState (Server.mkServer
                (<["preload" := Server.mkTrigger callback (ls ++ [f])]>
                   (Server.triggers (registry s)))
                (Server.fired (registry s))
                (Server.conversion (registry s)))
             (life s) (completed s) (async s) (delivered s)).
Proof.
  intros Hf Hcb Ht. unfold on, bind at 1, gets at 1.
  unfold bind at 1, lift_registry at 1.
  rewrite (on_known (registry s) "preload" f _ Ht Hf)
    by (cbn [Server.t_callback]; by rewrite Hcb).
  unfold bind at 1, gets at 1.
  cbn [registry Server.fired Server.t_callback Server.listeners
       Registry.spent Registry.first_listener_calls].
  rewrite Hcb, app_nil_r, drop_all. reflexivity.
Qed.

End PreloadSteps.

Section PreloadEarly.
Import Preload.

Variable loader : string -> option (option value * value).

(** An iteration for a project the library has: [getProj] calls back before
    [async] is set. *)
Lemma iteration_known (i : nat) (projID : string) (s : state)
  (t : Server.trigger) :
  is_Some (Lifecycle.library (life s) !! projID) ->
  async s !! i = None ->
  Server.triggers (registry s) !! "preload" = Some t ->
  exists s',
    iteration loader i projID s = (Ok tt, s')
    /\ completed s' = (completed s - 1)%Z
    /\ delivered s' = delivered s
    /\ Lifecycle.library (life s') = Lifecycle.library (life s)
    /\ Lifecycle.requests (life s') = Lifecycle.requests (life s)
    /\ Server.fired (registry s') = Server.fired (registry s)
    /\ Server.triggers (registry s') !! "preload"
       = Some (Server.mkTrigger
                 (if bool_decide (completed s = 1%Z) then deferred
                  else Server.t_callback t)
                 (Server.listeners t))
    /\ async s' = <[i := true]> (async s).
Proof.
  intros [p Hp] Hasync Ht.
  unfold iteration, bind at 1, gets at 1.
  rewrite (bool_decide_true
             (is_Some (Lifecycle.library (life s) !! projID)))
    by (by exists p).
  unfold bind at 1.
  rewrite (answered_one (Lifecycle.getProj projID VNull i) s
             (Lifecycle.mkServer
                (Lifecycle.library (life s)) (Lifecycle.closedCount (life s))
                (Lifecycle.created (life s)) (Lifecycle.requests (life s))
                (Lifecycle.answers (life s) ++ [(i, Some p)])
                (Lifecycle.closings (life s)) (Lifecycle.log (life s)))
             i (Some p)).
  2: { unfold Lifecycle.getProj, bind, gets, Lifecycle.answer, modify.
       rewrite Hp. cbn. by rewrite Hp. }
  2: { done. }
  set (s1 := mkState _ _ _ _ _).
  unfold bind at 1. unfold bind at 1.
  destruct (decide (completed s = 1%Z)) as [Hone | Hmore].
  - destruct (done_one_last_early i s1 t) as (l' & -> & Hlib & Hreq & _ & _);
      try done.
    rewrite bool_decide_true by done.
    eexists. split; [ reflexivity | ].
    cbn [completed delivered life registry async Server.triggers Server.fired].
    rewrite Hlib, Hreq, lookup_insert_eq. split_and!; try done. lia.
  - rewrite done_one_more by (unfold s1; cbn [completed]; lia).
    rewrite bool_decide_false by done.
    eexists. split; [ reflexivity | ].
    cbn [completed delivered life registry async Server.triggers Server.fired
         Lifecycle.library Lifecycle.requests].
    split_and!; try done. by destruct t.
Qed.

Lemma iterations_known (ids : list string) :
  forall (i : nat) (s : state) (t : Server.trigger),
    (forall id, id ∈ ids -> is_Some (Lifecycle.library (life s) !! id)) ->
    (forall j, i <= j -> async s !! j = None) ->
    Server.triggers (registry s) !! "preload" = Some t ->
    exists s',
      iterations loader i ids s = (Ok tt, s')
      /\ completed s' = (completed s - Z.of_nat (length ids))%Z
      /\ delivered s' = delivered s
      /\ Lifecycle.library (life s') = Lifecycle.library (life s)
      /\ Lifecycle.requests (life s') = Lifecycle.requests (life s)
      /\ Server.fired (registry s') = Server.fired (registry s)
      /\ Server.triggers (registry s') !! "preload"
         = Some (Server.mkTrigger
                   (if bool_decide (1 <= completed s
                                    <= Z.of_nat (length ids))%Z
                    then deferred else Server.t_callback t)
                   (Server.listeners t)).
Proof.
  induction ids as [|id ids IH]; intros i s t Hknown Hfresh Ht.
  - exists s. cbn [iterations length]. rewrite bool_decide_false by lia.
    split_and!; try done; [ lia | by destruct t ].
  - destruct (iteration_known i id s t)
      as (s1 & Hrun & Hc & Hd & Hlib & Hreq & Hfired & Htr & Hasync);
      [ apply Hknown, list_elem_of_here | apply Hfresh; lia | done | ].
    destruct (IH (S i) s1
                (Server.mkTrigger
                   (if bool_decide (completed s = 1%Z) then deferred
                    else Server.t_callback t)
                   (Server.listeners t)))
      as (s2 & Hrun2 & Hc2 & Hd2 & Hlib2 & Hreq2 & Hfired2 & Htr2).
    { intros id' Hin. rewrite Hlib. by apply Hknown, list_elem_of_further. }
    { intros j Hj. rewrite Hasync, lookup_insert_ne by lia.
      apply Hfresh. lia. }
    { done. }
    exists s2. cbn [iterations]. unfold bind at 1. rewrite Hrun.
    split; [ done | ]. cbn [length].
    split_and!; try congruence; [ lia | ].
    rewrite Htr2. cbn [Server.t_callback Server.listeners]. do 2 f_equal.
    rewrite Hc. repeat case_bool_decide; try done; lia.
Qed.

End PreloadEarly.

Section PreloadLate.
Import Preload.

(** An iteration for a project the library lacks, with a loader that
    replies later: a request is made and nothing else happens. *)
Lemma iteration_requested (i : nat) (projID : string) (s : state) :
  Lifecycle.library (life s) !! projID = None ->
  exists s',
    iteration (fun _ => None) i projID s = (Ok tt, s')
    /\ completed s' = completed s
    /\ delivered s' = delivered s
    /\ registry s' = registry s
    /\ Lifecycle.library (life s') = Lifecycle.library (life s)
    /\ Lifecycle.requests (life s')
       = Lifecycle.requests (life s) ++ [(projID, VNull, i)]
    /\ async s' = <[i := true]> (async s).
Proof.
  intros Hp. unfold iteration, bind at 1, gets at 1.
  rewrite (bool_decide_false
             (is_Some (Lifecycle.library (life s) !! projID)))
    by (rewrite Hp; by intros [? ?]).
  unfold bind at 1.
  rewrite (answered_none (Lifecycle.getProj projID VNull i) s
             (Lifecycle.mkServer
                (Lifecycle.library (life s)) (Lifecycle.closedCount (life s))
                (Lifecycle.created (life s))
                (Lifecycle.requests (life s) ++ [(projID, VNull, i)])
                (Lifecycle.answers (life s))
                (Lifecycle.closings (life s)) (Lifecycle.log (life s)))).
  2: { unfold Lifecycle.getProj, bind, gets, modify. by rewrite Hp. }
  2: { done. }
  eexists. split; [ reflexivity | ]. by split_and!.
Qed.

Lemma iterations_requested (ids : list string) :
  forall (i : nat) (s : state),
    (forall id, id ∈ ids -> Lifecycle.library (life s) !! id = None) ->
    exists s',
      iterations (fun _ => None) i ids s = (Ok tt, s')
      /\ completed s' = completed s
      /\ delivered s' = delivered s
      /\ registry s' = registry s
      /\ Lifecycle.library (life s') = Lifecycle.library (life s)
      /\ Lifecycle.requests (life s')
         = Lifecycle.requests (life s)
           ++ imap (fun j id => (id, VNull, i + j)) ids
      /\ (forall j,
            async s' !! j
            = if bool_decide (i <= j < i + length ids) then Some true
              else async s !! j).
Proof.
  induction ids as [|id ids IH]; intros i s Hnew.
  - exists s. cbn [iterations imap length]. rewrite app_nil_r.
    split_and!; try done. intros j. by rewrite bool_decide_false by lia.
  - destruct (iteration_requested i id s)
      as (s1 & Hrun & Hc & Hd & Hreg & Hlib & Hreq & Hasync);
      [ apply Hnew, list_elem_of_here | ].
    destruct (IH (S i) s1)
      as (s2 & Hrun2 & Hc2 & Hd2 & Hreg2 & Hlib2 & Hreq2 & Hasync2).
    { intros id' Hin. rewrite Hlib. by apply Hnew, list_elem_of_further. }
    exists s2. cbn [iterations]. unfold bind at 1. rewrite Hrun.
    split; [ done | ]. split_and!; try congruence.
    + rewrite Hreq2, Hreq, <- app_assoc. cbn [imap app]. do 2 f_equal.
      * do 2 f_equal. lia.
      * apply imap_ext. intros j x _. cbn. do 2 f_equal. lia.
    + intros j. cbn [length]. rewrite Hasync2, Hasync.
      destruct (decide (j = i)) as [->|Hne].
      * rewrite lookup_insert_eq, (bool_decide_false (S i <= i < _)) by lia.
        by rewrite bool_decide_true by lia.
      * rewrite lookup_insert_ne by done.
        by rewrite (bool_decide_ext (S i <= j < S i + length ids)
                      (i <= j < i + S (length ids))) by lia.
Qed.

Lemma replies_complete (rs : list (nat * string * option value * value)) :
  forall (s : state) (t : Server.trigger),
    rs ≠ [] ->
    completed s = Z.of_nat (length rs) ->
    (forall r, r ∈ rs -> async s !! r.1.1.1 = Some true) ->
    Server.triggers (registry s) !! "preload" = Some t ->
    exists s',
      replies rs s = (Ok tt, s')
      /\ delivered s'
         = delivered s
           ++ map (fun cb => (cb, Lifecycle.library (life s')))
                  (Server.listeners t)
      /\ registry s' = registry s
      /\ completed s' = 0%Z.
Proof.
  induction rs as [|[[[i projID] err] settings] rs IH]; intros s t Hrs Hc Ha Ht;
    [ done | ].
  cbn [replies]. unfold bind at 1, reply.
  destruct (loadProj_reply_ok projID i err settings (life s))
    as (l' & Hreply & Hans).
  rewrite (answered_one _ s l' i _ Hreply Hans).
  set (s1 := mkState _ _ _ _ _). unfold bind at 1.
  assert (async s1 !! i = Some true) as Hi.
  { apply (Ha (i, projID, err, settings)), list_elem_of_here. }
  destruct rs as [|r rs].
  - destruct (done_one_last_late i s1 t) as (l2 & -> & Hlib & _); try done.
    eexists. split; [ reflexivity | ].
    cbn [delivered life registry completed replies]. by rewrite Hlib.
  - rewrite done_one_more
      by (unfold s1; cbn [completed length] in *; lia).
    destruct (IH (mkState (registry s1) (life s1) (completed s1 - 1)
                          (async s1) (delivered s1)) t)
      as (s2 & Hrun & Hd & Hreg & Hc2); try done.
    { unfold s1. cbn [completed length] in *. lia. }
    { intros r' Hr'. cbn [async]. by apply Ha, list_elem_of_further. }
    exists s2. split; [ exact Hrun | ]. by split_and!.
Qed.

End PreloadLate.

Section PreloadOutcomes.
Import Preload.

Lemma getProjs_reply_ids (loader : string -> option (option value * value))
  (ids : list string) (s : state) :
  ids ≠ [] ->
  getProjs_reply loader None (Ids ids) s
  = iterations loader 0 ids
      (mkState (registry s) (life s) (Z.of_nat (length ids)) (async s)
               (delivered s)).
Proof.
  intros Hids. unfold getProjs_reply, bind, modify.
  by rewrite bool_decide_false.
Qed.

(** X25: when every project of the list is in the library already, every
    [getProj] calls back before its iteration has set [async], and
    pre-loading is complete when the [getProjs] callback returns.  No
    listener is called then, not even one added before.  The listeners
    there are, are called when the next listener is added, that one
    included, each once, with the library; a listener added after that is
    never called. *)
Theorem early_completion_waits_for_a_listener
  (loader : string -> option (option value * value)) (ids : list string)
  (s : state) (callback : value) (ls : list value) (f g : value) :
  ids ≠ [] ->
  (forall id, id ∈ ids -> is_Some (Lifecycle.library (life s) !! id)) ->
  async s = ∅ ->
  Server.triggers (registry s) !! "preload"
  = Some (Server.mkTrigger callback ls) ->
  typeof f = TFunction ->
  typeof g = TFunction ->
  exists s1 s2 s3,
    getProjs_reply loader None (Ids ids) s = (Ok tt, s1)
    /\ delivered s1 = delivered s
    /\ Lifecycle.requests (life s1) = Lifecycle.requests (life s)
    /\ on (VStr "preload") f s1 = (Ok tt, s2)
    /\ delivered s2
       = delivered s
         ++ map (fun cb => (cb, Lifecycle.library (life s))) (ls ++ [f])
    /\ on (VStr "preload") g s2 = (Ok tt, s3)
    /\ delivered s3 = delivered s2.
Proof.
  intros Hids Hknown Hasync Ht Hf Hg.
  rewrite (getProjs_reply_ids loader ids s Hids).
  destruct (iterations_known loader ids 0
              (mkState (registry s) (life s) (Z.of_nat (length ids)) (async s)
                       (delivered s))
              (Server.mkTrigger callback ls))
    as (s1 & Hrun & _ & Hd & Hlib & Hreq & _ & Htr); try done.
  { intros j _. cbn [async]. by rewrite Hasync. }
  cbn [completed delivered life Server.t_callback Server.listeners] in *.
  rewrite bool_decide_true in Htr by (destruct ids; cbn [length]; [ done | lia ]).
  pose proof (on_preload_deferred s1 ls f Hf Htr) as Hon1.
  match type of Hon1 with _ = (_, ?x) => set (s2 := x) in * end.
  assert (Server.triggers (registry s2) !! "preload"
          = Some (Server.mkTrigger VNull (ls ++ [f]))) as Htr2.
  { unfold s2. cbn [registry Server.triggers]. by rewrite lookup_insert_eq. }
  pose proof (on_preload_idle s2 VNull (ls ++ [f]) g Hg eq_refl Htr2) as Hon2.
  match type of Hon2 with _ = (_, ?x) => set (s3 := x) in * end.
  exists s1, s2, s3. split_and!; try done.
  unfold s2. cbn [delivered]. by rewrite Hd, Hlib.
Qed.

(** X26: when no project of the list is in the library (and no project
    name, in the list or in a reply, is the name of a member of
    [Object.prototype], which [this.library] would inherit) and the loader
    replies after [loadProj] has returned, the [getProjs] callback makes one
    request for each project of the list and calls no listener.  The last
    of as many replies as there are projects, whatever they say and in
    whatever order they come (also when one request is answered twice and
    another not at all), calls the listeners there are at that time, each
    once, with the library as it then is; the first-listener callback of
    [preload] is left unset, so that a listener added afterwards is never
    called. *)
Theorem late_listener_misses_preload (ids : list string)
  (rs : list (nat * string * option value * value)) (s : state)
  (callback : value) (ls : list value) (f : value) :
  ids ≠ [] ->
  (forall id, id ∈ ids -> Inherited.inherited id = false) ->
  (forall r, r ∈ rs -> Inherited.inherited r.1.1.2 = false) ->
  (forall id, id ∈ ids -> Lifecycle.library (life s) !! id = None) ->
  async s = ∅ ->
  Server.triggers (registry s) !! "preload"
  = Some (Server.mkTrigger callback ls) ->
  truthy callback = false ->
  length rs = length ids ->
  (forall r, r ∈ rs -> r.1.1.1 < length ids) ->
  typeof f = TFunction ->
  exists s1 s2 s3,
    getProjs_reply (fun _ => None) None (Ids ids) s = (Ok tt, s1)
    /\ delivered s1 = delivered s
    /\ Lifecycle.requests (life s1)
       = Lifecycle.requests (life s)
         ++ imap (fun j id => (id, VNull, j)) ids
    /\ replies rs s1 = (Ok tt, s2)
    /\ delivered s2
       = delivered s
         ++ map (fun cb => (cb, Lifecycle.library (life s2))) ls
    /\ on (VStr "preload") f s2 = (Ok tt, s3)
    /\ delivered s3 = delivered s2.
Proof.
  intros Hids _ _ Hnew Hasync Ht Hcb Hlen Hrs Hf.
  rewrite (getProjs_reply_ids _ ids s Hids).
  destruct (iterations_requested ids 0
              (mkState (registry s) (life s) (Z.of_nat (length ids)) (async s)
                       (delivered s)))
    as (s1 & Hrun & Hc & Hd & Hreg & Hlib & Hreq & Ha); [ done | ].
  cbn [completed delivered life registry async] in *.
  destruct (replies_complete rs s1 (Server.mkTrigger callback ls))
    as (s2 & Hrun2 & Hd2 & Hreg2 & Hc2).
  { intros ->. by destruct ids. }
  { by rewrite Hc, Hlen. }
  { intros r Hr. rewrite Ha. rewrite bool_decide_true; [ done | ].
    specialize (Hrs r Hr). lia. }
  { by rewrite Hreg. }
  cbn [Server.listeners] in Hd2.
  assert (Server.triggers (registry s2) !! "preload"
          = Some (Server.mkTrigger callback ls)) as Htr2.
  { by rewrite Hreg2, Hreg. }
  pose proof (on_preload_idle s2 callback ls f Hf Hcb Htr2) as Hon.
  match type of Hon with _ = (_, ?x) => set (s3 := x) in * end.
  exists s1, s2, s3. split_and!; try done. by rewrite Hd2, Hd.
Qed.

End PreloadOutcomes.

Section NothingToPreload.
Import Preload PreloadScenarios.

(** X27: when the [getProjs] callback gets an error, an empty array, [null]
    or something that is not an array, no project is asked for and the
    trigger [preload] is neither called nor kept for later: the listeners
    there are, and those added afterwards, are never called. *)
Theorem nothing_to_preload (loader : string -> option (option value * value))
  (err : option value) (given : projs) (s : state) (callback : value)
  (ls : list value) (f : value) :
  is_Some err \/ given = Ids [] \/ given = NoIds
  \/ (exists v, given = NotArray v) ->
  Server.triggers (registry s) !! "preload"
  = Some (Server.mkTrigger callback ls) ->
  truthy callback = false ->
  typeof f = TFunction ->
  exists s1 s2,
    getProjs_reply loader err given s = (Ok tt, s1)
    /\ registry s1 = registry s
    /\ delivered s1 = delivered s
    /\ Lifecycle.requests (life s1) = Lifecycle.requests (life s)
    /\ Lifecycle.library (life s1) = Lifecycle.library (life s)
    /\ on (VStr "preload") f s1 = (Ok tt, s2)
    /\ delivered s2 = delivered s.
Proof.
  intros Hnone Ht Hcb Hf.
  assert (exists s1,
            getProjs_reply loader err given s = (Ok tt, s1)
            /\ registry s1 = registry s
            /\ delivered s1 = delivered s
            /\ Lifecycle.requests (life s1) = Lifecycle.requests (life s)
            /\ Lifecycle.library (life s1) = Lifecycle.library (life s))
    as (s1 & Hrun & Hreg & Hd & Hreq & Hlib).
  { unfold getProjs_reply, note, bind, lift_life, Lifecycle.emit, modify.
    destruct err as [code|].
    - destruct (strict_eq code (VStr "TIMEOUT"));
        [ | destruct (strict_eq code (VStr "BLOCKED")) ];
        by eexists.
    - destruct Hnone as [[? [=]] | [-> | [-> | (v & ->)]]]; by eexists. }
  assert (Server.triggers (registry s1) !! "preload"
          = Some (Server.mkTrigger callback ls)) as Ht1 by by rewrite Hreg.
  pose proof (on_preload_idle s1 callback ls f Hf Hcb Ht1) as Hon.
  match type of Hon with _ = (_, ?x) => set (s2 := x) in * end.
  by exists s1, s2.
Qed.

Lemma nothing_to_preload_witness :
  exists s1 s2,
    getProjs_reply (fun _ => None) None (Ids []) cold = (Ok tt, s1)
    /\ registry s1 = registry cold
    /\ delivered s1 = delivered cold
    /\ Lifecycle.requests (life s1) = Lifecycle.requests (life cold)
    /\ Lifecycle.library (life s1) = Lifecycle.library (life cold)
    /\ on (VStr "preload") (VFun 2) s1 = (Ok tt, s2)
    /\ delivered s2 = delivered cold.
Proof.
  apply (nothing_to_preload (fun _ => None) None (Ids []) cold VUndef
           [VFun 1] (VFun 2)).
  - right. by left.
  - reflexivity.
  - reflexivity.
  - reflexivity.
Defined.

Lemma early_completion_waits_for_a_listener_witness :
  exists s1 s2 s3,
    getProjs_reply (fun _ => None) None (Ids ["show"]) warm = (Ok tt, s1)
    /\ delivered s1 = delivered warm
    /\ Lifecycle.requests (life s1) = Lifecycle.requests (life warm)
    /\ on (VStr "preload") (VFun 2) s1 = (Ok tt, s2)
    /\ delivered s2
       = delivered warm
         ++ map (fun cb => (cb, Lifecycle.library (life warm)))
                ([VFun 1] ++ [VFun 2])
    /\ on (VStr "preload") (VFun 3) s2 = (Ok tt, s3)
    /\ delivered s3 = delivered s2.
Proof.
  apply (early_completion_waits_for_a_listener (fun _ => None) ["show"] warm
           VUndef [VFun 1] (VFun 2) (VFun 3)).
  - discriminate.
  - intros id Hid. apply list_elem_of_singleton in Hid as ->.
    by exists ServerScenarios.show_project.
  - reflexivity.
  - reflexivity.
  - reflexivity.
  - reflexivity.
Defined.

Lemma late_listener_misses_preload_witness :
  exists s1 s2 s3,
    getProjs_reply (fun _ => None) None (Ids ["show"; "news"]) cold
    = (Ok tt, s1)
    /\ delivered s1 = delivered cold
    /\ Lifecycle.requests (life s1)
       = Lifecycle.requests (life cold)
         ++ imap (fun j id => (id, VNull, j)) ["show"; "news"]
    /\ replies two_replies s1 = (Ok tt, s2)
    /\ delivered s2
       = delivered cold
         ++ map (fun cb => (cb, Lifecycle.library (life s2))) [VFun 1]
    /\ on (VStr "preload") (VFun 2) s2 = (Ok tt, s3)
    /\ delivered s3 = delivered s2.
Proof.
  apply (late_listener_misses_preload ["show"; "news"] two_replies cold VUndef
           [VFun 1] (VFun 2)).
  - discriminate.
  - intros id Hid.
    apply elem_of_cons in Hid as [-> | Hid]; [ reflexivity | ].
    by apply list_elem_of_singleton in Hid as ->.
  - intros r Hr. unfold two_replies in Hr.
    apply elem_of_cons in Hr as [-> | Hr]; [ reflexivity | ].
    by apply list_elem_of_singleton in Hr as ->.
  - intros id _. reflexivity.
  - reflexivity.
  - reflexivity.
  - reflexivity.
  - reflexivity.
  - intros r Hr. unfold two_replies in Hr.
    apply elem_of_cons in Hr as [-> | Hr]; [ cbn; lia | ].
    apply list_elem_of_singleton in Hr as ->. cbn. lia.
  - reflexivity.
Defined.

End NothingToPreload.
